(** * EdenFS object-fetch subsystem: identifier codec, local key/value
      store backends and the Sapling import pipeline.

    The development embeds the following parts of the repository:
    - [eden/fs/store/hg/SaplingBackingStore.cpp]: the object-id and root-id
      codecs, [compareObjectsById], [prepareRequests], the batch fetchers,
      the blob and aux-data import pipelines, [getBlob], [getBlobAuxData],
      [prefetchBlobs], [dropAllPendingRequestsFromQueue], the fetch of one
      tree from the adapter, the import of root trees with the
      commit-to-tree mapping, the caching policy, the table of outstanding
      trace events and the telemetry of fetches;
    - [eden/fs/store/MemoryLocalStore.cpp] and
      [eden/fs/store/SqliteLocalStore.cpp]: [put], [get], [hasKey],
      [clearKeySpace], [open] and the write batches.

    Byte strings ([std::string], [folly::StringPiece], [folly::ByteRange])
    are [string]; C++ exceptions are values of [exn] carried by [Try]. *)

From Stdlib Require Import String Ascii NArith List Bool Lia.
From stdpp Require Import gmap strings list fin_maps.

Local Open Scope string_scope.

(* ===================================================================== *)
(** ** Exceptions and [folly::Try] *)
(* ===================================================================== *)

(** The exceptions the embedded code throws or receives. *)
Inductive exn : Type :=
| invalid_argument (what : string)   (* std::invalid_argument *)
| domain_error (what : string)       (* std::domain_error *)
| runtime_error (what : string)      (* std::runtime_error *)
| argument_error (what : string)     (* EdenError, ARGUMENT_ERROR *)
| check_failure (what : string)      (* XCHECK / EDEN_BUG *)
| PromiseAlreadySatisfied            (* folly::PromiseAlreadySatisfied *)
| sqlite_error (what : string)       (* an error reported by SQLite *)
| fetch_error (what : string).       (* an error reported by the adapter *)

(** [folly::Try<T>]; also the outcome of a call that may throw. *)
Inductive Try (A : Type) : Type :=
| Value (a : A)
| Exception (e : exn).
Arguments Value {A} a.
Arguments Exception {A} e.

Definition hasValue {A} (t : Try A) : bool :=
  match t with Value _ => true | Exception _ => false end.

Definition try_bind {A B} (t : Try A) (k : A -> Try B) : Try B :=
  match t with Value a => k a | Exception e => Exception e end.

#[global] Instance exn_eq_dec : EqDecision exn.
Proof. solve_decision. Defined.

(* ===================================================================== *)
(** ** Hexadecimal text ([folly::hexlify], [folly::unhexlify]) *)
(* ===================================================================== *)

(** The lowercase digit of a nibble. *)
Definition hexDigit (n : N) : ascii :=
  if (n <? 10)%N then ascii_of_N (48 + n) else ascii_of_N (87 + n).

(** The nibble of a digit; both letter cases are read. *)
Definition hexValue (c : ascii) : option N :=
  let n := N_of_ascii c in
  if ((48 <=? n) && (n <=? 57))%N then Some (n - 48)%N
  else if ((97 <=? n) && (n <=? 102))%N then Some (n - 87)%N
  else if ((65 <=? n) && (n <=? 70))%N then Some (n - 55)%N
  else None.

Fixpoint hexlify (s : string) : string :=
  match s with
  | EmptyString => EmptyString
  | String b rest =>
      String (hexDigit (N_of_ascii b / 16))
        (String (hexDigit (N_of_ascii b mod 16)) (hexlify rest))
  end.

(** [None] stands for the exception of [folly::unhexlify]: odd length or a
    character that is no hex digit. *)
Fixpoint unhexlify (s : string) : option string :=
  match s with
  | EmptyString => Some EmptyString
  | String _ EmptyString => None
  | String hi (String lo rest) =>
      match hexValue hi, hexValue lo, unhexlify rest with
      | Some h, Some l, Some bytes => Some (String (ascii_of_N (16 * h + l)) bytes)
      | _, _, _ => None
      end
  end.

(** [StringPiece::subpiece(n)]: the text from position [n] on. *)
Fixpoint subpieceFrom (n : nat) (s : string) : string :=
  match n, s with
  | O, _ => s
  | S n', String _ rest => subpieceFrom n' rest
  | S _, EmptyString => EmptyString
  end.

(** [StringPiece::subpiece(0, n)]: the first [n] characters. *)
Fixpoint subpieceTo (n : nat) (s : string) : string :=
  match n, s with
  | O, _ => EmptyString
  | S n', String c rest => String c (subpieceTo n' rest)
  | S _, EmptyString => EmptyString
  end.

Definition startsWith (s pre : string) : bool := String.prefix pre s.

Fixpoint zeroBytes (n : nat) : string :=
  match n with O => EmptyString | S n' => String zero (zeroBytes n') end.

(* ===================================================================== *)
(** ** Hashes, proxy hashes and object ids *)
(* ===================================================================== *)

(** [ObjectId]: opaque bytes. *)
Definition ObjectId := string.

(** [ObjectId::bytesEqual]. *)
Definition bytesEqual (one two : ObjectId) : bool := String.eqb one two.

(** A [Hash20] is held as its 20 raw bytes. *)
Definition Hash20 := string.
Definition RAW_SIZE : nat := 20.

(** Modelled from the spec: the [Hash20] constructor from text, absent from
    the sources, reads the 40-character hex form of a 20-byte hash. *)
Definition Hash20_fromHex (hex : string) : Try Hash20 :=
  if negb (String.length hex =? 2 * RAW_SIZE)%nat then
    Exception (invalid_argument "incorrect data size for Hash constructor from string")
  else match unhexlify hex with
       | Some bytes => Value bytes
       | None => Exception (invalid_argument "invalid hex digit supplied to Hash constructor from string")
       end.

(** [Hash20::toString]: the lowercase hex form. *)
Definition Hash20_toString (h : Hash20) : string := hexlify h.

(** Modelled from the spec: [kZeroHash], absent from the sources, is the
    null hash whose hex form is the all-zero string. *)
Definition kZeroHash : Hash20 := zeroBytes RAW_SIZE.

(** [HgProxyHash]: the revision hash and the path. *)
Record HgProxyHash : Type := mkProxyHash {
  revHash : Hash20;
  path : string
}.

Definition byteHash (p : HgProxyHash) : string := revHash p.

#[global] Instance HgProxyHash_eq_dec : EqDecision HgProxyHash.
Proof. solve_decision. Defined.

(** The helpers of [HgProxyHash] that the codec calls and that are absent
    from the sources, taken as parameters: the two embedded encodings, the
    parser of an embedded id, and the sanity check that the
    [RelativePathPiece] constructor runs on a path. *)
Record ProxyHashCodec : Type := mkCodec {
  makeEmbeddedProxyHash1 : Hash20 -> string -> ObjectId;
  makeEmbeddedProxyHash2 : Hash20 -> ObjectId;
  tryParseEmbeddedProxyHash : ObjectId -> option HgProxyHash;
  relativePathOk : string -> bool
}.

Definition RelativePathPiece (c : ProxyHashCodec) (p : string) : Try string :=
  if relativePathOk c p then Value p
  else Exception (domain_error "invalid relative path").

(** [SaplingBackingStore::staticParseObjectId]. *)
Definition staticParseObjectId (c : ProxyHashCodec) (objectId : string) : Try ObjectId :=
  if startsWith objectId "proxy-" then
    if negb (String.length objectId =? 46)%nat then
      Exception (invalid_argument "invalid proxy hash length")
    else match unhexlify (subpieceFrom 6 objectId) with
         | Some bytes => Value bytes
         | None => Exception (domain_error "unhexlify() called with non-hex input")
         end
  else if (String.length objectId =? 40)%nat then
    try_bind (Hash20_fromHex objectId)
      (fun h => Value (makeEmbeddedProxyHash2 c h))
  else if (String.length objectId <? 41)%nat then
    Exception (invalid_argument "hg object ID too short")
  else if negb (bool_decide (String.get 40 objectId = Some ":"%char)) then
    Exception (invalid_argument "missing separator colon in hg object ID")
  else
    try_bind (Hash20_fromHex (subpieceTo 40 objectId)) (fun hgRevHash =>
    try_bind (RelativePathPiece c (subpieceFrom 41 objectId)) (fun p =>
    Value (makeEmbeddedProxyHash1 c hgRevHash p))).

(** [SaplingBackingStore::staticRenderObjectId]. *)
Definition staticRenderObjectId (c : ProxyHashCodec) (objectId : ObjectId) : string :=
  match tryParseEmbeddedProxyHash c objectId with
  | Some proxyHash =>
      if bool_decide (path proxyHash = "") then hexlify (byteHash proxyHash)
      else hexlify (byteHash proxyHash) ++ ":" ++ path proxyHash
  | None => "proxy-" ++ hexlify objectId
  end.

(** Modelled from the spec: the embedded encodings of [HgProxyHash], absent
    from the sources. The spec gives the hash-only form as the 20 bytes of
    the revision hash, recognised by length, the form with a path as the
    revision hash followed by the path, and the indirect key as an id of
    fixed length 32; a path is UTF-8 text with no NUL. An id of length 32 is
    read as an indirect key. *)
Definition noNul (p : string) : bool :=
  forallb (fun ch => negb (Ascii.eqb ch zero)) (list_ascii_of_string p).

Definition specCodec : ProxyHashCodec := {|
  makeEmbeddedProxyHash1 := fun h p => h ++ p;
  makeEmbeddedProxyHash2 := fun h => h;
  tryParseEmbeddedProxyHash := fun id =>
    if (String.length id =? 32)%nat then None
    else if (String.length id =? RAW_SIZE)%nat then Some (mkProxyHash id "")
    else if (RAW_SIZE <? String.length id)%nat then
      Some (mkProxyHash (subpieceTo RAW_SIZE id) (subpieceFrom RAW_SIZE id))
    else None;
  relativePathOk := noNul
|}.

(** An example of a codec that marks the kind of an id in its first byte:
    1 before a hash followed by a path, 2 before a hash alone; any other id
    is an indirect key. *)
Definition typedCodec : ProxyHashCodec := {|
  makeEmbeddedProxyHash1 := fun h p => String "001" (h ++ p);
  makeEmbeddedProxyHash2 := fun h => String "002" h;
  tryParseEmbeddedProxyHash := fun id =>
    match id with
    | String kind rest =>
        if Ascii.eqb kind "001" then
          if (RAW_SIZE <=? String.length rest)%nat then
            Some (mkProxyHash (subpieceTo RAW_SIZE rest) (subpieceFrom RAW_SIZE rest))
          else None
        else if Ascii.eqb kind "002" then
          if (String.length rest =? RAW_SIZE)%nat then Some (mkProxyHash rest "")
          else None
        else None
    | EmptyString => None
    end;
  relativePathOk := noNul
|}.

(* ===================================================================== *)
(** ** Root ids *)
(* ===================================================================== *)

(** [RootId]: its value is text. *)
Record RootId : Type := mkRootId { rootValue : string }.

(** Modelled from the spec: [hash20FromThrift], absent from the sources,
    reads a 20-byte binary or a 40-character hex commit id; the comment of
    [parseRootId] says the same. *)
Definition hash20FromThrift (commitID : string) : Try Hash20 :=
  if (String.length commitID =? RAW_SIZE)%nat then Value commitID
  else if (String.length commitID =? 2 * RAW_SIZE)%nat then Hash20_fromHex commitID
  else Exception (argument_error
         "expected argument to be a 20-byte binary hash or 40-byte hexadecimal hash").

(** [SaplingBackingStore::parseRootId]. *)
Definition parseRootId (rootId : string) : Try RootId :=
  try_bind (hash20FromThrift rootId) (fun h => Value (mkRootId (Hash20_toString h))).

(** [SaplingBackingStore::renderRootId]. *)
Definition renderRootId (rootId : RootId) : Try string :=
  let value := rootValue rootId in
  if (String.length value =? 40)%nat then
    match unhexlify value with
    | Some bytes => Value bytes
    | None => Exception (domain_error "unhexlify() called with non-hex input")
    end
  else if negb (String.length value =? 0)%nat then
    Exception (check_failure "XCHECK_EQ(0u, value.size())")
  else
    match unhexlify (Hash20_toString kZeroHash) with
    | Some bytes => Value bytes
    | None => Exception (domain_error "unhexlify() called with non-hex input")
    end.

(** [SaplingBackingStore::compareObjectsById]. [hgBijectiveBlobIds] is the
    configuration value; [load] is [HgProxyHash::load] on the local store,
    absent from the sources and taken as a parameter. *)
Inductive ObjectComparison : Type := Identical | Different | Unknown.

Definition compareObjectsById (hgBijectiveBlobIds : bool)
    (load : ObjectId -> Try HgProxyHash) (one two : ObjectId) : Try ObjectComparison :=
  if bytesEqual one two then Value Identical
  else if hgBijectiveBlobIds then Value Different
  else
    try_bind (load one) (fun oneProxy =>
    try_bind (load two) (fun twoProxy =>
    if bool_decide (revHash oneProxy = revHash twoProxy) then Value Identical
    else Value Unknown)).

(** The loader of a store that holds embedded ids only: an embedded proxy
    hash is read off the id, any other id has no row to be found. *)
Definition loadEmbedded (c : ProxyHashCodec) (id : ObjectId) : Try HgProxyHash :=
  match tryParseEmbeddedProxyHash c id with
  | Some p => Value p
  | None => Exception (domain_error "missing proxy hash")
  end.

(* ===================================================================== *)
(** ** Local key/value stores *)
(* ===================================================================== *)

(** [KeySpace]: the index into the per-keyspace vectors and the name of the
    SQL table. *)
Record KeySpace : Type := mkKeySpace {
  KeySpace_index : nat;
  KeySpace_name : string
}.

(** [StoreResult]: the bytes found, or [None] for [StoreResult::missing]. *)
Abbreviation StoreResult := (option string).

(** *** [MemoryLocalStore]: one map per keyspace. *)
Abbreviation MemoryStorage := (list (gmap string string)).

Definition MemoryLocalStore_put (keySpace : KeySpace) (key value : string)
    (storage : MemoryStorage) : MemoryStorage :=
  alter (fun m : gmap string string => <[key := value]> m) (KeySpace_index keySpace) storage.

Definition MemoryLocalStore_get (keySpace : KeySpace) (key : string)
    (storage : MemoryStorage) : StoreResult :=
  match storage !! KeySpace_index keySpace with
  | Some m => m !! key
  | None => None
  end.

Definition MemoryLocalStore_hasKey (keySpace : KeySpace) (key : string)
    (storage : MemoryStorage) : bool :=
  match MemoryLocalStore_get keySpace key storage with Some _ => true | None => false end.

(** [MemoryWriteBatch]: [put] writes into the batch's own maps, [flush]
    replays every entry into the store and clears the batch. *)
Definition MemoryWriteBatch_put (keySpace : KeySpace) (key value : string)
    (batch : MemoryStorage) : MemoryStorage :=
  alter (fun m : gmap string string => <[key := value]> m) (KeySpace_index keySpace) batch.

Definition MemoryWriteBatch_flush (kAll : list KeySpace)
    (batch store : MemoryStorage) : MemoryStorage * MemoryStorage :=
  fold_left
    (fun (acc : MemoryStorage * MemoryStorage) ks =>
       let '(b, st) := acc in
       let entries := default ∅ (b !! KeySpace_index ks) in
       (<[KeySpace_index ks := ∅]> b,
        map_fold (fun k v s => MemoryLocalStore_put ks k v s) st entries))
    kAll (batch, store).

(** *** [SqliteLocalStore]: one table per keyspace, [key] its primary key.

    The database holds the rows of every table, the snapshot that [BEGIN]
    took while a transaction is open, and a plan of the steps that fail: the
    step number [clock] throws when [faultPlan clock] holds. *)
Record SqliteDatabase : Type := mkDb {
  content : gmap string (gmap string string);
  snapshot : option (gmap string (gmap string string));
  clock : nat;
  faultPlan : nat -> bool
}.

Inductive SqliteStatement : Type :=
| BEGIN
| COMMIT
| ROLLBACK
| INSERT_OR_IGNORE (table key value : string)
| SELECT_VALUE (table key : string).

Definition tick (db : SqliteDatabase) : SqliteDatabase :=
  mkDb (content db) (snapshot db) (S (clock db)) (faultPlan db).

(** [insert or ignore into T VALUES(?, ?)] on a table whose primary key is
    the key: a row whose key is already there is left as it is. *)
Definition insertOrIgnore (key value : string) (rows : gmap string string) : gmap string string :=
  match rows !! key with
  | Some _ => rows
  | None => <[key := value]> rows
  end.

(** [SqliteStatement(...).step()]: the row a select found, if any. *)
Definition step (stmt : SqliteStatement) (db : SqliteDatabase)
    : Try (option string) * SqliteDatabase :=
  if faultPlan db (clock db) then (Exception (sqlite_error "step failed"), tick db)
  else
    match stmt with
    | BEGIN =>
        match snapshot db with
        | Some _ => (Exception (sqlite_error "cannot start a transaction within a transaction"), tick db)
        | None => (Value None, mkDb (content db) (Some (content db)) (S (clock db)) (faultPlan db))
        end
    | COMMIT =>
        match snapshot db with
        | Some _ => (Value None, mkDb (content db) None (S (clock db)) (faultPlan db))
        | None => (Exception (sqlite_error "cannot commit - no transaction is active"), tick db)
        end
    | ROLLBACK =>
        match snapshot db with
        | Some saved => (Value None, mkDb saved None (S (clock db)) (faultPlan db))
        | None => (Exception (sqlite_error "cannot rollback - no transaction is active"), tick db)
        end
    | INSERT_OR_IGNORE table key value =>
        match content db !! table with
        | Some rows =>
            (Value None,
             mkDb (<[table := insertOrIgnore key value rows]> (content db))
                  (snapshot db) (S (clock db)) (faultPlan db))
        | None => (Exception (sqlite_error "no such table"), tick db)
        end
    | SELECT_VALUE table key =>
        match content db !! table with
        | Some rows => (Value (rows !! key), tick db)
        | None => (Exception (sqlite_error "no such table"), tick db)
        end
    end.

(** [SqliteLocalStore::put]. *)
Definition SqliteLocalStore_put (keySpace : KeySpace) (key value : string)
    (db : SqliteDatabase) : Try unit * SqliteDatabase :=
  match step (INSERT_OR_IGNORE (KeySpace_name keySpace) key value) db with
  | (Value _, db') => (Value tt, db')
  | (Exception e, db') => (Exception e, db')
  end.

(** [SqliteLocalStore::get]. *)
Definition SqliteLocalStore_get (keySpace : KeySpace) (key : string)
    (db : SqliteDatabase) : Try StoreResult * SqliteDatabase :=
  step (SELECT_VALUE (KeySpace_name keySpace) key) db.

(** [SqliteWriteBatch]: [put] appends to the buffer of the keyspace. *)
Abbreviation SqliteBuffer := (list (list (string * string))).

Definition SqliteWriteBatch_put (keySpace : KeySpace) (key value : string)
    (buffer : SqliteBuffer) : SqliteBuffer :=
  alter (fun items => (items ++ [(key, value)])%list) (KeySpace_index keySpace) buffer.

(** The inner loop of [flush]: one step per item of a keyspace. *)
Fixpoint flushItems (table : string) (items : list (string * string))
    (db : SqliteDatabase) : Try unit * SqliteDatabase :=
  match items with
  | [] => (Value tt, db)
  | (key, value) :: rest =>
      match step (INSERT_OR_IGNORE table key value) db with
      | (Value _, db') => flushItems table rest db'
      | (Exception e, db') => (Exception e, db')
      end
  end.

(** The outer loop of [flush], from buffer position [i] on: the buffers not
    yet reached are [pending]; the result also gives the buffers as the loop
    left them (cleared once written). *)
Fixpoint flushBuffers (kAll : list KeySpace) (i : nat) (pending : SqliteBuffer)
    (db : SqliteDatabase) : Try unit * SqliteDatabase * SqliteBuffer :=
  match pending with
  | [] => (Value tt, db, [])
  | items :: rest =>
      match items with
      | [] =>
          let '(r, db', rest') := flushBuffers kAll (S i) rest db in
          (r, db', [] :: rest')
      | _ :: _ =>
          match kAll !! i with
          | None => (Exception (check_failure "KeySpace::kAll[i]"), db, pending)
          | Some ks =>
              match flushItems (KeySpace_name ks) items db with
              | (Value _, db') =>
                  let '(r, db'', rest') := flushBuffers kAll (S i) rest db' in
                  (r, db'', [] :: rest')
              | (Exception e, db') => (Exception e, db', pending)
              end
          end
      end
  end.

(** The [try] block of [SqliteWriteBatch::flush]: the inserts of every
    buffer, then [COMMIT]. *)
Definition flushAttempt (kAll : list KeySpace) (buffer : SqliteBuffer)
    (db : SqliteDatabase) : Try unit * SqliteDatabase * SqliteBuffer :=
  match flushBuffers kAll 0 buffer db with
  | (Exception e, db1, buffer') => (Exception e, db1, buffer')
  | (Value _, db1, buffer') =>
      match step COMMIT db1 with
      | (Value _, db2) => (Value tt, db2, buffer')
      | (Exception e, db2) => (Exception e, db2, buffer')
      end
  end.

(** [SqliteWriteBatch::flush]: [BEGIN] runs before the [try] block; the
    handler runs [ROLLBACK], a step like the others, and throws the caught
    exception again; when the [ROLLBACK] throws, its exception leaves the
    handler instead and the rows stay as the failed attempt left them. *)
Definition SqliteWriteBatch_flush (kAll : list KeySpace) (buffer : SqliteBuffer)
    (db : SqliteDatabase) : Try unit * SqliteDatabase * SqliteBuffer :=
  match step BEGIN db with
  | (Exception e, db0) => (Exception e, db0, buffer)
  | (Value _, db0) =>
      match flushAttempt kAll buffer db0 with
      | (Value _, db1, buffer') => (Value tt, db1, buffer')
      | (Exception e, db1, buffer') =>
          match step ROLLBACK db1 with
          | (Value _, db2) => (Exception e, db2, buffer')
          | (Exception e', db2) => (Exception e', db2, buffer')
          end
      end
  end.


(** A key is visible in a table when a select of it finds a row. *)
Definition visible (table key : string) (db : SqliteDatabase) : Prop :=
  exists rows value, content db !! table = Some rows /\ rows !! key = Some value.

(** *** The other operations of the two stores *)

(** [MemoryLocalStore::clearKeySpace]: the map of the keyspace is cleared. *)
Definition MemoryLocalStore_clearKeySpace (keySpace : KeySpace)
    (storage : MemoryStorage) : MemoryStorage :=
  alter (fun _ : gmap string string => ∅) (KeySpace_index keySpace) storage.

(** The [put] of both write batches that takes the value in slices: the
    slices are appended to an empty string, in order. *)
Definition appendSlices (valueSlices : list string) : string :=
  fold_left (fun value slice => value ++ slice) valueSlices "".

Definition MemoryWriteBatch_putSlices (keySpace : KeySpace) (key : string)
    (valueSlices : list string) (batch : MemoryStorage) : MemoryStorage :=
  MemoryWriteBatch_put keySpace key (appendSlices valueSlices) batch.

Definition SqliteWriteBatch_putSlices (keySpace : KeySpace) (key : string)
    (valueSlices : list string) (buffer : SqliteBuffer) : SqliteBuffer :=
  SqliteWriteBatch_put keySpace key (appendSlices valueSlices) buffer.

(** The steps of the statements that [open], [clearKeySpace] and [hasKey]
    run, under the fault plan of [step]. *)

(** [PRAGMA journal_mode=WAL]: no row changes. *)
Definition stepPragma (db : SqliteDatabase) : Try unit * SqliteDatabase :=
  if faultPlan db (clock db) then (Exception (sqlite_error "step failed"), tick db)
  else (Value tt, tick db).

(** [CREATE TABLE IF NOT EXISTS T (...)]: a table that is there is left as
    it is. *)
Definition stepCreateTable (table : string) (db : SqliteDatabase)
    : Try unit * SqliteDatabase :=
  if faultPlan db (clock db) then (Exception (sqlite_error "step failed"), tick db)
  else
    match content db !! table with
    | Some _ => (Value tt, tick db)
    | None =>
        (Value tt,
         mkDb (<[table := ∅]> (content db)) (snapshot db) (S (clock db)) (faultPlan db))
    end.

(** [delete from T]: every row of the table goes. *)
Definition stepDeleteFrom (table : string) (db : SqliteDatabase)
    : Try unit * SqliteDatabase :=
  if faultPlan db (clock db) then (Exception (sqlite_error "step failed"), tick db)
  else
    match content db !! table with
    | Some _ =>
        (Value tt,
         mkDb (<[table := ∅]> (content db)) (snapshot db) (S (clock db)) (faultPlan db))
    | None => (Exception (sqlite_error "no such table"), tick db)
    end.

(** [select 1 from T where key = ?]: whether the step found a row. *)
Definition stepSelectOne (table key : string) (db : SqliteDatabase)
    : Try bool * SqliteDatabase :=
  if faultPlan db (clock db) then (Exception (sqlite_error "step failed"), tick db)
  else
    match content db !! table with
    | Some rows => (Value (bool_decide (is_Some (rows !! key))), tick db)
    | None => (Exception (sqlite_error "no such table"), tick db)
    end.

(** The loop of [open] over [KeySpace::kAll]. *)
Fixpoint createTables (kAll : list KeySpace) (db : SqliteDatabase)
    : Try unit * SqliteDatabase :=
  match kAll with
  | [] => (Value tt, db)
  | ks :: rest =>
      match stepCreateTable (KeySpace_name ks) db with
      | (Value _, db') => createTables rest db'
      | (Exception e, db') => (Exception e, db')
      end
  end.

(** [SqliteLocalStore::open], on a database file that is open.
    [clearDeprecatedKeySpaces] belongs to the base class [LocalStore],
    absent from the sources, and is taken as a parameter. *)
Definition SqliteLocalStore_open (kAll : list KeySpace)
    (clearDeprecatedKeySpaces : SqliteDatabase -> Try unit * SqliteDatabase)
    (db : SqliteDatabase) : Try unit * SqliteDatabase :=
  match stepPragma db with
  | (Exception e, db0) => (Exception e, db0)
  | (Value _, db0) =>
      match createTables kAll db0 with
      | (Exception e, db1) => (Exception e, db1)
      | (Value _, db1) => clearDeprecatedKeySpaces db1
      end
  end.

(** [SqliteLocalStore::clearKeySpace]. *)
Definition SqliteLocalStore_clearKeySpace (keySpace : KeySpace) (db : SqliteDatabase)
    : Try unit * SqliteDatabase :=
  stepDeleteFrom (KeySpace_name keySpace) db.

(** [SqliteLocalStore::hasKey]. *)
Definition SqliteLocalStore_hasKey (keySpace : KeySpace) (key : string)
    (db : SqliteDatabase) : Try bool * SqliteDatabase :=
  stepSelectOne (KeySpace_name keySpace) key db.

(** A table holds a row of the key with the value. *)
Definition holds (table key value : string) (db : SqliteDatabase) : Prop :=
  exists rows, content db !! table = Some rows /\ rows !! key = Some value.

(** The rows of a table after the items of a buffer went in, in order. *)
Definition insertAll (items : list (string * string)) (rows : gmap string string)
    : gmap string string :=
  fold_left (fun acc item => insertOrIgnore (fst item) (snd item) acc) items rows.

(** The value of the first item of a buffer that has the key. *)
Fixpoint firstPut (key : string) (items : list (string * string)) : option string :=
  match items with
  | [] => None
  | (k, v) :: rest => if decide (k = key) then Some v else firstPut key rest
  end.

(* ===================================================================== *)
(** ** Import requests, the native adapter and the store's state *)
(* ===================================================================== *)

Inductive FetchMode : Type := LocalOnly | RemoteOnly | AllowRemote | AllowRemotePrefetch.

(** [ObjectFetchContext::FetchedSource]. *)
Inductive FetchedSource : Type := Source_Local | Source_Remote | Source_Unknown.

(** [ObjectFetchContext::FetchResult]. *)
Inductive FetchResult : Type := Success | SuccessInRetry | Failure.

(** [ObjectFetchContext::Origin]. *)
Inductive Origin : Type := FromDiskCache | FromNetworkFetch | NotFetched.

(** [SaplingImportRequest::FetchType]. *)
Inductive FetchType : Type := Fetch | Prefetch.

(** The alternatives of the request variant. *)
Inductive ImportKind : Type := BlobImport | TreeImport | BlobAuxImport | TreeAuxImport.

#[global] Instance FetchMode_eq_dec : EqDecision FetchMode.
Proof. solve_decision. Defined.
#[global] Instance FetchedSource_eq_dec : EqDecision FetchedSource.
Proof. solve_decision. Defined.
#[global] Instance FetchResult_eq_dec : EqDecision FetchResult.
Proof. solve_decision. Defined.
#[global] Instance FetchType_eq_dec : EqDecision FetchType.
Proof. solve_decision. Defined.
#[global] Instance ImportKind_eq_dec : EqDecision ImportKind.
Proof. solve_decision. Defined.

(** [sapling::FileAuxData] and [sapling::TreeAuxData], as the adapter gives
    them, and the daemon's [BlobAuxData] and [TreeAuxData]. *)
Record FileAuxData : Type := mkFileAux {
  content_sha1 : string; content_blake3 : string; total_size : N }.
Record RawTreeAuxData : Type := mkRawTreeAux {
  raw_digest_hash : string; raw_digest_size : N }.
Record BlobAuxData : Type := mkBlobAux {
  sha1 : string; blake3 : string; blobSize : N }.
Record TreeAuxData : Type := mkTreeAux {
  digest_hash : string; digest_size : N }.

(** What a promise is fulfilled with: a blob, or a pointer to aux data that
    may be null ([None]). Tree values are not part of the model. *)
Inductive Response : Type :=
| BlobPtr (contents : string)
| BlobAuxDataPtr (p : option BlobAuxData)
| TreeAuxDataPtr (p : option TreeAuxData).

(** [SaplingImportRequest]: the promise and the fetch context of a request
    are named by its unique id; the cause is the enum's value. *)
Record SaplingImportRequest : Type := mkRequest {
  getUnique : nat;
  getType : ImportKind;
  hash : ObjectId;
  proxyHash : HgProxyHash;
  getCause : nat;
  getFetchType : FetchType
}.

#[global] Instance SaplingImportRequest_eq_dec : EqDecision SaplingImportRequest.
Proof. solve_decision. Defined.

(** [sapling::SaplingRequest]. *)
Record SaplingRequest : Type := mkSaplingRequest {
  node : string;
  cause : nat
}.

#[global] Instance SaplingRequest_eq_dec : EqDecision SaplingRequest.
Proof. solve_decision. Defined.

(** The values of [EdenConfig] the embedded code reads, and whether a
    structured logger is installed. *)
Record Config : Type := mkConfig {
  allowRemoteGetBatch : bool;
  fetchHgAuxMetadata : bool;
  structuredLogger : bool
}.

(** The native adapter ([SaplingNativeBackingStore]), consumed and not
    defined by the embedded code: a state and its operations. A batch call
    answers with the calls it makes to the resolver, in order, each an index
    into the batch and a result. *)
Record NativeStore (A : Type) : Type := mkNativeStore {
  store_getBlobBatch :
    A -> list SaplingRequest -> FetchMode -> A * list (nat * Try string);
  store_getBlob : A -> string -> FetchMode -> A * Try string;
  store_getBlobAuxDataBatch :
    A -> list SaplingRequest -> FetchMode -> A * list (nat * Try FileAuxData);
  store_getTreeAuxDataBatch :
    A -> list SaplingRequest -> FetchMode -> A * list (nat * Try RawTreeAuxData);
  store_getBlobAuxData : A -> string -> bool -> A * Try FileAuxData;
  store_flush : A -> A
}.
Arguments store_getBlobBatch {A} _ _ _ _.
Arguments store_getBlob {A} _ _ _ _.
Arguments store_getBlobAuxDataBatch {A} _ _ _ _.
Arguments store_getTreeAuxDataBatch {A} _ _ _ _.
Arguments store_getBlobAuxData {A} _ _ _ _.
Arguments store_flush {A} _ _.

(** The calls made to the adapter. *)
Inductive AdapterCall : Type :=
| CallBatch (kind : ImportKind) (mode : FetchMode) (requests : list SaplingRequest)
| CallGetBlob (nodeId : string) (mode : FetchMode)
| CallGetBlobAuxData (nodeId : string) (local_only : bool)
| CallFlush.

(** What the embedded code records: trace events, the counters and fetched
    source set for a request's context, statistics and telemetry. Durations
    and log lines are not part of the model. *)
Inductive Event : Type :=
| TraceStart (unique : nat) (kind : ImportKind)
| TraceQueue (unique : nat) (kind : ImportKind)
| BlobCounters (context : nat) (fetchType : FetchType)
    (fetchedSource : FetchedSource) (fetchResult : FetchResult)
| SetFetchedSource (context : nat) (fetchedSource : FetchedSource) (kind : ImportKind)
| StatIncrement (counter : string)
| FetchMiss (kind : ImportKind) (isRetry : bool)
| MissingProxyHash.

#[global] Instance AdapterCall_eq_dec : EqDecision AdapterCall.
Proof. solve_decision. Defined.
#[global] Instance Event_eq_dec : EqDecision Event.
Proof. solve_decision. Defined.

(** The state the embedded code works on: the promises by unique id (a
    promise not in the map is not fulfilled), the records and adapter calls
    made so far, the adapter, the request queue and the id counter. *)
Record State (A : Type) : Type := mkState {
  promises : gmap nat (Try Response);
  events : list Event;
  calls : list AdapterCall;
  native : A;
  queue : list SaplingImportRequest;
  nextUnique : nat
}.
Arguments mkState {A} _ _ _ _ _ _.
Arguments promises {A} _.
Arguments events {A} _.
Arguments calls {A} _.
Arguments native {A} _.
Arguments queue {A} _.
Arguments nextUnique {A} _.

(** A state with no promise fulfilled, nothing recorded and nothing queued. *)
Definition initialState {A} (a : A) : State A := mkState ∅ [] [] a [] 0.

(** Code that works on the state and may throw. *)
Definition M (A B : Type) : Type := State A -> Try B * State A.

Definition ret {A B} (b : B) : M A B := fun s => (Value b, s).

Definition throw {A B} (e : exn) : M A B := fun s => (Exception e, s).

Definition bind {A B C} (m : M A B) (k : B -> M A C) : M A C :=
  fun s => match m s with
           | (Value b, s') => k b s'
           | (Exception e, s') => (Exception e, s')
           end.

Notation "'let*' x ':=' m 'in' k" := (bind m (fun x => k))
  (at level 10, x name, m at level 200, k at level 200).
Notation "m ;;; k" := (bind m (fun _ => k))
  (at level 100, k at level 200, right associativity).

(** A [for] loop over a vector. *)
Fixpoint forEach {A B} (l : list B) (body : B -> M A unit) : M A unit :=
  match l with
  | [] => ret tt
  | x :: rest => body x ;;; forEach rest body
  end.

Definition record {A} (e : Event) : M A unit :=
  fun s => (Value tt,
            mkState (promises s) (events s ++ [e]) (calls s) (native s) (queue s) (nextUnique s)).

(** [promise->isFulfilled()]. *)
Definition isFulfilledIn {A} (unique : nat) (s : State A) : bool :=
  match promises s !! unique with Some _ => true | None => false end.

Definition isFulfilled {A} (unique : nat) : M A bool :=
  fun s => (Value (isFulfilledIn unique s), s).

(** [promise->setWith], [setTry], [setValue] and [setException]: folly
    throws [PromiseAlreadySatisfied] when the promise is fulfilled. *)
Definition setTry {A} (unique : nat) (result : Try Response) : M A unit :=
  fun s => match promises s !! unique with
           | Some _ => (Exception PromiseAlreadySatisfied, s)
           | None =>
               (Value tt,
                mkState (<[unique := result]> (promises s)) (events s) (calls s)
                        (native s) (queue s) (nextUnique s))
           end.

(** A call of an adapter operation: the adapter moves on and the call is
    put on record. *)
Definition callAdapter {A B} (op : A -> A * B) (c : AdapterCall) : M A B :=
  fun s => let '(a', b) := op (native s) in
           (Value b,
            mkState (promises s) (events s) (calls s ++ [c]) a' (queue s) (nextUnique s)).

(** [ObjectFetchContext::Cause] values are kept in a [std::set]. *)
Abbreviation CauseSet := (gset nat).

(** [ImportRequestsMap]: the requests of each node id. The map of the
    source is a hash map; the model keeps the keys in the order of their
    first insertion, and no property below depends on the order. *)
Abbreviation ImportRequestsMap := (list (string * list SaplingImportRequest)).

Fixpoint mapFind (nodeId : string) (m : ImportRequestsMap) : option (list SaplingImportRequest) :=
  match m with
  | [] => None
  | (n, l) :: rest => if decide (n = nodeId) then Some l else mapFind nodeId rest
  end.

(** The body of the grouping loop: [emplace_back] on the entry that
    [find] gave, or [emplace] of a new entry. *)
Fixpoint mapAdd (nodeId : string) (r : SaplingImportRequest) (m : ImportRequestsMap)
    : ImportRequestsMap :=
  match m with
  | [] => [(nodeId, [r])]
  | (n, l) :: rest =>
      if decide (n = nodeId) then (n, (l ++ [r])%list) :: rest
      else (n, l) :: mapAdd nodeId r rest
  end.

Definition groupRequests (importRequests : list SaplingImportRequest) : ImportRequestsMap :=
  fold_left (fun m r => mapAdd (byteHash (proxyHash r)) r m) importRequests [].

(** The requests of one node id, one per cause, in the order of the list. *)
Fixpoint dedupCauses (nodeId : string) (rs : list SaplingImportRequest)
    (seenCausesForId : CauseSet) : list SaplingRequest :=
  match rs with
  | [] => []
  | request :: rest =>
      if decide (getCause request ∈ seenCausesForId) then
        dedupCauses nodeId rest seenCausesForId
      else
        mkSaplingRequest nodeId (getCause request)
          :: dedupCauses nodeId rest ({[getCause request]} ∪ seenCausesForId)
  end.

(** [SaplingBackingStore::prepareRequests]. *)
Definition prepareRequests (importRequests : list SaplingImportRequest)
    : ImportRequestsMap * list SaplingRequest :=
  let importRequestsMap := groupRequests importRequests in
  (importRequestsMap,
   flat_map (fun entry => dedupCauses (fst entry) (snd entry) ∅) importRequestsMap).

(** [importRequestsMap[nodeId]]. *)
Definition mapAt (importRequestsMap : ImportRequestsMap) (nodeId : string)
    : list SaplingImportRequest :=
  default [] (mapFind nodeId importRequestsMap).

(* ===================================================================== *)
(** ** The import pipelines of [SaplingBackingStore] *)
(* ===================================================================== *)

Section Pipeline.
Context {A : Type} (store_ : NativeStore A) (config_ : Config).

(** [SaplingBackingStore::flush]: flushes the adapter. *)
Definition flush : M A unit :=
  callAdapter (fun a => (store_flush store_ a, tt)) CallFlush.

(** [SaplingBackingStore::setBlobCounters], with the context of a request. *)
Definition setBlobCounters (context : nat) (fetchType : FetchType)
    (fetchedSource : FetchedSource) (fetchResult : FetchResult) : M A unit :=
  record (BlobCounters context fetchType fetchedSource fetchResult).

(** The first loop of every pipeline: a [START] trace event per request. *)
Definition traceStarts (kind : ImportKind) (requests : list SaplingImportRequest) : M A unit :=
  forEach requests (fun request => record (TraceStart (getUnique request) kind)).

(** The resolver that [getBlobBatch] hands to the adapter. A failed item
    returns at once; a fetched one fulfils every request of its node id
    with one shared result. An index outside the batch, which the adapter
    never gives, leaves the state as it is. *)
Definition blobResolve (importRequestsMap : ImportRequestsMap)
    (requests : list SaplingRequest) (index : nat) (content : Try string) : M A unit :=
  match content with
  | Exception _ => ret tt
  | Value bytes =>
      match requests !! index with
      | None => ret tt
      | Some req =>
          let result := Value (BlobPtr bytes) in
          forEach (mapAt importRequestsMap (node req))
            (fun importRequest => setTry (getUnique importRequest) result)
      end
  end.

(** [SaplingBackingStore::getBlobBatch]. An exception of the resolver leaves
    the batch call and this function. *)
Definition getBlobBatch (importRequests : list SaplingImportRequest)
    (fetchMode : FetchMode) : M A unit :=
  let preparedRequests := prepareRequests importRequests in
  let importRequestsMap := fst preparedRequests in
  let requests := snd preparedRequests in
  let* answers := callAdapter (fun a => store_getBlobBatch store_ a requests fetchMode)
                  (CallBatch BlobImport fetchMode requests) in
  forEach answers (fun answer => blobResolve importRequestsMap requests (fst answer) (snd answer)).

(** [SaplingBackingStore::getBlobFromBackingStore]. *)
Definition getBlobFromBackingStore (hgInfo : HgProxyHash) (fetchMode : FetchMode)
    : M A (Try Response) :=
  let* blob := callAdapter (fun a => store_getBlob store_ a (byteHash hgInfo) fetchMode)
               (CallGetBlob (byteHash hgInfo) fetchMode) in
  match blob with
  | Value bytes => ret (Value (BlobPtr bytes))
  | Exception e => ret (Exception e)
  end.

(** [SaplingBackingStore::retryGetBlob]: the body run on the retry pool.
    The result is what the returned future holds. *)
Definition retryGetBlob (hgInfo : HgProxyHash) (context : nat) (fetch_type : FetchType)
    : M A (Try Response) :=
  flush ;;;
  let fetch_mode := if allowRemoteGetBatch config_ then AllowRemote else LocalOnly in
  let* blob := getBlobFromBackingStore hgInfo fetch_mode in
  let* retried :=
    (if negb (hasValue blob) && bool_decide (fetch_mode = LocalOnly) then
       let* again := getBlobFromBackingStore hgInfo RemoteOnly in
       ret (again, RemoteOnly)
     else ret (blob, fetch_mode)) in
  let blob := fst retried in
  let fetch_mode := snd retried in
  let fetched_source :=
    match fetch_mode with
    | LocalOnly => Source_Local
    | RemoteOnly => Source_Remote
    | AllowRemote | AllowRemotePrefetch => Source_Unknown
    end in
  match blob with
  | Value b =>
      setBlobCounters context fetch_type fetched_source SuccessInRetry ;;;
      ret (Value b)
  | Exception e =>
      (if structuredLogger config_ then record (FetchMiss BlobImport true) else ret tt) ;;;
      setBlobCounters context fetch_type fetched_source Failure ;;;
      ret (Exception e)
  end.

(** The loop of [processBlobImportRequests] after the [LocalOnly] batch:
    the requests it hands on to the next stage. *)
Fixpoint blobLocalLoop (requests : list SaplingImportRequest)
    : M A (list SaplingImportRequest) :=
  match requests with
  | [] => ret []
  | request :: rest =>
      let* fulfilled := isFulfilled (getUnique request) in
      if fulfilled then
        setBlobCounters (getUnique request) (getFetchType request) Source_Local Success ;;;
        blobLocalLoop rest
      else
        let* retryRequest := blobLocalLoop rest in
        ret (request :: retryRequest)
  end.

(** The last loop of [processBlobImportRequests]: the futures it collects,
    each a request and the result of its retry. *)
Fixpoint blobRetryLoop (retryRequest : list SaplingImportRequest)
    : M A (list (SaplingImportRequest * Try Response)) :=
  match retryRequest with
  | [] => ret []
  | request :: rest =>
      let* fulfilled := isFulfilled (getUnique request) in
      if fulfilled then
        setBlobCounters (getUnique request) (getFetchType request)
          (if allowRemoteGetBatch config_ then Source_Unknown else Source_Remote)
          Success ;;;
        blobRetryLoop rest
      else
        let* result := retryGetBlob (proxyHash request) (getUnique request)
                       (getFetchType request) in
        let* futures := blobRetryLoop rest in
        ret ((request, result) :: futures)
  end.

(** The stages of [processBlobImportRequests] before the last loop: the
    requests that go on to it. *)
Definition blobBatchStages (requests : list SaplingImportRequest)
    : M A (list SaplingImportRequest) :=
  if allowRemoteGetBatch config_ then
    getBlobBatch requests AllowRemote ;;;
    ret requests
  else
    getBlobBatch requests LocalOnly ;;;
    let* retryRequest := blobLocalLoop requests in
    getBlobBatch retryRequest RemoteOnly ;;;
    ret retryRequest.

(** [SaplingBackingStore::processBlobImportRequests]. The retries run as
    the loop reaches them (the inline executor); waiting on the collected
    futures sets the promise of each. *)
Definition processBlobImportRequests (requests : list SaplingImportRequest) : M A unit :=
  traceStarts BlobImport requests ;;;
  let* retryRequest := blobBatchStages requests in
  let* futures := blobRetryLoop retryRequest in
  forEach futures (fun future => setTry (getUnique (fst future)) (snd future)).



(** *** Aux data *)

(** The resolver of [getBlobAuxDataBatch]. *)
Definition blobAuxResolve (fetch_mode : FetchMode) (importRequestsMap : ImportRequestsMap)
    (requests : list SaplingRequest) (index : nat) (auxTry : Try FileAuxData) : M A unit :=
  match auxTry with
  | Exception _ =>
      if structuredLogger config_ && negb (bool_decide (fetch_mode = RemoteOnly)) then
        record (FetchMiss BlobAuxImport false)
      else ret tt
  | Value aux =>
      match requests !! index with
      | None => ret tt
      | Some req =>
          let result :=
            Value (BlobAuxDataPtr (Some (mkBlobAux (content_sha1 aux) (content_blake3 aux)
                                            (total_size aux)))) in
          forEach (mapAt importRequestsMap (node req))
            (fun importRequest => setTry (getUnique importRequest) result)
      end
  end.

(** [SaplingBackingStore::getBlobAuxDataBatch]. *)
Definition getBlobAuxDataBatch (importRequests : list SaplingImportRequest)
    (fetch_mode : FetchMode) : M A unit :=
  let preparedRequests := prepareRequests importRequests in
  let importRequestsMap := fst preparedRequests in
  let requests := snd preparedRequests in
  let* answers := callAdapter (fun a => store_getBlobAuxDataBatch store_ a requests fetch_mode)
                  (CallBatch BlobAuxImport fetch_mode requests) in
  forEach answers
    (fun answer => blobAuxResolve fetch_mode importRequestsMap requests (fst answer) (snd answer)).

(** The resolver of [getTreeAuxDataBatch]. *)
Definition treeAuxResolve (importRequestsMap : ImportRequestsMap)
    (requests : list SaplingRequest) (index : nat) (auxTry : Try RawTreeAuxData) : M A unit :=
  match auxTry with
  | Exception _ =>
      if structuredLogger config_ then record (FetchMiss TreeAuxImport false) else ret tt
  | Value aux =>
      match requests !! index with
      | None => ret tt
      | Some req =>
          let result :=
            Value (TreeAuxDataPtr (Some (mkTreeAux (raw_digest_hash aux) (raw_digest_size aux)))) in
          forEach (mapAt importRequestsMap (node req))
            (fun importRequest => setTry (getUnique importRequest) result)
      end
  end.

(** [SaplingBackingStore::getTreeAuxDataBatch]. *)
Definition getTreeAuxDataBatch (importRequests : list SaplingImportRequest)
    (fetch_mode : FetchMode) : M A unit :=
  let preparedRequests := prepareRequests importRequests in
  let importRequestsMap := fst preparedRequests in
  let requests := snd preparedRequests in
  let* answers := callAdapter (fun a => store_getTreeAuxDataBatch store_ a requests fetch_mode)
                  (CallBatch TreeAuxImport fetch_mode requests) in
  forEach answers
    (fun answer => treeAuxResolve importRequestsMap requests (fst answer) (snd answer)).

(** The batch fetcher, the statistics and the null pointer of each of the
    two aux kinds; a kind that is no aux kind has none. *)
Definition auxBatch (kind : ImportKind) : list SaplingImportRequest -> FetchMode -> M A unit :=
  match kind with
  | TreeAuxImport => getTreeAuxDataBatch
  | _ => getBlobAuxDataBatch
  end.

Definition auxSuccessCounter (kind : ImportKind) : string :=
  match kind with
  | TreeAuxImport => "fetchTreeAuxDataSuccess"
  | _ => "fetchBlobAuxDataSuccess"
  end.

Definition auxFailureCounter (kind : ImportKind) : string :=
  match kind with
  | TreeAuxImport => "fetchTreeAuxDataFailure"
  | _ => "fetchBlobAuxDataFailure"
  end.

Definition auxNull (kind : ImportKind) : Response :=
  match kind with
  | TreeAuxImport => TreeAuxDataPtr None
  | _ => BlobAuxDataPtr None
  end.

(** The loop after the [LocalOnly] batch of an aux pipeline. *)
Fixpoint auxLocalLoop (kind : ImportKind) (requests : list SaplingImportRequest)
    : M A (list SaplingImportRequest) :=
  match requests with
  | [] => ret []
  | request :: rest =>
      let* fulfilled := isFulfilled (getUnique request) in
      if fulfilled then
        record (SetFetchedSource (getUnique request) Source_Local kind) ;;;
        record (StatIncrement (auxSuccessCounter kind)) ;;;
        auxLocalLoop kind rest
      else
        let* retryRequest := auxLocalLoop kind rest in
        ret (request :: retryRequest)
  end.

(** The last loop of an aux pipeline: a request still not fulfilled gets
    the null pointer. *)
Fixpoint auxFinalLoop (kind : ImportKind) (retryRequest : list SaplingImportRequest)
    : M A unit :=
  match retryRequest with
  | [] => ret tt
  | request :: rest =>
      let* fulfilled := isFulfilled (getUnique request) in
      if fulfilled then
        (if negb (allowRemoteGetBatch config_) then
           record (SetFetchedSource (getUnique request) Source_Remote kind)
         else ret tt) ;;;
        record (StatIncrement (auxSuccessCounter kind)) ;;;
        auxFinalLoop kind rest
      else
        record (StatIncrement (auxFailureCounter kind)) ;;;
        setTry (getUnique request) (Value (auxNull kind)) ;;;
        auxFinalLoop kind rest
  end.

(** The stages of an aux pipeline before its last loop. *)
Definition auxBatchStages (kind : ImportKind) (requests : list SaplingImportRequest)
    : M A (list SaplingImportRequest) :=
  if allowRemoteGetBatch config_ then
    auxBatch kind requests AllowRemote ;;;
    ret requests
  else
    auxBatch kind requests LocalOnly ;;;
    let* retryRequest := auxLocalLoop kind requests in
    auxBatch kind retryRequest RemoteOnly ;;;
    ret retryRequest.

(** [processBlobAuxImportRequests] and [processTreeAuxImportRequests] are
    the same text up to the kind. *)
Definition processAuxImportRequests (kind : ImportKind)
    (requests : list SaplingImportRequest) : M A unit :=
  traceStarts kind requests ;;;
  let* retryRequest := auxBatchStages kind requests in
  auxFinalLoop kind retryRequest.

Definition processBlobAuxImportRequests := processAuxImportRequests BlobAuxImport.
Definition processTreeAuxImportRequests := processAuxImportRequests TreeAuxImport.

(** *** [getBlobAuxData] *)

(** What [getBlobAuxData] returns: a result at hand, or the future of a
    request put on the queue. *)
Inductive GetBlobAuxFuture : Type :=
| ReadyAux (aux : option BlobAuxData) (origin : Origin)
| QueuedAux (unique : nat).

(** [SaplingBackingStore::getLocalBlobAuxData]. *)
Definition getLocalBlobAuxData (hgInfo : HgProxyHash) : M A (Try BlobAuxData) :=
  let* auxData := callAdapter (fun a => store_getBlobAuxData store_ a (byteHash hgInfo) true)
                  (CallGetBlobAuxData (byteHash hgInfo) true) in
  match auxData with
  | Value aux =>
      ret (Value (mkBlobAux (content_sha1 aux) (content_blake3 aux) (total_size aux)))
  | Exception e => ret (Exception e)
  end.

(** [queue_.enqueueBlobAux] of a new request. *)
Definition enqueue (request : SaplingImportRequest) : M A unit :=
  fun s => (Value tt,
            mkState (promises s) (events s) (calls s) (native s)
                    (queue s ++ [request]) (nextUnique s)).

Definition generateUniqueID : M A nat :=
  fun s => (Value (nextUnique s),
            mkState (promises s) (events s) (calls s) (native s) (queue s)
                    (S (nextUnique s))).

(** [SaplingBackingStore::getBlobAuxDataEnqueue]. *)
Definition getBlobAuxDataEnqueue (id : ObjectId) (proxy : HgProxyHash) (contextCause : nat)
    : M A GetBlobAuxFuture :=
  if negb (fetchHgAuxMetadata config_) then ret (ReadyAux None NotFetched)
  else
    let* unique := generateUniqueID in
    let request := mkRequest unique BlobAuxImport id proxy contextCause Fetch in
    record (TraceQueue unique BlobAuxImport) ;;;
    enqueue request ;;;
    ret (QueuedAux unique).

(** [SaplingBackingStore::getBlobAuxData]; [load] is [HgProxyHash::load].
    The duration scope and the audit record of [logBackingStoreFetch] are
    not part of the model. *)
Definition getBlobAuxData (load : ObjectId -> Try HgProxyHash) (id : ObjectId)
    (contextCause : nat) : M A GetBlobAuxFuture :=
  match load id with
  | Exception e => record MissingProxyHash ;;; throw e
  | Value proxy =>
      let* auxData := getLocalBlobAuxData proxy in
      match auxData with
      | Value aux =>
          record (StatIncrement "fetchBlobAuxDataSuccess") ;;;
          record (StatIncrement "fetchBlobAuxDataLocal") ;;;
          ret (ReadyAux (Some aux) FromDiskCache)
      | Exception _ => getBlobAuxDataEnqueue id proxy contextCause
      end
  end.

(** *** Dropping the queue *)

(** [request->getPromise<T>()]: the promise when the request is of the
    kind asked for, a null pointer otherwise. *)
Definition getPromise (kind : ImportKind) (request : SaplingImportRequest) : option nat :=
  if decide (getType request = kind) then Some (getUnique request) else None.

Definition forciblyDropped : Try Response :=
  Exception (runtime_error "Request forcibly dropped").

(** [dropBlobImportRequest] and [dropTreeImportRequest]. *)
Definition dropImportRequest (kind : ImportKind) (request : SaplingImportRequest) : M A unit :=
  match getPromise kind request with
  | Some promise =>
      let* fulfilled := isFulfilled promise in
      if fulfilled then ret tt else setTry promise forciblyDropped
  | None => ret tt
  end.

Definition dropBlobImportRequest := dropImportRequest BlobImport.
Definition dropTreeImportRequest := dropImportRequest TreeImport.

(** Modelled from the spec: [combineAndClearRequestQueues], absent from the
    sources, returns all outstanding requests and leaves the queue empty. *)
Definition combineAndClearRequestQueues : M A (list SaplingImportRequest) :=
  fun s => (Value (queue s),
            mkState (promises s) (events s) (calls s) (native s) [] (nextUnique s)).

(** [SaplingBackingStore::dropAllPendingRequestsFromQueue]. *)
Definition dropAllPendingRequestsFromQueue : M A nat :=
  let* requestVec := combineAndClearRequestQueues in
  forEach requestVec (fun request =>
    if decide (getType request = BlobImport) then dropBlobImportRequest request
    else if decide (getType request = TreeImport) then dropTreeImportRequest request
    else ret tt) ;;;
  ret (length requestVec).

End Pipeline.

(** What dropping one request of the queue does to the promises. *)
Definition dropOne (p : gmap nat (Try Response)) (request : SaplingImportRequest)
    : gmap nat (Try Response) :=
  match getType request with
  | BlobImport | TreeImport =>
      match p !! getUnique request with
      | Some _ => p
      | None => <[getUnique request := forciblyDropped]> p
      end
  | BlobAuxImport | TreeAuxImport => p
  end.

(** The node id of an import request, and the requests of one node id. *)
Definition nodeOf (request : SaplingImportRequest) : string :=
  byteHash (proxyHash request).

Definition sameNode (nodeId : string) (requests : list SaplingImportRequest)
    : list SaplingImportRequest :=
  filter (fun request => nodeOf request = nodeId) requests.

(** What a piece of code may do to the state: it adds records that
    satisfy [Pe] and adapter calls that satisfy [Pc], leaves the queue as it
    is, and fulfils promises without changing a fulfilled one. *)
Definition effects {A} (Pe : Event -> Prop) (Pc : AdapterCall -> Prop)
    (s s' : State A) : Prop :=
  (exists evs, events s' = events s ++ evs /\ Forall Pe evs)%list /\
  (exists cs, calls s' = calls s ++ cs /\ Forall Pc cs)%list /\
  queue s' = queue s /\
  promises s ⊆ promises s'.

Definition writes {A B} (m : M A B) (Pe : Event -> Prop) (Pc : AdapterCall -> Prop) : Prop :=
  forall s : State A, effects Pe Pc s (snd (m s)).

(** A record other than a fetched source of [Unknown]. *)
Definition knownSource (e : Event) : Prop :=
  match e with
  | BlobCounters _ _ fetchedSource _ => fetchedSource <> Source_Unknown
  | _ => True
  end.

(** A batch call of the given kind. *)
Definition batchCallOf (kind : ImportKind) (c : AdapterCall) : Prop :=
  exists mode requests, c = CallBatch kind mode requests.

(** A call that the retry of one of the given requests makes. *)
Definition retryCallOf (requests : list SaplingImportRequest) (c : AdapterCall) : Prop :=
  c = CallFlush \/
  exists request mode, request ∈ requests /\ c = CallGetBlob (nodeOf request) mode.


(** The fetched source that a retry records when it succeeds without the
    allow-remote configuration: [Local] when the adapter, once flushed,
    answers the [LocalOnly] call, [Remote] otherwise. *)
Definition retrySource {A} (store_ : NativeStore A) (a : A) (hgInfo : HgProxyHash)
    : FetchedSource :=
  if hasValue (snd (store_getBlob store_ (store_flush store_ a) (byteHash hgInfo) LocalOnly))
  then Source_Local else Source_Remote.

(** The counters recorded for the context of a request, in the order of
    the records: what [setBlobCounters] was called with for it. *)
Definition isCounterOf (context : nat) (e : Event) : Prop :=
  match e with
  | BlobCounters c _ _ _ => c = context
  | _ => False
  end.

#[global] Instance isCounterOf_dec (context : nat) (e : Event) :
  Decision (isCounterOf context e).
Proof. destruct e; cbn; apply _. Defined.




(** A batch in which the requests of one node id have one cause, and an
    adapter that resolves each index of a batch at most once. *)
Definition oneCausePerNode (requests : list SaplingImportRequest) : Prop :=
  forall r r', r ∈ requests -> r' ∈ requests -> nodeOf r = nodeOf r' ->
               getCause r = getCause r'.

Definition resolvesOnce {A} (store_ : NativeStore A) : Prop :=
  forall a requests mode, NoDup ((snd (store_getBlobBatch store_ a requests mode)).*1).

(** *** The public fetch operations for blobs *)

Section ObjectFetch.
Context {A : Type} (store_ : NativeStore A) (config_ : Config).

(** Whether the adapter runs on a dogfooding host
    ([store_.dogfoodingHost()]), a query that [NativeStore] does not
    carry. *)
Context (dogfoodingHost : bool).

(** Modelled from the spec: [getBlobLocal], declared in the header and
    absent from the sources, is the fast path of the public flow, which
    calls the native adapter in [LocalOnly] mode. *)
Definition getBlobLocal (hgInfo : HgProxyHash) : M A (Try Response) :=
  getBlobFromBackingStore store_ hgInfo LocalOnly.

(** What [getBlob] and [getBlobEnqueue] return: a blob at hand, or the
    future of a request put on the queue. *)
Inductive GetBlobFuture : Type :=
| ReadyBlob (blob : Response) (origin : Origin)
| QueuedBlob (unique : nat).

(** [SaplingBackingStore::getBlobEnqueue]. The continuation of the
    future, which runs once the promise is fulfilled, is not part of the
    model. *)
Definition getBlobEnqueue (id : ObjectId) (proxy : HgProxyHash) (contextCause : nat)
    (fetch_type : FetchType) : M A GetBlobFuture :=
  let* unique := generateUniqueID in
  let request := mkRequest unique BlobImport id proxy contextCause fetch_type in
  record (TraceQueue unique BlobImport) ;;;
  enqueue request ;;;
  ret (QueuedBlob unique).

(** [SaplingBackingStore::getBlob]; [load] is [HgProxyHash::load]. The
    record [MissingProxyHash] stands for the call of [logMissingProxyHash];
    the duration scope and the call of [logBackingStoreFetch] are not part
    of this definition. *)
Definition getBlob (load : ObjectId -> Try HgProxyHash) (id : ObjectId)
    (contextCause : nat) : M A GetBlobFuture :=
  match load id with
  | Exception e => record MissingProxyHash ;;; throw e
  | Value proxy =>
      let* blob := getBlobLocal proxy in
      match blob with
      | Value b =>
          record (StatIncrement "fetchBlobSuccess") ;;;
          (if dogfoodingHost then record (StatIncrement "fetchBlobSuccessDogfooding")
           else ret tt) ;;;
          record (StatIncrement "fetchBlobLocal") ;;;
          ret (ReadyBlob b FromDiskCache)
      | Exception _ => getBlobEnqueue id proxy contextCause Fetch
      end
  end.

(** [SaplingBackingStore::prefetchBlobs]; [getBatch] is
    [HgProxyHash::getBatch], which loads the proxy hash of every id and
    gives as many proxy hashes as ids. The futures of the requests are the
    unique ids returned; the call of [logBackingStoreFetch] is not part of
    this definition. *)
Fixpoint prefetchLoop (ids : list ObjectId) (proxyHashes : list HgProxyHash)
    (contextCause : nat) : M A (list GetBlobFuture) :=
  match ids, proxyHashes with
  | id :: ids', proxy :: proxyHashes' =>
      let* future := getBlobEnqueue id proxy contextCause Prefetch in
      let* futures := prefetchLoop ids' proxyHashes' contextCause in
      ret (future :: futures)
  | _, _ => ret []
  end.

Definition prefetchBlobs (getBatch : list ObjectId -> Try (list HgProxyHash))
    (ids : list ObjectId) (contextCause : nat) : M A (list GetBlobFuture) :=
  match getBatch ids with
  | Exception e => record MissingProxyHash ;;; throw e
  | Value proxyHashes => prefetchLoop ids proxyHashes contextCause
  end.

(** [SaplingBackingStore::periodicManagementTask]. *)
Definition periodicManagementTask : M A unit := flush store_.

End ObjectFetch.

(** *** Trees fetched one at a time *)

Section TreeFetch.
Context {A RawTree Tree : Type} (store_ : NativeStore A) (config_ : Config).

(** [store_.getTree] of the adapter and the conversion [fromRawTree],
    taken as parameters. *)
Context (store_getTree : A -> string -> FetchMode -> A * Try RawTree).
Context (fromRawTree : RawTree -> ObjectId -> string -> Tree).

(** What [getTreeFromBackingStore] does besides returning: its calls to
    the adapter and the fetched source it sets on the context, in order. *)
Inductive TreeStep : Type :=
| StepGetTree (manifestId : string) (mode : FetchMode)
| StepFlush
| StepSetFetchedSource (fetchedSource : FetchedSource).

(** [SaplingBackingStore::getTreeFromBackingStore]: the adapter after the
    call, the steps taken and the result. The root is the empty path. *)
Definition getTreeFromBackingStore (path : string) (manifestId : Hash20)
    (edenTreeId : ObjectId) (a : A) : A * list TreeStep * Try Tree :=
  let '(a1, steps, fetch_mode, tree) :=
    if allowRemoteGetBatch config_ then
      let fetch_mode := if bool_decide (path = "") then LocalOnly else AllowRemote in
      let '(a1, tree) := store_getTree a manifestId fetch_mode in
      if negb (hasValue tree) && bool_decide (fetch_mode = LocalOnly) then
        let a2 := store_flush store_ a1 in
        let '(a3, tree) := store_getTree a2 manifestId AllowRemote in
        (a3, [StepGetTree manifestId fetch_mode; StepFlush;
              StepGetTree manifestId AllowRemote], AllowRemote, tree)
      else (a1, [StepGetTree manifestId fetch_mode], fetch_mode, tree)
    else
      let '(a1, tree) := store_getTree a manifestId LocalOnly in
      if negb (hasValue tree) then
        let a2 := if bool_decide (path = "") then store_flush store_ a1 else a1 in
        let '(a3, tree) := store_getTree a2 manifestId RemoteOnly in
        (a3,
         ([StepGetTree manifestId LocalOnly]
            ++ (if bool_decide (path = "") then [StepFlush] else [])
            ++ [StepGetTree manifestId RemoteOnly])%list,
         RemoteOnly, tree)
      else (a1, [StepGetTree manifestId LocalOnly], LocalOnly, tree) in
  match tree with
  | Value raw =>
      let fetched_source :=
        match fetch_mode with
        | LocalOnly => Source_Local
        | RemoteOnly => Source_Remote
        | AllowRemote | AllowRemotePrefetch => Source_Unknown
        end in
      (a1, (steps ++ [StepSetFetchedSource fetched_source])%list,
       Value (fromRawTree raw edenTreeId path))
  | Exception e => (a1, steps, Exception e)
  end.

End TreeFetch.

(** *** Root trees and the commit-to-tree mapping *)

(** [HgObjectIdFormat] and [ObjectFetchContext::ObjectType]. *)
Inductive HgObjectIdFormat : Type := WithPath | HashOnly.

Inductive ObjectType : Type :=
| Type_Tree | Type_RootTree | Type_ManifestForRoot | Type_TreeAuxData
| Type_Blob | Type_BlobAuxData | Type_PrefetchBlob.

#[global] Instance ObjectType_eq_dec : EqDecision ObjectType.
Proof. solve_decision. Defined.

(** What the import of a root tree does besides returning: the steps of
    [getTreeFromBackingStore], the lookup of a manifest node, statistics
    and the telemetry of a miss. *)
Inductive ImportStep : Type :=
| AdapterStep (step : TreeStep)
| StepGetManifestNode (commitId : string)
| StepStat (counter : string)
| StepFetchMiss.

(** The counters of [importTreeManifestImpl] and [retryGetTreeImpl] for an
    object type; the types that cannot get there have none. *)
Definition treeCounter (type : ObjectType) (tree rootTree manifestForRoot : string)
    : list ImportStep :=
  match type with
  | Type_Tree => [StepStat tree]
  | Type_RootTree => [StepStat rootTree]
  | Type_ManifestForRoot => [StepStat manifestForRoot]
  | _ => []
  end.

(** Modelled from the spec: [ObjectId::fromHex], absent from the sources,
    gives the binary form of the hex text; [hashFromRootId] applies it to
    the value of the root id. *)
Definition hashFromRootId (root : RootId) : Try ObjectId :=
  match unhexlify (rootValue root) with
  | Some bytes => Value bytes
  | None => Exception (domain_error "unhexlify() called with non-hex input")
  end.

Section RootTree.
Context {A RawTree Entries : Type} (store_ : NativeStore A) (config_ : Config).

(** The adapter's [getTree] and [getManifestNode], the conversion of the
    entries of a raw tree, the helpers of [HgProxyHash], the configured id
    format, the flag [hg_fetch_missing_trees], whether the host is a
    dogfooding host, and the keyspace of the mapping, all taken as
    parameters. The local store is the in-memory one. *)
Context (store_getTree : A -> string -> FetchMode -> A * Try RawTree).
Context (store_getManifestNode : A -> string -> A * option Hash20).
Context (treeEntries : RawTree -> string -> Entries) (noEntries : Entries).
Context (codec : ProxyHashCodec) (load : MemoryStorage -> ObjectId -> Try HgProxyHash).
Context (hgObjectIdFormat : HgObjectIdFormat).
Context (hg_fetch_missing_trees dogfoodingHost : bool).
Context (HgCommitToTreeFamily : KeySpace).

(** A tree: its entries and its id. *)
Record TreeOf : Type := mkTree { treeContents : Entries; getHash : ObjectId }.

(** [fromRawTree]: the converted entries under the id given. *)
Definition fromRawTree (raw : RawTree) (edenTreeId : ObjectId) (path : string) : TreeOf :=
  mkTree (treeEntries raw path) edenTreeId.

Definition dogfooding (counter : string) : list ImportStep :=
  if dogfoodingHost then [StepStat counter] else [].

(** [SaplingBackingStore::retryGetTreeImpl]: the body run on the retry
    pool. *)
Definition retryGetTreeImpl (manifestNode : Hash20) (edenTreeID : ObjectId)
    (path : string) (type : ObjectType) (a : A) : A * list ImportStep * Try TreeOf :=
  let a0 := store_flush store_ a in
  let '(a1, steps, tree) :=
    getTreeFromBackingStore store_ config_ store_getTree fromRawTree
      path manifestNode edenTreeID a0 in
  match tree with
  | Value t =>
      (a1,
       (AdapterStep StepFlush :: map AdapterStep steps
          ++ treeCounter type "fetchTreeRetrySuccess" "getRootTreeRetrySuccess"
               "importManifestForRootRetrySuccess"
          ++ dogfooding "fetchTreeRetrySuccessDogfooding")%list,
       Value t)
  | Exception e =>
      (a1,
       (AdapterStep StepFlush :: map AdapterStep steps
          ++ (if structuredLogger config_ then [StepFetchMiss] else [])
          ++ treeCounter type "fetchTreeRetryFailure" "getRootTreeRetryFailure"
               "importManifestForRootRetryFailure"
          ++ dogfooding "fetchTreeRetryFailureDogfooding")%list,
       Exception e)
  end.

(** [SaplingBackingStore::retryGetTree]. The write batch that it opens is
    not written to. *)
Definition retryGetTree (manifestNode : Hash20) (edenTreeID : ObjectId)
    (path : string) (type : ObjectType) (a : A) : A * list ImportStep * Try TreeOf :=
  if bool_decide (path = "") && bool_decide (manifestNode = kZeroHash) then
    (a, [], Value (mkTree noEntries edenTreeID))
  else if negb hg_fetch_missing_trees then
    (a, [],
     Exception (runtime_error
       "Data not available via edenapi, skipping fallback to importer because of FLAGS_hg_fetch_missing_trees"))
  else retryGetTreeImpl manifestNode edenTreeID path type a.

(** The id that [importTreeManifestImpl] gives to the root tree of a
    manifest node. *)
Definition rootObjectId (manifestNode : Hash20) : ObjectId :=
  match hgObjectIdFormat with
  | WithPath => makeEmbeddedProxyHash1 codec manifestNode ""
  | HashOnly => makeEmbeddedProxyHash2 codec manifestNode
  end.

(** [SaplingBackingStore::importTreeManifestImpl]. *)
Definition importTreeManifestImpl (manifestNode : Hash20) (type : ObjectType) (a : A)
    : A * list ImportStep * Try TreeOf :=
  let path := "" in
  let objectId := rootObjectId manifestNode in
  let '(a1, steps, tree) :=
    getTreeFromBackingStore store_ config_ store_getTree fromRawTree
      path manifestNode objectId a in
  match tree with
  | Value t =>
      (a1,
       (map AdapterStep steps
          ++ treeCounter type "fetchTreeSuccess" "getRootTreeSuccess"
               "importManifestForRootSuccess"
          ++ dogfooding "fetchTreeSuccessDogfooding")%list,
       Value t)
  | Exception _ =>
      let '(a2, retrySteps, result) := retryGetTree manifestNode objectId path type a1 in
      (a2,
       (map AdapterStep steps
          ++ treeCounter type "fetchTreeFailure" "getRootTreeFailure"
               "importManifestForRootFailure"
          ++ dogfooding "fetchTreeFailureDogfooding"
          ++ retrySteps)%list,
       result)
  end.

(** [SaplingBackingStore::getManifestNode] and
    [SaplingBackingStore::importTreeManifest]. *)
Definition importTreeManifest (commitId : ObjectId) (type : ObjectType) (a : A)
    : A * list ImportStep * Try TreeOf :=
  let '(a1, manifestNode) := store_getManifestNode a commitId in
  match manifestNode with
  | None =>
      (a1, [StepGetManifestNode commitId],
       Exception (runtime_error "Manifest node could not be found for commitId"))
  | Some node =>
      let '(a2, steps, result) := importTreeManifestImpl node type a1 in
      (a2, StepGetManifestNode commitId :: steps, result)
  end.

(** [SaplingBackingStore::getRootTree]: the adapter and the local store
    after the call, the steps taken, and the tree with its id. *)
Definition getRootTree (rootId : RootId) (a : A) (localStore_ : MemoryStorage)
    : A * MemoryStorage * list ImportStep * Try (TreeOf * ObjectId) :=
  match hashFromRootId rootId with
  | Exception e => (a, localStore_, [], Exception e)
  | Value commitId =>
      match MemoryLocalStore_get HgCommitToTreeFamily commitId localStore_ with
      | None =>
          let '(a1, steps, result) := importTreeManifest commitId Type_RootTree a in
          match result with
          | Value rootTree =>
              (a1,
               MemoryLocalStore_put HgCommitToTreeFamily commitId (getHash rootTree)
                 localStore_,
               steps, Value (rootTree, getHash rootTree))
          | Exception e => (a1, localStore_, steps, Exception e)
          end
      | Some bytes =>
          match load localStore_ bytes with
          | Exception e => (a, localStore_, [], Exception e)
          | Value rootTreeHash =>
              let '(a1, steps, result) :=
                importTreeManifestImpl (revHash rootTreeHash) Type_RootTree a in
              (a1, localStore_, steps,
               match result with
               | Value tree => Value (tree, getHash tree)
               | Exception e => Exception e
               end)
          end
      end
  end.

(** [SaplingBackingStore::importManifestForRoot]. *)
Definition importManifestForRoot (rootId : RootId) (manifestId : Hash20) (a : A)
    (localStore_ : MemoryStorage) : A * MemoryStorage * list ImportStep * Try unit :=
  match hashFromRootId rootId with
  | Exception e => (a, localStore_, [], Exception e)
  | Value commitId =>
      match MemoryLocalStore_get HgCommitToTreeFamily commitId localStore_ with
      | Some _ => (a, localStore_, [], Value tt)
      | None =>
          let '(a1, steps, result) :=
            importTreeManifestImpl manifestId Type_ManifestForRoot a in
          match result with
          | Value rootTree =>
              (a1,
               MemoryLocalStore_put HgCommitToTreeFamily commitId (getHash rootTree)
                 localStore_,
               steps, Value tt)
          | Exception e => (a1, localStore_, steps, Exception e)
          end
      end
  end.

End RootTree.

(** *** Telemetry of the fetch operations *)

(** The ticks of [std::chrono::steady_clock] and of a configured duration
    are signed 64-bit counts. A sum outside the range, which C++ leaves
    undefined, is taken to wrap around in two's complement, as the
    addition of the hardware does. *)
Definition wrap64 (z : Z) : Z := ((z + 2 ^ 63) mod 2 ^ 64 - 2 ^ 63)%Z.

(** [SaplingBackingStore::logMissingProxyHash]: [now] is the reading of
    the steady clock and [last] the time kept in
    [lastMissingProxyHashLog_], both in ticks; [*last + interval] is a sum
    of 64-bit counts. The result says whether the event was logged and
    gives the time kept from then on. *)
Definition logMissingProxyHash (missingHgProxyHashLogInterval now last : Z) : bool * Z :=
  if (wrap64 (last + missingHgProxyHashLogInterval) <=? now)%Z
  then (true, now) else (false, last).

(** The times at which a run of calls, made at the times given, logged the
    event. *)
Fixpoint missingProxyHashLogs (missingHgProxyHashLogInterval : Z) (times : list Z)
    (last : Z) : list Z :=
  match times with
  | [] => []
  | now :: rest =>
      let '(shouldLog, last') :=
        logMissingProxyHash missingHgProxyHashLogInterval now last in
      if shouldLog then now :: missingProxyHashLogs missingHgProxyHashLogInterval rest last'
      else missingProxyHashLogs missingHgProxyHashLogInterval rest last'
  end.

(** The state of the recording of fetched paths, and the imports handed to
    the logger. *)
Record FetchRecorder : Type := mkRecorder {
  isRecordingFetch : bool;
  fetchedFilePaths : gset string;
  loggedImports : list (string * ObjectType)
}.

(** [SaplingBackingStore::logBackingStoreFetch]. [logFetchPathRegex] is
    the configured filter with the match of [RE2::PartialMatch], when one is
    configured; [causePrefetch] is the value of [Cause::Prefetch]. *)
Definition logBackingStoreFetch (logFetchPathRegex : option (string -> bool))
    (causePrefetch contextCause : nat) (hashes : list HgProxyHash) (type : ObjectType)
    (r : FetchRecorder) : FetchRecorder :=
  let logged :=
    match logFetchPathRegex with
    | Some partialMatch =>
        (fun p => (p, type)) <$> List.filter partialMatch (path <$> hashes)
    | None => []
    end in
  let paths :=
    if negb (bool_decide (type = Type_Tree)) && isRecordingFetch r
       && negb (bool_decide (contextCause = causePrefetch))
    then fetchedFilePaths r ∪ list_to_set (path <$> hashes)
    else fetchedFilePaths r in
  mkRecorder (isRecordingFetch r) paths (loggedImports r ++ logged)%list.

(** [SaplingBackingStore::startRecordingFetch] and
    [SaplingBackingStore::stopRecordingFetch]. *)
Definition startRecordingFetch (r : FetchRecorder) : FetchRecorder :=
  mkRecorder true (fetchedFilePaths r) (loggedImports r).

Definition stopRecordingFetch (r : FetchRecorder) : gset string * FetchRecorder :=
  (fetchedFilePaths r, mkRecorder false ∅ (loggedImports r)).

(** A run of fetches, each with its cause, proxy hashes and object type. *)
Definition logFetches (logFetchPathRegex : option (string -> bool)) (causePrefetch : nat)
    (fetches : list (nat * list HgProxyHash * ObjectType)) (r : FetchRecorder)
    : FetchRecorder :=
  fold_left
    (fun r fetch =>
       logBackingStoreFetch logFetchPathRegex causePrefetch (fst (fst fetch))
         (snd (fst fetch)) (snd fetch) r)
    fetches r.

(** *** The caching policy and the table of outstanding events *)

(** The enumerators of [BackingStore::LocalStoreCachingPolicy], declared in
    a header absent from the sources, by their underlying values. *)
Record LocalStoreCachingPolicy : Type := mkPolicy {
  Policy_NoCaching : N;
  Policy_Trees : N;
  Policy_Blobs : N;
  Policy_BlobAuxData : N
}.

(** [SaplingBackingStore::constructLocalStoreCachingPolicy], as the
    underlying value of its result; the three flags are the configuration
    values it reads. *)
Definition constructLocalStoreCachingPolicy (policy : LocalStoreCachingPolicy)
    (shouldCacheTrees shouldCacheBlobs shouldCacheBlobAuxData : bool) : N :=
  let result := Policy_NoCaching policy in
  let result := if shouldCacheTrees then N.lor result (Policy_Trees policy) else result in
  let result := if shouldCacheBlobs then N.lor result (Policy_Blobs policy) else result in
  let result :=
    if shouldCacheBlobAuxData then N.lor result (Policy_BlobAuxData policy) else result in
  result.

(** [HgImportTraceEvent]: the fields that [processHgEvent] reads and the
    resource the event is about. *)
Inductive EventType : Type := QUEUE | START | FINISH.

Record HgImportTraceEvent : Type := mkTraceEvent {
  traceUnique : nat;
  eventType : EventType;
  resourceType : ImportKind
}.

#[global] Instance EventType_eq_dec : EqDecision EventType.
Proof. solve_decision. Defined.
#[global] Instance HgImportTraceEvent_eq_dec : EqDecision HgImportTraceEvent.
Proof. solve_decision. Defined.

(** Modelled from the spec: the activity buffer, absent from the sources,
    is a ring buffer of a fixed size; overflow drops the oldest event. *)
Definition addEvent (maxEvents : nat) (event : HgImportTraceEvent)
    (buffer : list HgImportTraceEvent) : list HgImportTraceEvent :=
  let added := (buffer ++ [event])%list in
  drop (length added - maxEvents) added.

(** The table of outstanding events and the activity buffer. *)
Record TraceState : Type := mkTraceState {
  outstandingHgEvents : gmap nat HgImportTraceEvent;
  activityBuffer : list HgImportTraceEvent
}.

(** [SaplingBackingStore::processHgEvent]; the event type is one of the
    three enumerators. *)
Definition processHgEvent (maxEvents : nat) (event : HgImportTraceEvent)
    (s : TraceState) : TraceState :=
  let outstanding :=
    match eventType event with
    | QUEUE | START => <[traceUnique event := event]> (outstandingHgEvents s)
    | FINISH => delete (traceUnique event) (outstandingHgEvents s)
    end in
  mkTraceState outstanding (addEvent maxEvents event (activityBuffer s)).

(** The subscriber of the trace bus, run over the events published. *)
Definition processHgEvents (maxEvents : nat) (published : list HgImportTraceEvent)
    (s : TraceState) : TraceState :=
  fold_left (fun s event => processHgEvent maxEvents event s) published s.

(** The last event of a request among those published. *)
Definition lastEventOf (u : nat) (published : list HgImportTraceEvent)
    : option HgImportTraceEvent :=
  last (filter (fun event => traceUnique event = u) published).

(** *** Further properties of pipeline code *)

(** A record that names no fetched source but [Unknown]. *)
Definition unknownSource (e : Event) : Prop :=
  match e with
  | BlobCounters _ _ fetchedSource _ => fetchedSource = Source_Unknown
  | SetFetchedSource _ _ _ => False
  | _ => True
  end.

(** A flush, or a fetch in [AllowRemote] mode. *)
Definition allowRemoteCall (c : AdapterCall) : Prop :=
  match c with
  | CallBatch _ mode _ | CallGetBlob _ mode => mode = AllowRemote
  | CallGetBlobAuxData _ _ => False
  | CallFlush => True
  end.

(** Code that fulfils promises with results that satisfy [P] only. *)
Definition fulfilsWith {A B} (m : M A B) (P : Try Response -> Prop) : Prop :=
  forall (s : State A) (u : nat) (x : Try Response),
    promises (snd (m s)) !! u = Some x -> promises s !! u = Some x \/ P x.

(** No condition on a record or on a call. *)
Definition anyEvent (e : Event) : Prop := True.
Definition anyCall (c : AdapterCall) : Prop := True.

(** *** An adapter for the examples

    Its local data, the data that a flush brings into the local data, its
    remote data, and the number of remote calls that still fail. *)
Record SampleStore : Type := mkSample {
  localData : list (string * string);
  unflushed : list (string * string);
  remoteData : list (string * string);
  remoteDown : nat;
  localAux : list (string * FileAuxData)
}.

Fixpoint assoc {B} (key : string) (l : list (string * B)) : Try B :=
  match l with
  | [] => Exception (fetch_error "not found")
  | (k, v) :: rest => if String.eqb k key then Value v else assoc key rest
  end.

Definition sampleGetBlob (a : SampleStore) (nodeId : string) (mode : FetchMode)
    : SampleStore * Try string :=
  match mode with
  | LocalOnly => (a, assoc nodeId (localData a))
  | _ =>
      match remoteDown a with
      | O => (a, assoc nodeId (remoteData a))
      | S n =>
          (mkSample (localData a) (unflushed a) (remoteData a) n (localAux a),
           Exception (fetch_error "remote is down"))
      end
  end.

Definition sampleBatch {B} (get : string -> Try B) (requests : list SaplingRequest)
    : list (nat * Try B) :=
  imap (fun index request => (index, get (node request))) requests.

Definition sampleStore : NativeStore SampleStore := {|
  store_getBlobBatch := fun a requests mode =>
    (fst (sampleGetBlob a "" mode),
     sampleBatch (fun nodeId => snd (sampleGetBlob a nodeId mode)) requests);
  store_getBlob := sampleGetBlob;
  store_getBlobAuxDataBatch := fun a requests mode =>
    (a, sampleBatch (fun nodeId =>
           match mode with
           | LocalOnly => assoc nodeId (localAux a)
           | _ => Exception (fetch_error "no aux data")
           end) requests);
  store_getTreeAuxDataBatch := fun a requests mode =>
    (a, sampleBatch (fun _ => Exception (fetch_error "no aux data")) requests);
  store_getBlobAuxData := fun a nodeId local_only => (a, assoc nodeId (localAux a));
  store_flush := fun a =>
    mkSample (localData a ++ unflushed a)%list [] (remoteData a) (remoteDown a) (localAux a)
|}.

(** A request of the examples: the node id is the revision hash. *)
Definition sampleRequest (unique : nat) (kind : ImportKind) (nodeId : string) (c : nat)
    : SaplingImportRequest :=
  mkRequest unique kind nodeId (mkProxyHash nodeId "") c Fetch.

(** A tree side for the sample adapter: the local data hold the trees
    whose manifest node is a key of [localData], each without entries, and
    every commit has the manifest node [bbbbbbbbbbbbbbbbbbbb]. *)
Definition sampleGetTree (a : SampleStore) (manifestId : string) (mode : FetchMode)
    : SampleStore * Try unit :=
  (a, try_bind (assoc manifestId (localData a)) (fun _ => Value tt)).

Definition sampleGetManifestNode (a : SampleStore) (commitId : string)
    : SampleStore * option Hash20 :=
  (a, Some "bbbbbbbbbbbbbbbbbbbb").

(* ===================================================================== *)
(** * Properties *)
(* ===================================================================== *)

(** ** Hexadecimal text *)

Lemma hex_byte (b : ascii) :
  hexValue (hexDigit (N_of_ascii b / 16)) = Some (N_of_ascii b / 16)%N /\
  hexValue (hexDigit (N_of_ascii b mod 16)) = Some (N_of_ascii b mod 16)%N /\
  ascii_of_N (16 * (N_of_ascii b / 16) + N_of_ascii b mod 16) = b.
Proof.
  destruct b as [[] [] [] [] [] [] [] []]; vm_compute; auto.
Qed.

Lemma hexDigit_high_not_p (b : ascii) :
  hexDigit (N_of_ascii b / 16) <> "p"%char.
Proof.
  destruct b as [[] [] [] [] [] [] [] []]; vm_compute; discriminate.
Qed.

Lemma unhexlify_hexlify (s : string) : unhexlify (hexlify s) = Some s.
Proof.
  induction s as [|b s IH]; [reflexivity|].
  destruct (hex_byte b) as (Hhi & Hlo & Hb).
  cbn [hexlify unhexlify]. rewrite Hhi, Hlo, IH, Hb. reflexivity.
Qed.

Lemma length_hexlify (s : string) : String.length (hexlify s) = 2 * String.length s.
Proof.
  induction s as [|b s IH]; [reflexivity|]. cbn [hexlify String.length]. lia.
Qed.

Lemma length_unhexlify (s bytes : string) :
  unhexlify s = Some bytes -> String.length s = 2 * String.length bytes.
Proof.
  remember (String.length s) as n eqn:Hn.
  revert s bytes Hn. induction n as [n IH] using lt_wf_ind.
  intros [|hi [|lo rest]] bytes Hn Hu; cbn in Hu.
  - injection Hu as <-. exact Hn.
  - discriminate.
  - destruct (hexValue hi), (hexValue lo); try discriminate.
    destruct (unhexlify rest) as [bs|] eqn:Hrest; [|discriminate].
    injection Hu as <-. cbn [String.length] in *.
    specialize (IH (String.length rest) ltac:(lia) rest bs eq_refl Hrest). lia.
Qed.

Lemma length_app_string (a b : string) :
  String.length (a ++ b) = String.length a + String.length b.
Proof.
  induction a as [|c a IH]; [reflexivity|].
  change (String c a ++ b) with (String c (a ++ b)).
  cbn [String.length]. now rewrite IH.
Qed.

Lemma app_string_nil_r (a : string) : a ++ "" = a.
Proof.
  induction a as [|c a IH]; [reflexivity|].
  change (String c a ++ "") with (String c (a ++ "")). now rewrite IH.
Qed.

Lemma app_string_assoc (a b c : string) : a ++ (b ++ c) = (a ++ b) ++ c.
Proof.
  induction a as [|d a IH]; [reflexivity|].
  change (String d a ++ (b ++ c)) with (String d (a ++ (b ++ c))).
  now rewrite IH.
Qed.

Lemma subpieceTo_app (a b : string) : subpieceTo (String.length a) (a ++ b) = a.
Proof.
  induction a as [|c a IH]; [now destruct b|].
  change (String c a ++ b) with (String c (a ++ b)).
  cbn [String.length subpieceTo]. now rewrite IH.
Qed.

Lemma subpieceFrom_app (a b : string) : subpieceFrom (String.length a) (a ++ b) = b.
Proof. induction a as [|c a IH]; [reflexivity | exact IH]. Qed.

Lemma get_app_here (a b : string) (c : ascii) :
  String.get (String.length a) (a ++ String c b) = Some c.
Proof. induction a as [|d a IH]; [reflexivity | exact IH]. Qed.

Lemma subpieceTo_at (a b : string) (n : nat) :
  String.length a = n -> subpieceTo n (a ++ b) = a.
Proof. intros <-. apply subpieceTo_app. Qed.

Lemma subpieceFrom_at (a b : string) (n : nat) :
  String.length a = n -> subpieceFrom n (a ++ b) = b.
Proof. intros <-. apply subpieceFrom_app. Qed.

Lemma get_at (a b : string) (c : ascii) (n : nat) :
  String.length a = n -> String.get n (a ++ String c b) = Some c.
Proof. intros <-. apply get_app_here. Qed.

Lemma startsWith_hexlify_proxy (h rest : string) :
  h <> "" -> startsWith (hexlify h ++ rest) "proxy-" = false.
Proof.
  destruct h as [|b h]; [congruence|]. intros _.
  unfold startsWith.
  change (hexlify (String b h) ++ rest)
    with (String (hexDigit (N_of_ascii b / 16))
            (String (hexDigit (N_of_ascii b mod 16)) (hexlify h ++ rest))).
  cbn [String.prefix].
  destruct (ascii_dec "p" (hexDigit (N_of_ascii b / 16))) as [E|E]; [|reflexivity].
  exfalso. exact (hexDigit_high_not_p b (eq_sym E)).
Qed.

Lemma proxy_text (t : string) :
  startsWith ("proxy-" ++ t) "proxy-" = true /\
  String.length ("proxy-" ++ t) = 6 + String.length t /\
  subpieceFrom 6 ("proxy-" ++ t) = t.
Proof.
  change ("proxy-" ++ t)
    with (String "p" (String "r" (String "o" (String "x" (String "y" (String "-" t)))))).
  repeat split. unfold startsWith. cbn. now destruct t.
Qed.

Lemma nonempty_of_length (h : string) (n : nat) :
  String.length h = S n -> h <> "".
Proof. intros H ->. discriminate. Qed.

Lemma Hash20_fromHex_hexlify (h : Hash20) :
  String.length h = RAW_SIZE -> Hash20_fromHex (hexlify h) = Value h.
Proof.
  intros Hlen. unfold Hash20_fromHex.
  rewrite length_hexlify, Hlen, unhexlify_hexlify. reflexivity.
Qed.

(** ** Object ids *)

(** The text of an embedded id reads back as the embedded id of its hash
    and path: the hash-only one when the path is empty. *)
Lemma parse_render_embedded (c : ProxyHashCodec) (x : ObjectId) (h : Hash20) (p : string) :
  tryParseEmbeddedProxyHash c x = Some (mkProxyHash h p) ->
  String.length h = RAW_SIZE ->
  relativePathOk c p = true ->
  staticParseObjectId c (staticRenderObjectId c x)
  = Value (if decide (p = "") then makeEmbeddedProxyHash2 c h
           else makeEmbeddedProxyHash1 c h p).
Proof.
  intros Hparse Hlen Hok.
  unfold staticRenderObjectId; rewrite Hparse; cbn [path byteHash revHash].
  destruct (decide (p = "")) as [->|Hp].
  - rewrite bool_decide_eq_true_2 by reflexivity.
    unfold staticParseObjectId.
    rewrite <- (app_string_nil_r (hexlify h)) at 1.
    rewrite startsWith_hexlify_proxy by (eapply nonempty_of_length; exact Hlen).
    rewrite length_hexlify, Hlen. cbn [RAW_SIZE Nat.mul Nat.add Nat.eqb].
    rewrite Hash20_fromHex_hexlify by exact Hlen. reflexivity.
  - rewrite bool_decide_eq_false_2 by exact Hp.
    unfold staticParseObjectId.
    rewrite startsWith_hexlify_proxy by (eapply nonempty_of_length; exact Hlen).
    assert (H40 : String.length (hexlify h) = 40)
      by (rewrite length_hexlify, Hlen; reflexivity).
    change (":" ++ p) with (String ":" p).
    rewrite length_app_string, H40. cbn [String.length].
    replace (40 + S (String.length p) =? 40)%nat with false
      by (symmetry; apply Nat.eqb_neq; lia).
    replace (40 + S (String.length p) <? 41)%nat with false
      by (symmetry; apply Nat.ltb_ge; lia).
    rewrite (get_at _ _ _ 40 H40).
    rewrite bool_decide_eq_true_2 by reflexivity. cbn [negb].
    rewrite (subpieceTo_at _ _ 40 H40).
    rewrite Hash20_fromHex_hexlify by exact Hlen. cbn [try_bind].
    change (String ":" p) with (":" ++ p).
    rewrite app_string_assoc.
    rewrite (subpieceFrom_at (hexlify h ++ ":") p 41)
      by (rewrite length_app_string, H40; reflexivity).
    unfold RelativePathPiece. rewrite Hok. reflexivity.
Qed.

(** The text of an indirect key reads back when the key has 20 bytes, and
    is refused for its length otherwise. *)
Lemma parse_render_indirect (c : ProxyHashCodec) (key : ObjectId) :
  tryParseEmbeddedProxyHash c key = None ->
  staticParseObjectId c (staticRenderObjectId c key)
  = if decide (String.length key = 20) then Value key
    else Exception (invalid_argument "invalid proxy hash length").
Proof.
  intros Hparse. unfold staticRenderObjectId. rewrite Hparse.
  unfold staticParseObjectId.
  destruct (proxy_text (hexlify key)) as (-> & -> & ->).
  rewrite length_hexlify.
  destruct (decide (String.length key = 20)) as [Hlen|Hlen].
  - rewrite Hlen, unhexlify_hexlify. reflexivity.
  - replace (6 + 2 * String.length key =? 46)%nat with false
      by (symmetry; apply Nat.eqb_neq; lia).
    reflexivity.
Qed.

(** C4 (as amended). What parsing the rendered id gives, for every kind of
    object id and whatever the embedded encodings are. An embedded
    hash-only id comes back. An embedded id with a path comes back when the
    path is not empty; with the empty path, what comes back is the
    hash-only id of its hash, which is the id itself only where the two
    encodings agree on it. An indirect key comes back when it has 20
    bytes, the length whose text form has the 46 characters that the parser
    asks of it; an indirect key of any other length, the 32 bytes of the
    claim among them, is refused with "invalid proxy hash length". *)
Theorem parse_render_object_id (c : ProxyHashCodec) :
  (forall h : Hash20,
     String.length h = RAW_SIZE ->
     tryParseEmbeddedProxyHash c (makeEmbeddedProxyHash2 c h) = Some (mkProxyHash h "") ->
     staticParseObjectId c (staticRenderObjectId c (makeEmbeddedProxyHash2 c h))
     = Value (makeEmbeddedProxyHash2 c h)) /\
  (forall (h : Hash20) (p : string),
     String.length h = RAW_SIZE ->
     relativePathOk c p = true ->
     tryParseEmbeddedProxyHash c (makeEmbeddedProxyHash1 c h p) = Some (mkProxyHash h p) ->
     staticParseObjectId c (staticRenderObjectId c (makeEmbeddedProxyHash1 c h p))
     = Value (if decide (p = "") then makeEmbeddedProxyHash2 c h
              else makeEmbeddedProxyHash1 c h p)) /\
  (forall key : ObjectId,
     tryParseEmbeddedProxyHash c key = None ->
     staticParseObjectId c (staticRenderObjectId c key)
     = if decide (String.length key = 20) then Value key
       else Exception (invalid_argument "invalid proxy hash length")).
Proof.
  split; [|split].
  - intros h Hlen Hparse.
    destruct (relativePathOk c "") eqn:Hok.
    + exact (parse_render_embedded c _ h "" Hparse Hlen Hok).
    + unfold staticRenderObjectId. rewrite Hparse. cbn [path byteHash revHash].
      rewrite bool_decide_eq_true_2 by reflexivity.
      unfold staticParseObjectId.
      rewrite <- (app_string_nil_r (hexlify h)) at 1.
      rewrite startsWith_hexlify_proxy by (eapply nonempty_of_length; exact Hlen).
      rewrite length_hexlify, Hlen. cbn [RAW_SIZE Nat.mul Nat.add Nat.eqb].
      rewrite Hash20_fromHex_hexlify by exact Hlen. reflexivity.
  - intros h p Hlen Hok Hparse.
    exact (parse_render_embedded c _ h p Hparse Hlen Hok).
  - intros key Hparse. exact (parse_render_indirect c key Hparse).
Qed.

(** C4, witness: under the encodings of the spec, the embedded id of the
    path [src/lib] and that of the empty path; under the typed encodings,
    a hash-only id and an indirect key of 20 bytes. *)
Lemma parse_render_object_id_witness :
  staticParseObjectId specCodec
    (staticRenderObjectId specCodec "aaaaaaaaaaaaaaaaaaaasrc/lib")
  = Value "aaaaaaaaaaaaaaaaaaaasrc/lib" /\
  staticParseObjectId specCodec
    (staticRenderObjectId specCodec (makeEmbeddedProxyHash1 specCodec "aaaaaaaaaaaaaaaaaaaa" ""))
  = Value (makeEmbeddedProxyHash1 specCodec "aaaaaaaaaaaaaaaaaaaa" "") /\
  staticParseObjectId typedCodec
    (staticRenderObjectId typedCodec (makeEmbeddedProxyHash2 typedCodec "aaaaaaaaaaaaaaaaaaaa"))
  = Value (makeEmbeddedProxyHash2 typedCodec "aaaaaaaaaaaaaaaaaaaa") /\
  staticParseObjectId typedCodec (staticRenderObjectId typedCodec "0123456789abcdefghij")
  = Value "0123456789abcdefghij".
Proof.
  split; [|split; [|split]].
  - exact (proj1 (proj2 (parse_render_object_id specCodec))
             "aaaaaaaaaaaaaaaaaaaa" "src/lib" eq_refl eq_refl eq_refl).
  - exact (proj1 (proj2 (parse_render_object_id specCodec))
             "aaaaaaaaaaaaaaaaaaaa" "" eq_refl eq_refl eq_refl).
  - exact (proj1 (parse_render_object_id typedCodec)
             "aaaaaaaaaaaaaaaaaaaa" eq_refl eq_refl).
  - exact (proj2 (proj2 (parse_render_object_id typedCodec))
             "0123456789abcdefghij" eq_refl).
Defined.

(** C4, counterexample: an indirect key of 32 bytes renders to 70
    characters, which the parser refuses; and under the typed encodings the
    embedded id of a hash with the empty path, which the encoder makes and
    the parser of embedded ids reads, renders as the bare hash and parses
    back as the hash-only id, another id. *)
Lemma parse_render_not_identity :
  (String.length (zeroBytes 32) = 32 /\
   tryParseEmbeddedProxyHash specCodec (zeroBytes 32) = None /\
   staticParseObjectId specCodec (staticRenderObjectId specCodec (zeroBytes 32))
   <> Value (zeroBytes 32)) /\
  (let x := makeEmbeddedProxyHash1 typedCodec "aaaaaaaaaaaaaaaaaaaa" "" in
   tryParseEmbeddedProxyHash typedCodec x = Some (mkProxyHash "aaaaaaaaaaaaaaaaaaaa" "") /\
   relativePathOk typedCodec "" = true /\
   staticParseObjectId typedCodec (staticRenderObjectId typedCodec x)
   = Value (makeEmbeddedProxyHash2 typedCodec "aaaaaaaaaaaaaaaaaaaa") /\
   staticParseObjectId typedCodec (staticRenderObjectId typedCodec x) <> Value x).
Proof.
  split.
  - split; [reflexivity|]. split; [reflexivity|]. vm_compute. discriminate.
  - cbv zeta. split; [reflexivity|]. split; [reflexivity|].
    split; [reflexivity|]. vm_compute. discriminate.
Qed.

(** A store that embeds nothing shows the indirect case of C4 at work. *)
Example parse_render_indirect20 :
  let c := mkCodec (fun h p => h ++ p) (fun h => h) (fun _ => None) noNul in
  staticParseObjectId c (staticRenderObjectId c "0123456789abcdefghij")
  = Value "0123456789abcdefghij".
Proof. reflexivity. Qed.

(** ** Root ids *)

(** C9 (as amended). A default-constructed root id renders as the 20 zero
    bytes of the null hash, the binary form of the all-zero hex string;
    [parseRootId] reads a 20-byte binary and a 40-character hex commit id
    and gives the 40-character hex form of either. *)
Theorem root_id_codec :
  renderRootId (mkRootId "") = Value (zeroBytes 20) /\
  (forall bin : string,
     String.length bin = 20 ->
     parseRootId bin = Value (mkRootId (hexlify bin))) /\
  (forall hex bytes : string,
     String.length hex = 40 -> unhexlify hex = Some bytes ->
     parseRootId hex = Value (mkRootId (hexlify bytes))) /\
  (forall (text : string) (root : RootId),
     parseRootId text = Value root ->
     String.length (rootValue root) = 40 /\
     parseRootId (rootValue root) = Value root).
Proof.
  split; [reflexivity|]. split; [|split].
  - intros bin Hlen. unfold parseRootId, hash20FromThrift.
    rewrite Hlen. reflexivity.
  - intros hex bytes Hlen Hu. unfold parseRootId, hash20FromThrift, Hash20_fromHex.
    rewrite Hlen, Hu. reflexivity.
  - intros text root Hparse.
    assert (Hcanon : exists h, String.length h = 20 /\ root = mkRootId (hexlify h)).
    { unfold parseRootId, hash20FromThrift, Hash20_fromHex in Hparse.
      destruct (String.length text =? RAW_SIZE)%nat eqn:E20.
      - apply Nat.eqb_eq in E20. injection Hparse as <-. now exists text.
      - destruct (String.length text =? 2 * RAW_SIZE)%nat eqn:E40; [|discriminate].
        apply Nat.eqb_eq in E40. cbn [negb] in Hparse.
        destruct (unhexlify text) as [bytes|] eqn:Hu; [|discriminate].
        injection Hparse as <-. exists bytes. split; [|reflexivity].
        apply length_unhexlify in Hu. unfold RAW_SIZE in E40. lia. }
    destruct Hcanon as (h & Hlen & ->). cbn [rootValue]. split.
    + rewrite length_hexlify, Hlen. reflexivity.
    + unfold parseRootId, hash20FromThrift.
      rewrite length_hexlify, Hlen. cbn [Nat.eqb RAW_SIZE Nat.mul Nat.add].
      rewrite Hash20_fromHex_hexlify by exact Hlen. reflexivity.
Qed.

(** C9, counterexample: the default-constructed root id does not render
    as the all-zero hex string. *)
Lemma render_default_root_not_hex :
  renderRootId (mkRootId "") <> Value "0000000000000000000000000000000000000000".
Proof. vm_compute. discriminate. Qed.

(** ** Comparing object ids *)

(** C3. [compareObjectsById] gives [Identical] on equal bytes; on
    different bytes it gives [Different] under the bijective policy and
    otherwise loads both proxy hashes and gives [Identical] when their
    revision hashes are equal and [Unknown] when they are not. An id
    compares [Identical] to itself. *)
Theorem compareObjectsById_spec (hgBijectiveBlobIds : bool)
    (load : ObjectId -> Try HgProxyHash) :
  (forall x : ObjectId,
     compareObjectsById hgBijectiveBlobIds load x x = Value Identical) /\
  (forall one two : ObjectId,
     one <> two -> hgBijectiveBlobIds = true ->
     compareObjectsById hgBijectiveBlobIds load one two = Value Different) /\
  (forall (one two : ObjectId) (oneProxy twoProxy : HgProxyHash),
     one <> two -> hgBijectiveBlobIds = false ->
     load one = Value oneProxy -> load two = Value twoProxy ->
     (revHash oneProxy = revHash twoProxy ->
      compareObjectsById hgBijectiveBlobIds load one two = Value Identical) /\
     (revHash oneProxy <> revHash twoProxy ->
      compareObjectsById hgBijectiveBlobIds load one two = Value Unknown)).
Proof.
  unfold compareObjectsById, bytesEqual. split; [|split].
  - intros x. now rewrite String.eqb_refl.
  - intros one two Hne ->. apply String.eqb_neq in Hne. now rewrite Hne.
  - intros one two oneProxy twoProxy Hne -> Hone Htwo.
    apply String.eqb_neq in Hne. rewrite Hne, Hone, Htwo. cbn [try_bind].
    split; intros Hrev.
    + now rewrite bool_decide_eq_true_2.
    + now rewrite bool_decide_eq_false_2.
Qed.

(** C3 at work: two paths of one revision hash, and two revision hashes. *)
Example compareObjectsById_examples :
  compareObjectsById false (loadEmbedded specCodec)
    "aaaaaaaaaaaaaaaaaaaasrc/lib" "aaaaaaaaaaaaaaaaaaaasrc/bin" = Value Identical /\
  compareObjectsById false (loadEmbedded specCodec)
    "aaaaaaaaaaaaaaaaaaaasrc/lib" "bbbbbbbbbbbbbbbbbbbbsrc/lib" = Value Unknown /\
  compareObjectsById true (loadEmbedded specCodec)
    "aaaaaaaaaaaaaaaaaaaasrc/lib" "aaaaaaaaaaaaaaaaaaaasrc/bin" = Value Different.
Proof. repeat split. Qed.

(** ** Local stores: [put] and [get] *)

Lemma memory_get_put (keySpace : KeySpace) (key value : string) (storage : MemoryStorage) :
  KeySpace_index keySpace < length storage ->
  MemoryLocalStore_get keySpace key (MemoryLocalStore_put keySpace key value storage)
  = Some value.
Proof.
  intros Hlt. unfold MemoryLocalStore_get, MemoryLocalStore_put.
  destruct (lookup_lt_is_Some_2 storage _ Hlt) as [m Hm].
  rewrite list_lookup_alter, Hm, decide_True by reflexivity. apply lookup_insert_eq.
Qed.

Lemma insertOrIgnore_lookup (key value k : string) (rows : gmap string string) :
  insertOrIgnore key value rows !! k
  = match rows !! k with
    | Some old => Some old
    | None => if decide (key = k) then Some value else None
    end.
Proof.
  unfold insertOrIgnore. destruct (rows !! key) as [old|] eqn:Hold.
  - destruct (rows !! k) eqn:Hk; [reflexivity|].
    destruct (decide (key = k)) as [->|]; [congruence | reflexivity].
  - rewrite lookup_insert. destruct (decide (key = k)) as [->|].
    + now rewrite Hold.
    + now destruct (rows !! k).
Qed.

Lemma sqlite_put_content (keySpace : KeySpace) (key value : string)
    (db db' : SqliteDatabase) (rows : gmap string string) :
  content db !! KeySpace_name keySpace = Some rows ->
  SqliteLocalStore_put keySpace key value db = (Value tt, db') ->
  content db' !! KeySpace_name keySpace = Some (insertOrIgnore key value rows) /\
  faultPlan db' = faultPlan db.
Proof.
  intros Hrows. unfold SqliteLocalStore_put, step.
  destruct (faultPlan db (clock db)); [discriminate|]. rewrite Hrows.
  intros [= <-]. cbn. split; [apply lookup_insert_eq | reflexivity].
Qed.

(** C5 (as amended). In the in-memory backend the last [put] of a key
    wins. In the SQLite backend [put] is [insert or ignore]: of two puts of
    one key the second changes nothing, and [get] gives the value that the
    key had before them or, when it had none, the value of the first. *)
Theorem put_put_get :
  (forall (keySpace : KeySpace) (key v1 v2 : string) (storage : MemoryStorage),
     KeySpace_index keySpace < length storage ->
     MemoryLocalStore_get keySpace key
       (MemoryLocalStore_put keySpace key v2
          (MemoryLocalStore_put keySpace key v1 storage)) = Some v2) /\
  (forall (keySpace : KeySpace) (key v1 v2 : string) (db db1 db2 : SqliteDatabase)
          (rows : gmap string string),
     content db !! KeySpace_name keySpace = Some rows ->
     SqliteLocalStore_put keySpace key v1 db = (Value tt, db1) ->
     SqliteLocalStore_put keySpace key v2 db1 = (Value tt, db2) ->
     faultPlan db2 (clock db2) = false ->
     fst (SqliteLocalStore_get keySpace key db2)
     = Value (Some (default v1 (rows !! key)))).
Proof.
  split.
  - intros keySpace key v1 v2 storage Hlt. apply memory_get_put.
    unfold MemoryLocalStore_put. now rewrite length_alter.
  - intros keySpace key v1 v2 db db1 db2 rows Hrows H1 H2 Hok.
    destruct (sqlite_put_content _ _ _ _ _ _ Hrows H1) as [Hrows1 _].
    destruct (sqlite_put_content _ _ _ _ _ _ Hrows1 H2) as [Hrows2 _].
    unfold SqliteLocalStore_get, step. rewrite Hok, Hrows2. cbn [fst].
    rewrite !insertOrIgnore_lookup.
    destruct (rows !! key); cbn; [reflexivity|].
    now rewrite decide_True.
Qed.

(** C5, witness: two puts of one key into the in-memory store. *)
Lemma put_put_get_witness :
  MemoryLocalStore_get (mkKeySpace 0 "blob") "k"
    (MemoryLocalStore_put (mkKeySpace 0 "blob") "k" "v2"
       (MemoryLocalStore_put (mkKeySpace 0 "blob") "k" "v1" [∅]))
  = Some "v2".
Proof. apply (proj1 put_put_get). cbn. lia. Defined.

(** C5, counterexample: in the SQLite backend the first writer wins. *)
Lemma sqlite_put_first_writer_wins :
  let blobs := mkKeySpace 0 "blob" in
  let db := mkDb {[ "blob" := ∅ ]} None 0 (fun _ => false) in
  let db1 := snd (SqliteLocalStore_put blobs "k" "v1" db) in
  let db2 := snd (SqliteLocalStore_put blobs "k" "v2" db1) in
  fst (SqliteLocalStore_put blobs "k" "v1" db) = Value tt /\
  fst (SqliteLocalStore_put blobs "k" "v2" db1) = Value tt /\
  fst (SqliteLocalStore_get blobs "k" db2) = Value (Some "v1") /\
  fst (SqliteLocalStore_get blobs "k" db2) <> Value (Some "v2").
Proof. vm_compute. repeat split. discriminate. Qed.

(** ** The SQLite write batch *)

Lemma step_insert_facts (table key value : string) (db db' : SqliteDatabase)
    (r : Try (option string)) :
  step (INSERT_OR_IGNORE table key value) db = (r, db') ->
  snapshot db' = snapshot db /\
  (forall t k, visible t k db -> visible t k db') /\
  (hasValue r = true -> visible table key db').
Proof.
  unfold step. destruct (faultPlan db (clock db)).
  { intros [= <- <-]. cbn. repeat split; [tauto | discriminate]. }
  destruct (content db !! table) as [rows|] eqn:Hrows.
  2: { intros [= <- <-]. cbn. repeat split; [tauto | discriminate]. }
  intros [= <- <-]. cbn. repeat split.
  - intros t k (rows0 & v & Ht & Hk). unfold visible. cbn.
    destruct (decide (table = t)) as [->|Hne].
    + rewrite lookup_insert_eq. rewrite Hrows in Ht. injection Ht as ->.
      exists (insertOrIgnore key value rows0), v. split; [reflexivity|].
      now rewrite insertOrIgnore_lookup, Hk.
    + rewrite lookup_insert_ne by exact Hne. now exists rows0, v.
  - intros _. unfold visible. cbn. rewrite lookup_insert_eq.
    destruct (rows !! key) as [old|] eqn:Hold.
    + exists (insertOrIgnore key value rows), old. split; [reflexivity|].
      now rewrite insertOrIgnore_lookup, Hold.
    + exists (insertOrIgnore key value rows), value. split; [reflexivity|].
      rewrite insertOrIgnore_lookup, Hold. now rewrite decide_True.
Qed.

Lemma flushItems_facts (table : string) (items : list (string * string)) :
  forall (db db' : SqliteDatabase) (r : Try unit),
    flushItems table items db = (r, db') ->
    snapshot db' = snapshot db /\
    (forall t k, visible t k db -> visible t k db') /\
    (hasValue r = true ->
     forall key value, (key, value) ∈ items -> visible table key db').
Proof.
  induction items as [|[k v] rest IH]; intros db db' r Hrun; cbn in Hrun.
  - injection Hrun as <- <-. repeat split; [tauto|].
    intros _ key value Hin. now apply elem_of_nil in Hin.
  - destruct (step (INSERT_OR_IGNORE table k v) db) as [r1 db1] eqn:Hstep.
    destruct (step_insert_facts _ _ _ _ _ _ Hstep) as (Hsnap1 & Hmono1 & Hvis1).
    destruct r1 as [o|e].
    + destruct (IH _ _ _ Hrun) as (Hsnap & Hmono & Hvis).
      repeat split; [congruence | auto |].
      intros Hok key value Hin. apply elem_of_cons in Hin as [[= -> ->]|Hin].
      * apply Hmono, Hvis1. reflexivity.
      * now apply (Hvis Hok key value).
    + injection Hrun as <- <-. repeat split; [exact Hsnap1 | exact Hmono1 | discriminate].
Qed.

Lemma flushBuffers_facts (kAll : list KeySpace) (pending : SqliteBuffer) :
  forall (i : nat) (db db' : SqliteDatabase) (r : Try unit) (left : SqliteBuffer),
    flushBuffers kAll i pending db = (r, db', left) ->
    snapshot db' = snapshot db /\
    (forall t k, visible t k db -> visible t k db') /\
    (hasValue r = true ->
     Forall (fun items => items = []) left /\
     forall j ks items key value,
       pending !! j = Some items -> kAll !! (i + j) = Some ks ->
       (key, value) ∈ items -> visible (KeySpace_name ks) key db').
Proof.
  induction pending as [|items rest IH]; intros i db db' r left Hrun; cbn in Hrun.
  - injection Hrun as <- <- <-. repeat split; [tauto | constructor |].
    intros j ks items key value Hj. now rewrite lookup_nil in Hj.
  - destruct items as [|item items].
    + destruct (flushBuffers kAll (S i) rest db) as [[r1 db1] rest1] eqn:Hrest.
      injection Hrun as <- <- <-.
      destruct (IH _ _ _ _ _ Hrest) as (Hsnap & Hmono & Hvis).
      repeat split; [exact Hsnap | exact Hmono | |].
      * constructor; [reflexivity | now apply Hvis].
      * intros j ks items key value Hj Hk Hin. destruct j as [|j]; cbn in Hj.
        -- injection Hj as <-. now apply elem_of_nil in Hin.
        -- destruct (Hvis H) as [_ Hall].
           apply (Hall j ks items key value Hj); [|exact Hin].
           now replace (S i + j) with (i + S j) by lia.
    + destruct (kAll !! i) as [ks0|] eqn:Hks.
      2: { injection Hrun as <- <- <-. repeat split; [tauto | discriminate | discriminate]. }
      destruct (flushItems (KeySpace_name ks0) (item :: items) db) as [r0 db0] eqn:Hitems.
      destruct (flushItems_facts _ _ _ _ _ Hitems) as (Hsnap0 & Hmono0 & Hvis0).
      destruct r0 as [u|e].
      * destruct (flushBuffers kAll (S i) rest db0) as [[r1 db1] rest1] eqn:Hrest.
        injection Hrun as <- <- <-.
        destruct (IH _ _ _ _ _ Hrest) as (Hsnap & Hmono & Hvis).
        repeat split; [congruence | auto | |].
        -- constructor; [reflexivity | now apply Hvis].
        -- intros j ks its key value Hj Hk Hin. destruct j as [|j]; cbn in Hj.
           ++ injection Hj as <-. rewrite Nat.add_0_r, Hks in Hk. injection Hk as <-.
              apply Hmono. now apply (Hvis0 eq_refl key value).
           ++ destruct (Hvis H) as [_ Hall].
              apply (Hall j ks its key value Hj); [|exact Hin].
              now replace (S i + j) with (i + S j) by lia.
      * injection Hrun as <- <- <-.
        repeat split; [exact Hsnap0 | exact Hmono0 | discriminate | discriminate].
Qed.

(** C6 at work: a batch whose third step fails leaves the store as it was,
    and the same batch without a fault puts both keys in. *)
Example sqlite_flush_examples :
  let kAll := [mkKeySpace 0 "blob"; mkKeySpace 1 "tree"] in
  let buffer :=
    SqliteWriteBatch_put (mkKeySpace 1 "tree") "t" "2"
      (SqliteWriteBatch_put (mkKeySpace 0 "blob") "b" "1" [[]; []]) in
  let tables : gmap string (gmap string string) := {[ "blob" := ∅; "tree" := ∅ ]} in
  (let out := SqliteWriteBatch_flush kAll buffer (mkDb tables None 0 (Nat.eqb 2)) in
   fst (fst out) = Exception (sqlite_error "step failed") /\
   content (snd (fst out)) = tables) /\
  (let out := SqliteWriteBatch_flush kAll buffer (mkDb tables None 0 (fun _ => false)) in
   fst (fst out) = Value tt /\
   content (snd (fst out)) = {[ "blob" := {[ "b" := "1" ]}; "tree" := {[ "t" := "2" ]} ]}).
Proof. vm_compute. repeat split. Qed.

(** The in-memory write batch at work: the batch keeps the last value put
    for a key, and [flush] replays it into the store and clears the batch. *)
Example memory_flush_example :
  let kAll := [mkKeySpace 0 "blob"; mkKeySpace 1 "tree"] in
  let batch :=
    MemoryWriteBatch_put (mkKeySpace 1 "tree") "t" "2"
      (MemoryWriteBatch_put (mkKeySpace 0 "blob") "b" "1"
         (MemoryWriteBatch_put (mkKeySpace 0 "blob") "b" "0" [∅; ∅])) in
  MemoryWriteBatch_flush kAll batch [∅; ∅]
  = ([∅; ∅], [{[ "b" := "1" ]}; {[ "t" := "2" ]}]).
Proof. vm_compute. reflexivity. Qed.

(** ** The state monad *)

Local Open Scope list_scope.

Lemma bind_value {A B C} (m : M A B) (k : B -> M A C) (s s' : State A) (c : C) :
  bind m k s = (Value c, s') ->
  exists b s1, m s = (Value b, s1) /\ k b s1 = (Value c, s').
Proof.
  unfold bind. destruct (m s) as [[b|e] s1]; [|discriminate].
  intros H. now exists b, s1.
Qed.

Lemma bind_run {A B C} (m : M A B) (k : B -> M A C) (s s1 : State A) (b : B) :
  m s = (Value b, s1) -> bind m k s = k b s1.
Proof. unfold bind. now intros ->. Qed.

Lemma bind_exception {A B C} (m : M A B) (k : B -> M A C) (s s1 : State A) (e : exn) :
  m s = (Exception e, s1) -> bind m k s = (Exception e, s1).
Proof. unfold bind. now intros ->. Qed.

(** ** Dropping the queue *)

Section Drop.
Context {A : Type}.

Lemma dropLoop_run (requestVec : list SaplingImportRequest) :
  forall s : State A,
    forEach requestVec (fun request =>
      if decide (getType request = BlobImport) then dropBlobImportRequest request
      else if decide (getType request = TreeImport) then dropTreeImportRequest request
      else ret tt) s
    = (Value tt,
       mkState (fold_left dropOne requestVec (promises s)) (events s) (calls s)
               (native s) (queue s) (nextUnique s)).
Proof.
  induction requestVec as [|request rest IH]; intros s; [now destruct s|].
  cbn [forEach fold_left]. unfold bind at 1.
  assert (Hhead :
    (if decide (getType request = BlobImport) then dropBlobImportRequest request
     else if decide (getType request = TreeImport) then dropTreeImportRequest request
     else ret tt) s
    = (Value tt,
       mkState (dropOne (promises s) request) (events s) (calls s)
               (native s) (queue s) (nextUnique s))).
  { unfold dropOne, dropBlobImportRequest, dropTreeImportRequest, dropImportRequest,
      getPromise, bind, isFulfilled, isFulfilledIn, setTry, ret.
    destruct s as [p ev cs a q n]. cbn.
    destruct (getType request) eqn:K; repeat case_decide; try congruence;
      cbn [promises events calls native queue nextUnique];
      destruct (p !! getUnique request) eqn:E;
      cbn [promises events calls native queue nextUnique]; rewrite ?E; reflexivity. }
  rewrite Hhead, IH. reflexivity.
Qed.

Lemma dropOne_keeps (requestVec : list SaplingImportRequest) :
  forall (p : gmap nat (Try Response)) (u : nat) (x : Try Response),
    p !! u = Some x -> fold_left dropOne requestVec p !! u = Some x.
Proof.
  induction requestVec as [|request rest IH]; intros p u x Hp; [exact Hp|].
  cbn [fold_left]. apply IH. unfold dropOne.
  destruct (getType request); try exact Hp;
    (destruct (p !! getUnique request) eqn:Hq; [exact Hp|];
     rewrite lookup_insert_ne; [exact Hp | congruence]).
Qed.

Lemma dropOne_drops (requestVec : list SaplingImportRequest) :
  forall (p : gmap nat (Try Response)) (request : SaplingImportRequest),
    request ∈ requestVec ->
    getType request = BlobImport \/ getType request = TreeImport ->
    p !! getUnique request = None ->
    fold_left dropOne requestVec p !! getUnique request = Some forciblyDropped.
Proof.
  induction requestVec as [|r rest IH]; intros p request Hin Hkind Hp.
  - now apply elem_of_nil in Hin.
  - cbn [fold_left]. apply elem_of_cons in Hin as [<-|Hin].
    + apply dropOne_keeps. unfold dropOne. rewrite Hp.
      destruct Hkind as [-> | ->]; apply lookup_insert_eq.
    + destruct (dropOne p r !! getUnique request) as [x|] eqn:Hq.
      * rewrite (dropOne_keeps rest _ _ _ Hq). f_equal.
        unfold dropOne in Hq.
        destruct (getType r); try congruence;
          (destruct (p !! getUnique r); [congruence|];
           destruct (decide (getUnique r = getUnique request)) as [E|E];
           [rewrite E, lookup_insert_eq in Hq; congruence
           |rewrite lookup_insert_ne in Hq; congruence]).
      * now apply IH.
Qed.

Lemma dropOne_skips (requestVec : list SaplingImportRequest) :
  forall (p : gmap nat (Try Response)) (u : nat),
    (forall request, request ∈ requestVec -> getUnique request = u ->
       getType request = BlobAuxImport \/ getType request = TreeAuxImport) ->
    fold_left dropOne requestVec p !! u = p !! u.
Proof.
  induction requestVec as [|r rest IH]; intros p u Haux; [reflexivity|].
  cbn [fold_left]. rewrite IH.
  - unfold dropOne. destruct (getType r) eqn:Hkind; try reflexivity;
      (destruct (p !! getUnique r); [reflexivity|];
       rewrite lookup_insert_ne; [reflexivity|];
       intros E; destruct (Haux r (list_elem_of_here _ _) E); congruence).
  - intros request Hin. apply Haux. now apply list_elem_of_further.
Qed.

(** What [dropAllPendingRequestsFromQueue] does: it returns the number of
    requests that were pending and empties the queue; a pending blob or
    tree request is failed with "Request forcibly dropped"; the promise of
    a blob-aux or tree-aux request is left as it was. *)
Lemma dropAllPendingRequestsFromQueue_run (s : State A) :
  exists s',
    dropAllPendingRequestsFromQueue s = (Value (length (queue s)), s') /\
    queue s' = [] /\
    (forall request, request ∈ queue s ->
       getType request = BlobImport \/ getType request = TreeImport ->
       promises s !! getUnique request = None ->
       promises s' !! getUnique request = Some forciblyDropped) /\
    (forall u,
       (forall request, request ∈ queue s -> getUnique request = u ->
          getType request = BlobAuxImport \/ getType request = TreeAuxImport) ->
       promises s' !! u = promises s !! u).
Proof.
  unfold dropAllPendingRequestsFromQueue, combineAndClearRequestQueues.
  unfold bind at 1. unfold bind at 1. rewrite dropLoop_run. cbn.
  eexists. split; [reflexivity|]. cbn. split; [reflexivity|]. split.
  - intros request Hin Hkind Hp. now apply dropOne_drops.
  - intros u Haux. now apply dropOne_skips.
Qed.

End Drop.

(** C7, the failing input: a queue that holds one pending blob-aux request.
    The operation counts the request as dropped and leaves its promise
    unfulfilled; the blob request next to it is failed as the claim says. *)
Lemma drop_leaves_aux_request_pending :
  let s := mkState ∅ [] [] tt
             [sampleRequest 1 BlobImport "n1" 0; sampleRequest 2 BlobAuxImport "n2" 0] 3 in
  let out := dropAllPendingRequestsFromQueue s in
  fst out = Value 2 /\
  promises (snd out) !! 1 = Some forciblyDropped /\
  promises (snd out) !! 2 = None.
Proof. vm_compute. repeat split. Qed.

(** ** [getBlobAuxData] with aux-data fetching switched off *)

(** C10. With [fetchHgAuxMetadata] off, a blob-aux request whose local
    lookup misses is answered at once with a null aux datum and origin
    [NotFetched]: nothing is put on the queue, no promise and no record
    changes, and the one call made to the adapter is the local-only
    lookup. *)
Theorem getBlobAuxData_not_fetched {A : Type} (store_ : NativeStore A) (config_ : Config)
    (load : ObjectId -> Try HgProxyHash) (id : ObjectId) (contextCause : nat)
    (s : State A) (proxy : HgProxyHash) (a' : A) (e : exn) :
  fetchHgAuxMetadata config_ = false ->
  load id = Value proxy ->
  store_getBlobAuxData store_ (native s) (byteHash proxy) true = (a', Exception e) ->
  getBlobAuxData store_ config_ load id contextCause s
  = (Value (ReadyAux None NotFetched),
     mkState (promises s) (events s)
             (calls s ++ [CallGetBlobAuxData (byteHash proxy) true])
             a' (queue s) (nextUnique s)).
Proof.
  intros Hoff Hload Hmiss.
  unfold getBlobAuxData, getLocalBlobAuxData, getBlobAuxDataEnqueue.
  rewrite Hload, Hoff. unfold bind, callAdapter, ret. rewrite Hmiss. reflexivity.
Qed.

(** C10, witness: the sample adapter holds no aux data. *)
Lemma getBlobAuxData_not_fetched_witness :
  getBlobAuxData sampleStore (mkConfig false false true) (loadEmbedded specCodec)
    "aaaaaaaaaaaaaaaaaaaa" 0 (initialState (mkSample [] [] [] 0 []))
  = (Value (ReadyAux None NotFetched),
     mkState ∅ [] [CallGetBlobAuxData "aaaaaaaaaaaaaaaaaaaa" true]
             (mkSample [] [] [] 0 []) [] 0).
Proof.
  exact (getBlobAuxData_not_fetched sampleStore (mkConfig false false true)
           (loadEmbedded specCodec) "aaaaaaaaaaaaaaaaaaaa" 0
           (initialState (mkSample [] [] [] 0 []))
           (mkProxyHash "aaaaaaaaaaaaaaaaaaaa" "") (mkSample [] [] [] 0 [])
           (fetch_error "not found") eq_refl eq_refl eq_refl).
Defined.

(** With the flag on, the same request goes on the queue. *)
Example getBlobAuxData_enqueues :
  let out :=
    getBlobAuxData sampleStore (mkConfig false true true) (loadEmbedded specCodec)
      "aaaaaaaaaaaaaaaaaaaa" 0 (initialState (mkSample [] [] [] 0 [])) in
  fst out = Value (QueuedAux 0) /\ length (queue (snd out)) = 1.
Proof. vm_compute. split; reflexivity. Qed.

(** ** [prepareRequests]: grouping by node id *)

Lemma groupRequests_snoc (l : list SaplingImportRequest) (r : SaplingImportRequest) :
  groupRequests (l ++ [r]) = mapAdd (nodeOf r) r (groupRequests l).
Proof. unfold groupRequests. now rewrite fold_left_app. Qed.

Lemma mapFind_mapAdd (m : ImportRequestsMap) (n n' : string) (r : SaplingImportRequest) :
  mapFind n (mapAdd n' r m)
  = if decide (n' = n) then Some (default [] (mapFind n m) ++ [r]) else mapFind n m.
Proof.
  induction m as [|[k l] rest IH]; cbn.
  - destruct (decide (n' = n)); reflexivity.
  - destruct (decide (k = n')) as [->|Hk]; cbn.
    + destruct (decide (n' = n)); reflexivity.
    + destruct (decide (k = n)) as [->|Hkn].
      * now rewrite decide_False by congruence.
      * exact IH.
Qed.

Lemma keys_mapAdd (m : ImportRequestsMap) (n : string) (r : SaplingImportRequest) :
  (m.*1) = ((mapAdd n r m).*1) \/ ((n ∉ (m.*1)) /\ ((mapAdd n r m).*1) = (m.*1) ++ [n]).
Proof.
  induction m as [|[k l] rest IH]; cbn.
  - right. split; [apply not_elem_of_nil | reflexivity].
  - destruct (decide (k = n)) as [->|Hk]; cbn; [now left|].
    destruct IH as [IH|[Hnot IH]].
    + left. now rewrite <- IH.
    + right. split; [|now rewrite IH].
      rewrite not_elem_of_cons. split; [congruence | exact Hnot].
Qed.

Lemma mapFind_groupRequests (l : list SaplingImportRequest) (n : string) :
  mapFind n (groupRequests l)
  = match sameNode n l with [] => None | rs => Some rs end.
Proof.
  induction l as [|r l IH] using rev_ind; [reflexivity|].
  rewrite groupRequests_snoc, mapFind_mapAdd, IH. unfold sameNode.
  rewrite filter_app. destruct (decide (nodeOf r = n)) as [Hn|Hn].
  - rewrite (filter_cons_True _ r []) by exact Hn. rewrite filter_nil.
    destruct (filter _ l); reflexivity.
  - rewrite (filter_cons_False _ r []) by exact Hn. rewrite filter_nil, app_nil_r.
    reflexivity.
Qed.

Lemma mapAt_groupRequests (l : list SaplingImportRequest) (n : string) :
  mapAt (groupRequests l) n = sameNode n l.
Proof.
  unfold mapAt. rewrite mapFind_groupRequests. now destruct (sameNode n l).
Qed.

Lemma keys_groupRequests_NoDup (l : list SaplingImportRequest) :
  NoDup ((groupRequests l).*1).
Proof.
  induction l as [|r l IH] using rev_ind; [constructor|].
  rewrite groupRequests_snoc.
  destruct (keys_mapAdd (groupRequests l) (nodeOf r) r) as [<-|[Hnot ->]]; [exact IH|].
  apply NoDup_app. repeat split; [exact IH | | apply NoDup_singleton].
  intros x Hx. rewrite list_elem_of_singleton. now intros ->.
Qed.

Lemma mapFind_elem_of (m : ImportRequestsMap) (n : string) (rs : list SaplingImportRequest) :
  NoDup (m.*1) -> (n, rs) ∈ m -> mapFind n m = Some rs.
Proof.
  induction m as [|[k l] rest IH]; intros Hnd Hin; [now apply elem_of_nil in Hin|].
  cbn in Hnd. apply NoDup_cons in Hnd as [Hk Hnd]. cbn.
  apply elem_of_cons in Hin as [[= -> ->]|Hin].
  - now rewrite decide_True.
  - rewrite decide_False; [now apply IH|].
    intros ->. apply Hk. apply list_elem_of_fmap. now exists (n, rs).
Qed.

Lemma entry_groupRequests (l : list SaplingImportRequest) (n : string)
    (rs : list SaplingImportRequest) :
  (n, rs) ∈ groupRequests l -> rs = sameNode n l.
Proof.
  intros Hin.
  pose proof (mapFind_elem_of _ _ _ (keys_groupRequests_NoDup l) Hin) as Hfind.
  rewrite mapFind_groupRequests in Hfind.
  destruct (sameNode n l); congruence.
Qed.

Lemma mapFind_Some_elem_of (m : ImportRequestsMap) (n : string)
    (rs : list SaplingImportRequest) :
  mapFind n m = Some rs -> (n, rs) ∈ m.
Proof.
  induction m as [|[k l] rest IH]; cbn; [discriminate|].
  destruct (decide (k = n)) as [->|Hk].
  - intros [= ->]. apply list_elem_of_here.
  - intros H. apply list_elem_of_further. now apply IH.
Qed.

(** ** [prepareRequests]: one request per node id and cause *)

Lemma dedupCauses_elem_of (n : string) (rs : list SaplingImportRequest) :
  forall (seen : CauseSet) (req : SaplingRequest),
    req ∈ dedupCauses n rs seen <->
    node req = n /\ (cause req ∉ seen) /\
    exists r, r ∈ rs /\ getCause r = cause req.
Proof.
  induction rs as [|r rest IH]; intros seen req; cbn [dedupCauses].
  - split; [intros H; now apply elem_of_nil in H|].
    intros (_ & _ & r & Hr & _). now apply elem_of_nil in Hr.
  - destruct (decide (getCause r ∈ seen)) as [Hseen|Hseen].
    + rewrite IH. split.
      * intros (Hn & Hc & r' & Hr' & Hcause).
        repeat split; [exact Hn | exact Hc |].
        exists r'. split; [now apply list_elem_of_further | exact Hcause].
      * intros (Hn & Hc & r' & Hr' & Hcause).
        repeat split; [exact Hn | exact Hc |].
        apply elem_of_cons in Hr' as [->|Hr']; [congruence|].
        now exists r'.
    + rewrite elem_of_cons, IH. split.
      * intros [->|(Hn & Hc & r' & Hr' & Hcause)]; cbn.
        -- repeat split; [exact Hseen|]. exists r. split; [apply list_elem_of_here | reflexivity].
        -- repeat split; [exact Hn | |].
           ++ intros Hs. apply Hc. apply elem_of_union. now right.
           ++ exists r'. split; [now apply list_elem_of_further | exact Hcause].
      * intros (Hn & Hc & r' & Hr' & Hcause).
        destruct (decide (cause req = getCause r)) as [E|E].
        -- left. destruct req as [n0 c0]. cbn in Hn, E. now rewrite Hn, E.
        -- right. repeat split; [exact Hn | |].
           ++ rewrite elem_of_union, elem_of_singleton. intros [Hs|Hs]; [congruence | now apply Hc].
           ++ apply elem_of_cons in Hr' as [->|Hr']; [congruence|].
              now exists r'.
Qed.

Lemma dedupCauses_NoDup (n : string) (rs : list SaplingImportRequest) :
  forall seen : CauseSet, NoDup (dedupCauses n rs seen).
Proof.
  induction rs as [|r rest IH]; intros seen; cbn [dedupCauses]; [constructor|].
  destruct (decide (getCause r ∈ seen)); [apply IH|].
  apply NoDup_cons. split; [|apply IH].
  rewrite dedupCauses_elem_of. cbn. intros (_ & Hc & _).
  apply Hc. apply elem_of_union. left. now apply elem_of_singleton.
Qed.

Lemma prepared_elem_of (m : ImportRequestsMap) (req : SaplingRequest) :
  req ∈ flat_map (fun entry => dedupCauses (fst entry) (snd entry) ∅) m <->
  exists rs, (node req, rs) ∈ m /\ exists r, r ∈ rs /\ getCause r = cause req.
Proof.
  rewrite list_elem_of_In, in_flat_map. split.
  - intros ([n rs] & Hin & Hreq). apply list_elem_of_In in Hin, Hreq.
    cbn [fst snd] in Hreq.
    apply dedupCauses_elem_of in Hreq as (Hn & _ & Hr). subst n. now exists rs.
  - intros (rs & Hin & Hr). exists (node req, rs).
    rewrite <- !list_elem_of_In. split; [exact Hin|].
    apply dedupCauses_elem_of. cbn. repeat split; [apply not_elem_of_empty | exact Hr].
Qed.

Lemma prepared_NoDup (m : ImportRequestsMap) :
  NoDup (m.*1) ->
  NoDup (flat_map (fun entry => dedupCauses (fst entry) (snd entry) ∅) m).
Proof.
  induction m as [|[n rs] rest IH]; intros Hnd; [constructor|].
  cbn in Hnd. apply NoDup_cons in Hnd as [Hn Hnd]. cbn [flat_map fst snd].
  apply NoDup_app. repeat split; [apply dedupCauses_NoDup | | now apply IH].
  intros req Hreq Hrest.
  apply dedupCauses_elem_of in Hreq as (Hnode & _).
  apply prepared_elem_of in Hrest as (rs' & Hin & _).
  apply Hn. apply list_elem_of_fmap. exists (node req, rs'). now split.
Qed.

Lemma prepareRequests_elem_of (importRequests : list SaplingImportRequest)
    (req : SaplingRequest) :
  req ∈ snd (prepareRequests importRequests) <->
  exists r, r ∈ importRequests /\ nodeOf r = node req /\ getCause r = cause req.
Proof.
  unfold prepareRequests. cbn [snd]. rewrite prepared_elem_of. split.
  - intros (rs & Hin & r & Hr & Hcause).
    apply entry_groupRequests in Hin as ->.
    apply list_elem_of_filter in Hr as [Hnode Hr]. now exists r.
  - intros (r & Hr & Hnode & Hcause). exists (sameNode (node req) importRequests).
    assert (Hmem : r ∈ sameNode (node req) importRequests)
      by now apply list_elem_of_filter.
    split; [|now exists r].
    apply mapFind_Some_elem_of. rewrite mapFind_groupRequests.
    destruct (sameNode (node req) importRequests); [now apply elem_of_nil in Hmem | reflexivity].
Qed.

(** ** Fulfilling the promises of a node id *)

Lemma setTry_value {A} (u : nat) (result : Try Response) (s s' : State A) :
  setTry u result s = (Value tt, s') ->
  promises s !! u = None /\
  s' = mkState (<[u := result]> (promises s)) (events s) (calls s) (native s)
               (queue s) (nextUnique s).
Proof.
  unfold setTry. destruct (promises s !! u); [discriminate|].
  intros [= <-]. now split.
Qed.

Lemma setTry_pending {A} (u : nat) (result : Try Response) (s : State A) :
  promises s !! u = None ->
  setTry u result s
  = (Value tt, mkState (<[u := result]> (promises s)) (events s) (calls s) (native s)
                       (queue s) (nextUnique s)).
Proof. unfold setTry. now intros ->. Qed.

Lemma setAll_value {A} (rs : list SaplingImportRequest) (result : Try Response) :
  forall s s' : State A,
    forEach rs (fun r => setTry (getUnique r) result) s = (Value tt, s') ->
    events s' = events s /\ calls s' = calls s /\ native s' = native s /\
    queue s' = queue s /\
    forall u, promises s' !! u
              = if decide (u ∈ getUnique <$> rs) then Some result else promises s !! u.
Proof.
  induction rs as [|r rest IH]; intros s s' Hrun; cbn in Hrun.
  - injection Hrun as <-. repeat split.
  - apply bind_value in Hrun as ([] & s1 & Hset & Hrest).
    apply setTry_value in Hset as [Hpending ->].
    destruct (IH _ _ Hrest) as (He & Hc & Hn & Hq & Hp). cbn in He, Hc, Hn, Hq, Hp.
    repeat split; try assumption. intros u. rewrite Hp. cbn [fmap list_fmap].
    destruct (decide (u ∈ getUnique <$> rest)) as [Hin|Hin].
    + rewrite decide_True; [reflexivity | now apply list_elem_of_further].
    + destruct (decide (getUnique r = u)) as [<-|Hne].
      * rewrite lookup_insert_eq, decide_True; [reflexivity | apply list_elem_of_here].
      * rewrite lookup_insert_ne by exact Hne.
        rewrite decide_False; [reflexivity|].
        rewrite not_elem_of_cons. split; [congruence | exact Hin].
Qed.

Lemma setAll_pending {A} (rs : list SaplingImportRequest) (result : Try Response) :
  forall s : State A,
    NoDup (getUnique <$> rs) ->
    (forall r, r ∈ rs -> promises s !! getUnique r = None) ->
    exists s', forEach rs (fun r => setTry (getUnique r) result) s = (Value tt, s').
Proof.
  induction rs as [|r rest IH]; intros s Hnd Hpending; cbn.
  - now exists s.
  - cbn in Hnd. apply NoDup_cons in Hnd as [Hr Hnd].
    rewrite (bind_run _ _ _ _ _ (setTry_pending _ _ _ (Hpending r (list_elem_of_here _ _)))).
    apply IH; [exact Hnd|]. intros r' Hr'. cbn.
    rewrite lookup_insert_ne.
    + apply Hpending. now apply list_elem_of_further.
    + intros E. apply Hr. rewrite E. now apply list_elem_of_fmap_2.
Qed.

Lemma sameNode_uniques_NoDup (n : string) (l : list SaplingImportRequest) :
  NoDup (getUnique <$> l) -> NoDup (getUnique <$> sameNode n l).
Proof.
  unfold sameNode. induction l as [|r l IH]; intros Hnd; [constructor|].
  cbn in Hnd. apply NoDup_cons in Hnd as [Hr Hnd].
  destruct (decide (nodeOf r = n)) as [Hn|Hn].
  - rewrite filter_cons_True by exact Hn. cbn. apply NoDup_cons. split; [|now apply IH].
    intros Hin. apply Hr. apply list_elem_of_fmap in Hin as (r' & -> & Hr').
    apply list_elem_of_filter in Hr' as [_ Hr']. now apply list_elem_of_fmap_2.
  - rewrite filter_cons_False by exact Hn. now apply IH.
Qed.

Lemma unique_determines (l : list SaplingImportRequest) (r r' : SaplingImportRequest) :
  NoDup (getUnique <$> l) -> r ∈ l -> r' ∈ l -> getUnique r = getUnique r' -> r = r'.
Proof.
  induction l as [|x l IH]; intros Hnd Hr Hr' Heq; [now apply elem_of_nil in Hr|].
  cbn in Hnd. apply NoDup_cons in Hnd as [Hx Hnd].
  apply elem_of_cons in Hr as [->|Hr]; apply elem_of_cons in Hr' as [->|Hr'].
  - reflexivity.
  - exfalso. apply Hx. rewrite Heq. now apply list_elem_of_fmap_2.
  - exfalso. apply Hx. rewrite <- Heq. now apply list_elem_of_fmap_2.
  - now apply IH.
Qed.

(** C2 (as amended). The batch handed to the adapter holds at most one
    request per pair of node id and cause, and exactly the pairs of the
    import requests: requests are grouped by the byte hash of the proxy
    hash, and two requests of one node id and different causes each send
    their own. When the fetch of a node id completes, every pending sink of
    the batch with that node id is resolved with the one shared result. *)
Theorem prepareRequests_dedup (importRequests : list SaplingImportRequest) :
  NoDup (snd (prepareRequests importRequests)) /\
  (forall req : SaplingRequest,
     req ∈ snd (prepareRequests importRequests) <->
     exists r, r ∈ importRequests /\ nodeOf r = node req /\ getCause r = cause req) /\
  (forall (A : Type) (s : State A) (index : nat) (bytes : string) (req : SaplingRequest),
     NoDup (getUnique <$> importRequests) ->
     snd (prepareRequests importRequests) !! index = Some req ->
     (forall r, r ∈ importRequests -> nodeOf r = node req ->
                promises s !! getUnique r = None) ->
     exists s',
       blobResolve (fst (prepareRequests importRequests))
         (snd (prepareRequests importRequests)) index (Value bytes) s = (Value tt, s') /\
       forall r, r ∈ importRequests -> nodeOf r = node req ->
                 promises s' !! getUnique r = Some (Value (BlobPtr bytes))).
Proof.
  split; [|split].
  - apply prepared_NoDup, keys_groupRequests_NoDup.
  - apply prepareRequests_elem_of.
  - intros A s index bytes req Hnd Hindex Hpending.
    unfold blobResolve. rewrite Hindex. cbn [prepareRequests fst].
    rewrite mapAt_groupRequests.
    destruct (setAll_pending (sameNode (node req) importRequests)
                (Value (BlobPtr bytes)) s) as [s' Hrun].
    + now apply sameNode_uniques_NoDup.
    + intros r Hr. apply list_elem_of_filter in Hr as [Hn Hr]. now apply Hpending.
    + exists s'. split; [exact Hrun|]. intros r Hr Hn.
      destruct (setAll_value _ _ _ _ Hrun) as (_ & _ & _ & _ & Hp).
      rewrite Hp, decide_True; [reflexivity|].
      apply list_elem_of_fmap_2. now apply list_elem_of_filter.
Qed.

(** C2, counterexample: two requests of one node id and two causes make
    two requests to the adapter for that node id. *)
Lemma prepareRequests_two_causes :
  ~ NoDup (node <$> snd (prepareRequests
             [sampleRequest 1 BlobImport "n1" 0; sampleRequest 2 BlobImport "n1" 1])).
Proof.
  vm_compute. intros Hnd. apply NoDup_cons in Hnd as [Hn _].
  apply Hn. apply list_elem_of_here.
Qed.

(** C2 at work: three requests of one node id, two of one cause. *)
Example prepareRequests_example :
  snd (prepareRequests
         [sampleRequest 1 BlobImport "n1" 0; sampleRequest 2 BlobImport "n1" 1;
          sampleRequest 3 BlobImport "n1" 0; sampleRequest 4 BlobImport "n2" 0])
  = [mkSaplingRequest "n1" 0; mkSaplingRequest "n1" 1; mkSaplingRequest "n2" 0].
Proof. reflexivity. Qed.

(** ** Effects of the pipeline code *)

Section Effects.
Context {A : Type}.
Implicit Types (s : State A) (Pe : Event -> Prop) (Pc : AdapterCall -> Prop).

Lemma effects_refl Pe Pc s : effects Pe Pc s s.
Proof.
  repeat split; try reflexivity.
  - exists []. now rewrite app_nil_r.
  - exists []. now rewrite app_nil_r.
Qed.

Lemma effects_trans Pe Pc s1 s2 s3 :
  effects Pe Pc s1 s2 -> effects Pe Pc s2 s3 -> effects Pe Pc s1 s3.
Proof.
  intros ((e1 & He1 & Hf1) & (c1 & Hc1 & Hg1) & Hq1 & Hp1)
         ((e2 & He2 & Hf2) & (c2 & Hc2 & Hg2) & Hq2 & Hp2).
  repeat split.
  - exists (e1 ++ e2). rewrite He2, He1, app_assoc. split; [reflexivity|].
    now apply Forall_app.
  - exists (c1 ++ c2). rewrite Hc2, Hc1, app_assoc. split; [reflexivity|].
    now apply Forall_app.
  - congruence.
  - now transitivity (promises s2).
Qed.

Lemma effects_weaken Pe Pc Pe' Pc' s s' :
  (forall e, Pe e -> Pe' e) -> (forall c, Pc c -> Pc' c) ->
  effects Pe Pc s s' -> effects Pe' Pc' s s'.
Proof.
  intros He Hc ((evs & Hevs & Hf) & (cs & Hcs & Hg) & Hq & Hp). repeat split.
  - exists evs. split; [exact Hevs|]. eapply Forall_impl; eauto.
  - exists cs. split; [exact Hcs|]. eapply Forall_impl; eauto.
  - exact Hq.
  - exact Hp.
Qed.

Lemma writes_weaken {B} (m : M A B) Pe Pc Pe' Pc' :
  (forall e, Pe e -> Pe' e) -> (forall c, Pc c -> Pc' c) ->
  writes m Pe Pc -> writes m Pe' Pc'.
Proof. intros He Hc Hm s. eapply effects_weaken; eauto. Qed.

Lemma writes_ret {B} (b : B) Pe Pc : writes (ret (A:=A) b) Pe Pc.
Proof. intros s. apply effects_refl. Qed.

Lemma writes_throw {B} (e : exn) Pe Pc : writes (throw (A:=A) (B:=B) e) Pe Pc.
Proof. intros s. apply effects_refl. Qed.

Lemma writes_bind {B C} (m : M A B) (k : B -> M A C) Pe Pc :
  writes m Pe Pc -> (forall b, writes (k b) Pe Pc) -> writes (bind m k) Pe Pc.
Proof.
  intros Hm Hk s. unfold bind. specialize (Hm s).
  destruct (m s) as [[b|e] s1]; cbn in Hm |- *; [|exact Hm].
  eapply effects_trans; [exact Hm | apply Hk].
Qed.

Lemma writes_forEach {B} (l : list B) (body : B -> M A unit) Pe Pc :
  (forall x, x ∈ l -> writes (body x) Pe Pc) -> writes (forEach l body) Pe Pc.
Proof.
  induction l as [|x rest IH]; intros Hbody; cbn [forEach]; [apply writes_ret|].
  apply writes_bind; [apply Hbody, list_elem_of_here|].
  intros _. apply IH. intros y Hy. apply Hbody. now apply list_elem_of_further.
Qed.

Lemma writes_record (e : Event) Pe Pc : Pe e -> writes (record (A:=A) e) Pe Pc.
Proof.
  intros He s. repeat split; cbn; try reflexivity.
  - exists [e]. split; [reflexivity | now constructor].
  - exists []. now rewrite app_nil_r.
Qed.

Lemma writes_callAdapter {B} (op : A -> A * B) (c : AdapterCall) Pe Pc :
  Pc c -> writes (callAdapter op c) Pe Pc.
Proof.
  intros Hc s. unfold callAdapter. destruct (op (native s)) as [a' b].
  repeat split; cbn; try reflexivity.
  - exists []. now rewrite app_nil_r.
  - exists [c]. split; [reflexivity | now constructor].
Qed.

Lemma writes_isFulfilled (u : nat) Pe Pc : writes (isFulfilled (A:=A) u) Pe Pc.
Proof. intros s. apply effects_refl. Qed.

Lemma writes_setTry (u : nat) (result : Try Response) Pe Pc :
  writes (setTry (A:=A) u result) Pe Pc.
Proof.
  intros s. unfold setTry. destruct (promises s !! u) eqn:Hu; cbn.
  - apply effects_refl.
  - repeat split; cbn; try reflexivity.
    + exists []. now rewrite app_nil_r.
    + exists []. now rewrite app_nil_r.
    + now apply insert_subseteq.
Qed.

Lemma effects_not_fulfilled Pe Pc s s' (u : nat) :
  effects Pe Pc s s' -> isFulfilledIn u s' = false -> isFulfilledIn u s = false.
Proof.
  intros (_ & _ & _ & Hsub) Hu. unfold isFulfilledIn in *.
  destruct (promises s !! u) as [x|] eqn:Hx; [|reflexivity].
  now rewrite (lookup_weaken _ _ _ _ Hx Hsub) in Hu.
Qed.

Lemma effects_fulfilled Pe Pc s s' (u : nat) (x : Try Response) :
  effects Pe Pc s s' -> promises s !! u = Some x -> promises s' !! u = Some x.
Proof. intros (_ & _ & _ & Hsub) Hx. exact (lookup_weaken _ _ _ _ Hx Hsub). Qed.

Lemma effects_event Pe Pc s s' (e : Event) :
  effects Pe Pc s s' -> e ∈ events s -> e ∈ events s'.
Proof.
  intros ((evs & -> & _) & _) He. apply elem_of_app. now left.
Qed.

End Effects.

(** Splits a conjunction into its parts, and nothing else. *)
Ltac conjuncts := repeat match goal with |- _ /\ _ => split end.

Section PipelineEffects.
Context {A : Type} (store_ : NativeStore A) (config_ : Config).

Lemma writes_traceStarts (kind : ImportKind) (requests : list SaplingImportRequest)
    (Pc : AdapterCall -> Prop) :
  writes (traceStarts (A:=A) kind requests) knownSource Pc.
Proof.
  unfold traceStarts. apply writes_forEach. intros r _. now apply writes_record.
Qed.

Lemma writes_setAll (rs : list SaplingImportRequest) (result : Try Response)
    (Pe : Event -> Prop) (Pc : AdapterCall -> Prop) :
  writes (A:=A) (forEach rs (fun r => setTry (getUnique r) result)) Pe Pc.
Proof. apply writes_forEach. intros r _. apply writes_setTry. Qed.

Lemma writes_auxBatch (kind : ImportKind) (requests : list SaplingImportRequest)
    (mode : FetchMode) :
  kind = BlobAuxImport \/ kind = TreeAuxImport ->
  writes (auxBatch store_ config_ kind requests mode) knownSource (batchCallOf kind).
Proof.
  intros [-> | ->]; cbn [auxBatch];
    unfold getBlobAuxDataBatch, getTreeAuxDataBatch;
    (apply writes_bind; [apply writes_callAdapter; now eexists _, _|]);
    intros answers; apply writes_forEach; intros [index auxTry] _; cbn [fst snd];
    unfold blobAuxResolve, treeAuxResolve;
    (destruct auxTry as [aux|e];
     [ destruct (_ !! index); [apply writes_setAll | apply writes_ret]
     | match goal with
       | |- writes (if ?b then _ else _) _ _ =>
           destruct b; [now apply writes_record | apply writes_ret]
       end ]).
Qed.

Lemma auxLocalLoop_run (kind : ImportKind) (requests : list SaplingImportRequest) :
  forall s : State A,
    exists s',
      auxLocalLoop kind requests s
      = (Value (filter (fun r => isFulfilledIn (getUnique r) s = false) requests), s') /\
      promises s' = promises s /\ calls s' = calls s /\ queue s' = queue s /\
      native s' = native s.
Proof.
  induction requests as [|r rest IH]; intros s; cbn [auxLocalLoop].
  - exists s. conjuncts; reflexivity.
  - unfold bind at 1. unfold isFulfilled at 1.
    destruct (isFulfilledIn (getUnique r) s) eqn:Hf.
    + rewrite filter_cons_False by (rewrite Hf; discriminate).
      unfold bind at 1. unfold record at 1. unfold bind at 1. unfold record at 1.
      match goal with |- context [auxLocalLoop kind rest ?s1] =>
        destruct (IH s1) as (s' & Hrun & Hp & Hc & Hq & Hn) end.
      exists s'. split.
      * rewrite Hrun. reflexivity.
      * conjuncts; assumption.
    + rewrite filter_cons_True by exact Hf.
      destruct (IH s) as (s' & Hrun & Hp & Hc & Hq & Hn).
      exists s'. unfold bind. rewrite Hrun. conjuncts; try assumption. reflexivity.
Qed.

Lemma auxFinalLoop_run (kind : ImportKind) (retryRequest : list SaplingImportRequest) :
  forall s : State A,
    exists s',
      auxFinalLoop config_ kind retryRequest s = (Value tt, s') /\
      calls s' = calls s /\ queue s' = queue s /\ promises s ⊆ promises s' /\
      forall r, r ∈ retryRequest -> isFulfilledIn (getUnique r) s = false ->
                promises s' !! getUnique r = Some (Value (auxNull kind)).
Proof.
  induction retryRequest as [|r rest IH]; intros s; cbn [auxFinalLoop].
  - exists s. conjuncts; try reflexivity. intros r Hr. now apply elem_of_nil in Hr.
  - unfold bind at 1. unfold isFulfilled at 1.
    destruct (isFulfilledIn (getUnique r) s) eqn:Hf.
    + assert (Hhead : exists s1,
        (if negb (allowRemoteGetBatch config_)
         then record (SetFetchedSource (getUnique r) Source_Remote kind) else ret tt) s
        = (Value tt, s1) /\ promises s1 = promises s /\ calls s1 = calls s /\
        queue s1 = queue s).
      { destruct (negb (allowRemoteGetBatch config_)); eexists; conjuncts; reflexivity. }
      destruct Hhead as (s1 & Hrun1 & Hp1 & Hc1 & Hq1).
      rewrite (bind_run _ _ _ _ _ Hrun1).
      unfold bind at 1. unfold record at 1.
      match goal with |- context [auxFinalLoop config_ kind rest ?s2] =>
        destruct (IH s2) as (s' & Hrun & Hc & Hq & Hsub & Hnull) end.
      cbn [promises events calls native queue nextUnique] in Hc, Hq, Hsub, Hnull.
      exists s'. conjuncts.
      * exact Hrun.
      * congruence.
      * congruence.
      * now rewrite <- Hp1.
      * intros r' Hr' Hf'. apply elem_of_cons in Hr' as [->|Hr']; [congruence|].
        apply Hnull; [exact Hr'|]. unfold isFulfilledIn in *.
        cbn [promises]. now rewrite Hp1.
    + unfold bind at 1. unfold record at 1. unfold bind at 1.
      unfold isFulfilledIn in Hf.
      destruct (promises s !! getUnique r) eqn:Hpending; [discriminate|].
      rewrite setTry_pending by exact Hpending.
      cbn [promises events calls native queue nextUnique].
      match goal with |- context [auxFinalLoop config_ kind rest ?s2] =>
        destruct (IH s2) as (s' & Hrun & Hc & Hq & Hsub & Hnull) end.
      cbn [promises events calls native queue nextUnique] in Hc, Hq, Hsub, Hnull.
      exists s'. conjuncts; try assumption.
      * etransitivity; [|exact Hsub]. now apply insert_subseteq.
      * intros r' Hr' Hf'.
        destruct (decide (getUnique r' = getUnique r)) as [E|E].
        -- rewrite E. apply (lookup_weaken _ _ _ _ (lookup_insert_eq _ _ _) Hsub).
        -- apply elem_of_cons in Hr' as [->|Hr']; [congruence|].
           apply Hnull; [exact Hr'|]. unfold isFulfilledIn in *.
           cbn [promises]. now rewrite lookup_insert_ne by congruence.
Qed.

End PipelineEffects.

(** ** Aux data: a request that no stage fulfilled gets the null pointer *)

Section AuxPipeline.
Context {A : Type} (store_ : NativeStore A) (config_ : Config).

Lemma writes_auxLocalLoop (kind : ImportKind) (requests : list SaplingImportRequest)
    (Pc : AdapterCall -> Prop) :
  writes (auxLocalLoop (A:=A) kind requests) knownSource Pc.
Proof.
  induction requests as [|r rest IH]; cbn [auxLocalLoop]; [apply writes_ret|].
  apply writes_bind; [apply writes_isFulfilled|]. intros [].
  - apply writes_bind; [now apply writes_record|]. intros _.
    apply writes_bind; [now apply writes_record|]. intros _. exact IH.
  - apply writes_bind; [exact IH|]. intros retry. apply writes_ret.
Qed.

Lemma writes_auxBatchStages (kind : ImportKind) (requests : list SaplingImportRequest) :
  kind = BlobAuxImport \/ kind = TreeAuxImport ->
  writes (auxBatchStages store_ config_ kind requests) knownSource (batchCallOf kind).
Proof.
  intros Hkind. unfold auxBatchStages. destruct (allowRemoteGetBatch config_).
  - apply writes_bind; [now apply writes_auxBatch|]. intros _. apply writes_ret.
  - apply writes_bind; [now apply writes_auxBatch|]. intros _.
    apply writes_bind; [apply writes_auxLocalLoop|]. intros retry.
    apply writes_bind; [now apply writes_auxBatch|]. intros _. apply writes_ret.
Qed.

Lemma auxBatchStages_retry (kind : ImportKind) (requests retry : list SaplingImportRequest)
    (s s2 : State A) :
  kind = BlobAuxImport \/ kind = TreeAuxImport ->
  auxBatchStages store_ config_ kind requests s = (Value retry, s2) ->
  forall r, r ∈ requests -> isFulfilledIn (getUnique r) s2 = false -> r ∈ retry.
Proof.
  intros Hkind Hrun r Hr Hpending. unfold auxBatchStages in Hrun.
  destruct (allowRemoteGetBatch config_).
  - apply bind_value in Hrun as ([] & s1 & _ & Hret). now injection Hret as <- _.
  - apply bind_value in Hrun as ([] & s1 & _ & Hrun).
    apply bind_value in Hrun as (retry' & s1' & Hloop & Hrun).
    apply bind_value in Hrun as ([] & s2' & Hremote & Hret).
    injection Hret as <- <-.
    destruct (auxLocalLoop_run kind requests s1) as (s1'' & Hloop' & Hp & _).
    rewrite Hloop' in Hloop. injection Hloop as <- <-.
    apply list_elem_of_filter. split; [|exact Hr].
    pose proof (writes_auxBatch store_ config_ kind
                  (filter (fun r => isFulfilledIn (getUnique r) s1 = false) requests)
                  RemoteOnly Hkind s1'') as Heff.
    rewrite Hremote in Heff. cbn [snd] in Heff.
    apply (effects_not_fulfilled _ _ _ _ _ Heff) in Hpending.
    unfold isFulfilledIn in *. now rewrite <- Hp.
Qed.

(** C8. In the blob-aux and the tree-aux pipeline, a request whose sink
    the batch stages have left unfulfilled is resolved with a null pointer,
    a value and no error. The pipeline returns, it makes no call to the
    adapter but its own batch calls, and it puts nothing on the queue: no
    fetch of the blob or the tree is started. *)
Theorem aux_unfulfilled_gets_null (kind : ImportKind)
    (requests retry : list SaplingImportRequest) (s0 s2 : State A) :
  kind = BlobAuxImport \/ kind = TreeAuxImport ->
  (traceStarts kind requests ;;; auxBatchStages store_ config_ kind requests) s0
  = (Value retry, s2) ->
  exists s',
    processAuxImportRequests store_ config_ kind requests s0 = (Value tt, s') /\
    (forall request, request ∈ requests ->
       isFulfilledIn (getUnique request) s2 = false ->
       promises s' !! getUnique request = Some (Value (auxNull kind))) /\
    queue s' = queue s0 /\
    exists cs, calls s' = calls s0 ++ cs /\ Forall (batchCallOf kind) cs.
Proof.
  intros Hkind Hstages.
  assert (Heff : effects knownSource (batchCallOf kind) s0 s2).
  { pose proof (writes_bind (traceStarts kind requests)
                  (fun _ => auxBatchStages store_ config_ kind requests)
                  knownSource (batchCallOf kind)
                  (writes_traceStarts kind requests _)
                  (fun _ => writes_auxBatchStages kind requests Hkind) s0) as H.
    now rewrite Hstages in H. }
  apply bind_value in Hstages as ([] & st & Htrace & Hstages).
  destruct (auxFinalLoop_run config_ kind retry s2) as (s' & Hfinal & Hc & Hq & _ & Hnull).
  exists s'. conjuncts.
  - unfold processAuxImportRequests.
    rewrite (bind_run _ _ _ _ _ Htrace), (bind_run _ _ _ _ _ Hstages). exact Hfinal.
  - intros request Hr Hpending. apply Hnull; [|exact Hpending].
    exact (auxBatchStages_retry kind requests retry st s2 Hkind Hstages request Hr Hpending).
  - destruct Heff as (_ & _ & Hq0 & _). congruence.
  - destruct Heff as (_ & (cs & Hcs & Hall) & _). exists cs. split; [congruence | exact Hall].
Qed.

End AuxPipeline.

(** C8, witness: the blob-aux pipeline on a request that the sample adapter
    cannot answer. *)
Lemma aux_unfulfilled_gets_null_witness :
  exists s',
    processBlobAuxImportRequests sampleStore (mkConfig false true true)
      [sampleRequest 1 BlobAuxImport "n1" 0] (initialState (mkSample [] [] [] 0 []))
    = (Value tt, s') /\
    (forall request, request ∈ [sampleRequest 1 BlobAuxImport "n1" 0] ->
       isFulfilledIn (getUnique request)
         (snd ((traceStarts BlobAuxImport [sampleRequest 1 BlobAuxImport "n1" 0] ;;;
                auxBatchStages sampleStore (mkConfig false true true) BlobAuxImport
                  [sampleRequest 1 BlobAuxImport "n1" 0])
                 (initialState (mkSample [] [] [] 0 [])))) = false ->
       promises s' !! getUnique request = Some (Value (auxNull BlobAuxImport))) /\
    queue s' = [] /\
    exists cs, calls s' = [] ++ cs /\ Forall (batchCallOf BlobAuxImport) cs.
Proof.
  exact (aux_unfulfilled_gets_null sampleStore (mkConfig false true true) BlobAuxImport
           [sampleRequest 1 BlobAuxImport "n1" 0] [sampleRequest 1 BlobAuxImport "n1" 0]
           (initialState (mkSample [] [] [] 0 [])) _ (or_introl eq_refl) eq_refl).
Defined.

(** C8 at work: with no aux data to be had, both pipelines end with the
    null pointer, after a [LocalOnly] and a [RemoteOnly] batch call. *)
Example aux_pipelines_example :
  let a := mkSample [] [] [] 0 [] in
  let blobAux := processBlobAuxImportRequests sampleStore (mkConfig false true true)
                   [sampleRequest 1 BlobAuxImport "n1" 0] (initialState a) in
  let treeAux := processTreeAuxImportRequests sampleStore (mkConfig false true true)
                   [sampleRequest 2 TreeAuxImport "n2" 0] (initialState a) in
  promises (snd blobAux) !! 1 = Some (Value (BlobAuxDataPtr None)) /\
  promises (snd treeAux) !! 2 = Some (Value (TreeAuxDataPtr None)) /\
  calls (snd blobAux)
  = [CallBatch BlobAuxImport LocalOnly [mkSaplingRequest "n1" 0];
     CallBatch BlobAuxImport RemoteOnly [mkSaplingRequest "n1" 0]].
Proof. vm_compute. repeat split. Qed.

(** ** The blob pipeline *)

Section BlobPipeline.
Context {A : Type} (store_ : NativeStore A) (config_ : Config).


Lemma sameNode_unique (requests : list SaplingImportRequest) (n : string)
    (r : SaplingImportRequest) :
  NoDup (getUnique <$> requests) -> r ∈ requests ->
  getUnique r ∈ getUnique <$> sameNode n requests <-> nodeOf r = n.
Proof.
  intros Hnd Hr. split.
  - intros Hin. apply list_elem_of_fmap in Hin as (r' & Heq & Hr').
    apply list_elem_of_filter in Hr' as [Hn Hr'].
    now rewrite (unique_determines requests r r' Hnd Hr Hr' Heq).
  - intros Hn. apply list_elem_of_fmap_2. now apply list_elem_of_filter.
Qed.





Lemma blobLocalLoop_run (requests : list SaplingImportRequest) :
  forall s : State A,
    exists s' evs,
      blobLocalLoop requests s
      = (Value (filter (fun r => isFulfilledIn (getUnique r) s = false) requests), s') /\
      promises s' = promises s /\ calls s' = calls s /\ queue s' = queue s /\
      events s' = events s ++ evs /\ Forall knownSource evs /\
      forall r, r ∈ requests -> isFulfilledIn (getUnique r) s = true ->
        BlobCounters (getUnique r) (getFetchType r) Source_Local Success ∈ evs.
Proof.
  induction requests as [|r rest IH]; intros s; cbn [blobLocalLoop].
  - exists s, []. conjuncts; try reflexivity.
    + now rewrite app_nil_r.
    + constructor.
    + intros r Hr. now apply elem_of_nil in Hr.
  - unfold bind at 1. unfold isFulfilled at 1.
    destruct (isFulfilledIn (getUnique r) s) eqn:Hf.
    + rewrite filter_cons_False by (rewrite Hf; discriminate).
      unfold bind at 1. unfold setBlobCounters, record at 1.
      match goal with |- context [blobLocalLoop rest ?s1] =>
        destruct (IH s1) as (s' & evs & Hrun & Hp & Hc & Hq & He & Hk & Hin) end.
      cbn [promises events calls native queue nextUnique] in Hp, Hc, Hq, He, Hin.
      exists s', (BlobCounters (getUnique r) (getFetchType r) Source_Local Success :: evs).
      conjuncts; try assumption.
      * rewrite He, <- app_assoc. reflexivity.
      * constructor; [discriminate | exact Hk].
      * intros r' Hr' Hf'. apply elem_of_cons in Hr' as [->|Hr'].
        -- apply list_elem_of_here.
        -- apply list_elem_of_further. now apply Hin.
    + rewrite filter_cons_True by exact Hf.
      destruct (IH s) as (s' & evs & Hrun & Hp & Hc & Hq & He & Hk & Hin).
      exists s', evs. unfold bind. rewrite Hrun. conjuncts; try assumption.
      * reflexivity.
      * intros r' Hr' Hf'. apply elem_of_cons in Hr' as [->|Hr']; [congruence|].
        now apply Hin.
Qed.

End BlobPipeline.

Section BlobRetry.
Context {A : Type} (store_ : NativeStore A) (config_ : Config).
Hypothesis Hallow : allowRemoteGetBatch config_ = false.

Ltac all_calls :=
  repeat (apply Forall_cons; split; [first [now left | right; now eexists]|]);
  apply Forall_nil_2.

Ltac all_known :=
  repeat (apply Forall_cons; split; [cbn; first [exact I | discriminate]|]);
  apply Forall_nil_2.

Lemma retryGetBlob_run (hgInfo : HgProxyHash) (context : nat) (fetch_type : FetchType)
    (s : State A) :
  exists res s' evs cs,
    retryGetBlob store_ config_ hgInfo context fetch_type s = (Value res, s') /\
    promises s' = promises s /\ queue s' = queue s /\
    events s' = events s ++ evs /\ calls s' = calls s ++ cs /\
    Forall knownSource evs /\
    Forall (fun c => c = CallFlush \/ exists mode, c = CallGetBlob (byteHash hgInfo) mode) cs /\
    forall b, res = Value b ->
      BlobCounters context fetch_type (retrySource store_ (native s) hgInfo) SuccessInRetry
      ∈ evs.
Proof.
  unfold retryGetBlob, retrySource, flush, getBlobFromBackingStore, callAdapter, bind, ret,
    setBlobCounters, record.
  rewrite Hallow. cbn [promises events calls native queue nextUnique].
  destruct (store_getBlob store_ (store_flush store_ (native s)) (byteHash hgInfo) LocalOnly)
    as [a1 [b1|e1]] eqn:E1; cbn [promises events calls native queue nextUnique hasValue
                                 negb andb fst snd].
  - exists (Value (BlobPtr b1)). eexists.
    exists [BlobCounters context fetch_type Source_Local SuccessInRetry],
           [CallFlush; CallGetBlob (byteHash hgInfo) LocalOnly].
    conjuncts; try reflexivity.
    + cbn. now rewrite <- app_assoc.
    + all_known.
    + all_calls.
    + intros b _. apply list_elem_of_here.
  - rewrite bool_decide_eq_true_2 by reflexivity.
    cbn [promises events calls native queue nextUnique].
    destruct (store_getBlob store_ a1 (byteHash hgInfo) RemoteOnly) as [a2 [b2|e2]] eqn:E2;
      cbn [promises events calls native queue nextUnique fst snd].
    + exists (Value (BlobPtr b2)). eexists.
      exists [BlobCounters context fetch_type Source_Remote SuccessInRetry],
             [CallFlush; CallGetBlob (byteHash hgInfo) LocalOnly;
              CallGetBlob (byteHash hgInfo) RemoteOnly].
      conjuncts; try reflexivity.
      * cbn. now rewrite <- !app_assoc.
      * all_known.
      * all_calls.
      * intros b _. apply list_elem_of_here.
    + exists (Exception e2).
      destruct (structuredLogger config_);
        cbn [promises events calls native queue nextUnique]; eexists;
        [ exists [FetchMiss BlobImport true;
                  BlobCounters context fetch_type Source_Remote Failure]
        | exists [BlobCounters context fetch_type Source_Remote Failure] ];
        exists [CallFlush; CallGetBlob (byteHash hgInfo) LocalOnly;
                CallGetBlob (byteHash hgInfo) RemoteOnly];
        (conjuncts;
         first [ reflexivity
               | cbn; now rewrite <- ?app_assoc
               | all_known
               | all_calls
               | intros b Hb; discriminate ]).
Qed.

Lemma blobRetryLoop_run (retryRequest : list SaplingImportRequest) :
  forall s : State A,
    exists futures s' evs cs,
      blobRetryLoop store_ config_ retryRequest s = (Value futures, s') /\
      promises s' = promises s /\ queue s' = queue s /\
      events s' = events s ++ evs /\ calls s' = calls s ++ cs /\
      Forall knownSource evs /\
      Forall (retryCallOf (filter (fun r => isFulfilledIn (getUnique r) s = false)
                             retryRequest)) cs /\
      (forall r, r ∈ retryRequest -> isFulfilledIn (getUnique r) s = true ->
         BlobCounters (getUnique r) (getFetchType r) Source_Remote Success ∈ evs) /\
      (forall r res, (r, res) ∈ futures ->
         r ∈ retryRequest /\ isFulfilledIn (getUnique r) s = false /\
         forall b, res = Value b ->
           BlobCounters (getUnique r) (getFetchType r) Source_Local SuccessInRetry ∈ evs \/
           BlobCounters (getUnique r) (getFetchType r) Source_Remote SuccessInRetry ∈ evs).
Proof.
  induction retryRequest as [|r rest IH]; intros s; cbn [blobRetryLoop].
  - exists [], s, [], []. conjuncts; try reflexivity; try apply Forall_nil_2.
    + now rewrite app_nil_r.
    + now rewrite app_nil_r.
    + intros r Hr. now apply elem_of_nil in Hr.
    + intros r res Hin. now apply elem_of_nil in Hin.
  - unfold bind at 1. unfold isFulfilled at 1.
    destruct (isFulfilledIn (getUnique r) s) eqn:Hf.
    + rewrite filter_cons_False by (rewrite Hf; discriminate). rewrite Hallow.
      unfold bind at 1. unfold setBlobCounters, record at 1.
      match goal with |- context [blobRetryLoop store_ config_ rest ?s1] =>
        destruct (IH s1)
          as (futures & s' & evs & cs & Hrun & Hp & Hq & He & Hc & Hk & Hcalls & Hrem & Hfut)
      end.
      cbn [promises events calls native queue nextUnique] in Hp, Hq, He, Hc.
      exists futures, s',
        (BlobCounters (getUnique r) (getFetchType r) Source_Remote Success :: evs), cs.
      conjuncts; try assumption.
      * rewrite He, <- app_assoc. reflexivity.
      * constructor; [discriminate | exact Hk].
      * intros r' Hr' Hf'. apply elem_of_cons in Hr' as [->|Hr'].
        -- apply list_elem_of_here.
        -- apply list_elem_of_further. now apply Hrem.
      * intros r' res Hin. destruct (Hfut r' res Hin) as (Hr' & Hf' & Hev).
        conjuncts; [now apply list_elem_of_further | exact Hf' |].
        intros b Hb. destruct (Hev b Hb) as [H|H];
          [left | right]; now apply list_elem_of_further.
    + rewrite filter_cons_True by exact Hf.
      destruct (retryGetBlob_run (proxyHash r) (getUnique r) (getFetchType r) s)
        as (res & s1 & evs1 & cs1 & Hretry & Hp1 & Hq1 & He1 & Hc1 & Hk1 & Hcalls1 & Hsrc).
      rewrite (bind_run _ _ _ _ _ Hretry).
      destruct (IH s1)
        as (futures & s' & evs & cs & Hrun & Hp & Hq & He & Hc & Hk & Hcalls & Hrem & Hfut).
      assert (Hsame : forall u, isFulfilledIn u s1 = isFulfilledIn u s)
        by (intros u; unfold isFulfilledIn; now rewrite Hp1).
      exists ((r, res) :: futures), s', (evs1 ++ evs), (cs1 ++ cs).
      rewrite (bind_run _ _ _ _ _ Hrun). conjuncts.
      * reflexivity.
      * congruence.
      * congruence.
      * rewrite He, He1, app_assoc. reflexivity.
      * rewrite Hc, Hc1, app_assoc. reflexivity.
      * now apply Forall_app.
      * apply Forall_app. split.
        -- eapply Forall_impl; [exact Hcalls1|]. intros c [->|[mode ->]]; [now left|].
           right. exists r, mode. split; [apply list_elem_of_here | reflexivity].
        -- eapply Forall_impl; [exact Hcalls|].
           intros c [->|(r' & mode & Hr' & ->)]; [now left|].
           right. exists r', mode. split; [|reflexivity].
           apply list_elem_of_further.
           apply list_elem_of_filter in Hr' as [Hf' Hr'].
           apply list_elem_of_filter. split; [|exact Hr']. now rewrite <- Hsame.
      * intros r' Hr' Hf'. apply elem_of_cons in Hr' as [->|Hr']; [congruence|].
        apply elem_of_app. right. apply Hrem; [exact Hr'|]. now rewrite Hsame.
      * intros r' res' Hin. apply elem_of_cons in Hin as [[= -> ->]|Hin].
        -- conjuncts; [apply list_elem_of_here | exact Hf |].
           intros b Hb. specialize (Hsrc b Hb). unfold retrySource in Hsrc.
           destruct (hasValue _); [left | right]; apply elem_of_app; now left.
        -- destruct (Hfut r' res' Hin) as (Hr' & Hf' & Hev).
           conjuncts; [now apply list_elem_of_further | now rewrite <- Hsame |].
           intros b Hb. destruct (Hev b Hb) as [H|H];
             [left | right]; apply elem_of_app; now right.
Qed.


End BlobRetry.

(** ** The counters of a blob batch *)



Section BlobRecords.
Context {A : Type} (store_ : NativeStore A) (config_ : Config).
Hypothesis Hallow : allowRemoteGetBatch config_ = false.







End BlobRecords.

Section BlobCascade.
Context {A : Type} (store_ : NativeStore A) (config_ : Config).

Lemma traceStarts_run (kind : ImportKind) (requests : list SaplingImportRequest) :
  forall s : State A,
    exists evs,
      traceStarts kind requests s
      = (Value tt, mkState (promises s) (events s ++ evs) (calls s) (native s)
                           (queue s) (nextUnique s)) /\
      Forall knownSource evs.
Proof.
  unfold traceStarts.
  induction requests as [|r rest IH]; intros s; cbn [forEach].
  - exists []. rewrite app_nil_r. split; [now destruct s | constructor].
  - unfold bind at 1. unfold record at 1.
    match goal with |- context [forEach rest _ ?s1] => destruct (IH s1) as (evs & Hrun & Hk) end.
    cbn [promises events calls native queue nextUnique] in Hrun.
    exists (TraceStart (getUnique r) kind :: evs). rewrite Hrun, <- app_assoc.
    split; [reflexivity | now constructor].
Qed.




End BlobCascade.



(** ** The blob pipeline returns *)

Section BlobReturns.
Context {A : Type} (store_ : NativeStore A) (config_ : Config).
Hypothesis Hallow : allowRemoteGetBatch config_ = false.

Lemma filter_uniques_NoDup (P : SaplingImportRequest -> Prop) `{!forall r, Decision (P r)}
    (l : list SaplingImportRequest) :
  NoDup (getUnique <$> l) -> NoDup (getUnique <$> filter P l).
Proof.
  induction l as [|r l IH]; intros Hnd; [constructor|].
  cbn in Hnd. apply NoDup_cons in Hnd as [Hr Hnd].
  destruct (decide (P r)) as [Hp|Hp].
  - rewrite filter_cons_True by exact Hp. cbn. apply NoDup_cons. split; [|now apply IH].
    intros Hin. apply Hr. apply list_elem_of_fmap in Hin as (r' & -> & Hr').
    apply list_elem_of_filter in Hr' as [_ Hr']. now apply list_elem_of_fmap_2.
  - rewrite filter_cons_False by exact Hp. now apply IH.
Qed.

Lemma prepared_nodes_NoDup (requests : list SaplingImportRequest) :
  oneCausePerNode requests -> NoDup (node <$> snd (prepareRequests requests)).
Proof.
  intros Hone. apply NoDup_fmap_2_strong.
  - intros [n c] [n' c'] Hx Hy Hn. cbn in Hn. subst n'.
    apply prepareRequests_elem_of in Hx as (r & Hr & Hrn & Hrc).
    apply prepareRequests_elem_of in Hy as (r' & Hr' & Hrn' & Hrc').
    cbn in Hrn, Hrc, Hrn', Hrc'. f_equal. rewrite <- Hrc, <- Hrc'.
    apply Hone; congruence.
  - apply prepared_NoDup, keys_groupRequests_NoDup.
Qed.

Lemma resolveAll_returns (requests : list SaplingImportRequest)
    (answers : list (nat * Try string)) :
  NoDup (getUnique <$> requests) ->
  NoDup (node <$> snd (prepareRequests requests)) ->
  forall s : State A,
    NoDup (answers.*1) ->
    (forall r i bytes req,
       r ∈ requests -> isFulfilledIn (getUnique r) s = true ->
       (i, Value bytes) ∈ answers -> snd (prepareRequests requests) !! i = Some req ->
       node req <> nodeOf r) ->
    exists s',
      forEach answers
        (fun answer => blobResolve (fst (prepareRequests requests))
                         (snd (prepareRequests requests)) (fst answer) (snd answer)) s
      = (Value tt, s').
Proof.
  intros Hnd Hnodes. induction answers as [|[i content] rest IH]; intros s Hidx Hfresh.
  - now exists s.
  - cbn [fmap list_fmap fst] in Hidx. apply NoDup_cons in Hidx as [Hi Hrest].
    cbn [forEach fst snd].
    assert (Hskip : forall r j bytes req,
              r ∈ requests -> isFulfilledIn (getUnique r) s = true ->
              (j, Value bytes) ∈ rest -> snd (prepareRequests requests) !! j = Some req ->
              node req <> nodeOf r).
    { intros r j bytes req Hr Hf Hin. apply (Hfresh r j bytes req Hr Hf).
      now apply list_elem_of_further. }
    unfold blobResolve at 1. destruct content as [bytes|e].
    2: { rewrite (bind_run _ _ s s tt eq_refl). now apply IH. }
    destruct (snd (prepareRequests requests) !! i) as [req|] eqn:Hreq.
    2: { rewrite (bind_run _ _ s s tt eq_refl). now apply IH. }
    cbn [prepareRequests fst]. rewrite mapAt_groupRequests.
    destruct (setAll_pending (sameNode (node req) requests) (Value (BlobPtr bytes)) s)
      as [s1 Hset].
    + now apply sameNode_uniques_NoDup.
    + intros r Hr. apply list_elem_of_filter in Hr as [Hn Hr].
      destruct (promises s !! getUnique r) eqn:Hp; [|reflexivity]. exfalso.
      apply (Hfresh r i bytes req Hr); [|apply list_elem_of_here|exact Hreq|now symmetry].
      unfold isFulfilledIn. now rewrite Hp.
    + rewrite (bind_run _ _ _ _ _ Hset). apply IH; [exact Hrest|].
      intros r j bytes' req' Hr Hf Hin Hreq' Hn.
      destruct (setAll_value _ _ _ _ Hset) as (_ & _ & _ & _ & Hp).
      unfold isFulfilledIn in Hf. rewrite Hp in Hf.
      destruct (decide (getUnique r ∈ getUnique <$> sameNode (node req) requests))
        as [Hgroup|Hgroup].
      * apply (sameNode_unique requests (node req) r Hnd Hr) in Hgroup.
        assert (i = j) as ->.
        { apply (NoDup_lookup _ i j (node req) Hnodes);
            rewrite list_lookup_fmap; [now rewrite Hreq | rewrite Hreq'; cbn; congruence]. }
        apply Hi. apply list_elem_of_fmap. now exists (j, Value bytes').
      * apply (Hskip r j bytes' req' Hr); [|exact Hin|exact Hreq'|exact Hn].
        unfold isFulfilledIn. exact Hf.
Qed.

Lemma getBlobBatch_returns (requests : list SaplingImportRequest) (mode : FetchMode)
    (s : State A) :
  NoDup (getUnique <$> requests) -> oneCausePerNode requests -> resolvesOnce store_ ->
  (forall r, r ∈ requests -> isFulfilledIn (getUnique r) s = false) ->
  exists s', getBlobBatch store_ requests mode s = (Value tt, s').
Proof.
  intros Hnd Hone Honce Hpending. unfold getBlobBatch.
  unfold bind at 1. unfold callAdapter at 1.
  pose proof (Honce (native s) (snd (prepareRequests requests)) mode) as Hidx.
  destruct (store_getBlobBatch store_ (native s) (snd (prepareRequests requests)) mode)
    as [a' answers]. cbn [snd] in Hidx.
  apply resolveAll_returns; [exact Hnd | now apply prepared_nodes_NoDup | exact Hidx |].
  intros r i bytes req Hr Hf. unfold isFulfilledIn in Hf. cbn [promises] in Hf.
  specialize (Hpending r Hr). unfold isFulfilledIn in Hpending. congruence.
Qed.

Lemma blobRetryLoop_futures (retryRequest : list SaplingImportRequest) :
  forall (s s' : State A) futures,
    blobRetryLoop store_ config_ retryRequest s = (Value futures, s') ->
    futures.*1 = filter (fun r => isFulfilledIn (getUnique r) s = false) retryRequest.
Proof.
  induction retryRequest as [|r rest IH]; intros s s' futures Hrun; cbn [blobRetryLoop] in Hrun.
  - now injection Hrun as <- _.
  - apply bind_value in Hrun as (fulfilled & s0 & Hful & Hrun).
    unfold isFulfilled in Hful. injection Hful as <- <-.
    destruct (isFulfilledIn (getUnique r) s) eqn:Hf.
    + rewrite filter_cons_False by (rewrite Hf; discriminate).
      apply bind_value in Hrun as ([] & s1 & Hrec & Hrun).
      unfold setBlobCounters, record in Hrec. injection Hrec as <-.
      now rewrite (IH _ _ _ Hrun).
    + rewrite filter_cons_True by exact Hf.
      destruct (retryGetBlob_run store_ config_ Hallow (proxyHash r) (getUnique r)
                  (getFetchType r) s)
        as (res & s1 & evs1 & cs1 & Hretry & Hp1 & _).
      rewrite (bind_run _ _ _ _ _ Hretry) in Hrun.
      apply bind_value in Hrun as (futures' & s2 & Hrest & Hret).
      injection Hret as <- _. cbn [fmap list_fmap fst]. f_equal.
      rewrite (IH _ _ _ Hrest). apply list_filter_iff. intros x.
      unfold isFulfilledIn. now rewrite Hp1.
Qed.

Lemma futures_returns (futures : list (SaplingImportRequest * Try Response)) :
  forall s : State A,
    NoDup (getUnique <$> futures.*1) ->
    (forall r, r ∈ futures.*1 -> promises s !! getUnique r = None) ->
    exists s',
      forEach futures (fun future => setTry (getUnique (fst future)) (snd future)) s
      = (Value tt, s').
Proof.
  induction futures as [|[r res] rest IH]; intros s Hnd Hpending; cbn.
  - now exists s.
  - cbn in Hnd. apply NoDup_cons in Hnd as [Hr Hnd].
    rewrite (bind_run _ _ _ _ _ (setTry_pending _ _ _ (Hpending r (list_elem_of_here _ _)))).
    apply IH; [exact Hnd|]. intros r' Hr'. cbn.
    rewrite lookup_insert_ne.
    + apply Hpending. now apply list_elem_of_further.
    + intros E. apply Hr. rewrite E. now apply list_elem_of_fmap_2.
Qed.

(** X1. The blob pipeline returns: for a batch of distinct requests in
    which the requests of one node id have one cause, processed from a state
    with nothing fulfilled over an adapter that resolves each index of a
    batch at most once, no promise is set twice and
    [processBlobImportRequests] ends without an exception. *)
Theorem processBlobImportRequests_returns (requests : list SaplingImportRequest) (a : A) :
  NoDup (getUnique <$> requests) -> oneCausePerNode requests -> resolvesOnce store_ ->
  exists s', processBlobImportRequests store_ config_ requests (initialState a) = (Value tt, s').
Proof.
  intros Hnd Hone Honce. unfold processBlobImportRequests.
  destruct (traceStarts_run BlobImport requests (initialState a)) as (evsT & HrunT & _).
  rewrite (bind_run _ _ _ _ _ HrunT).
  match goal with |- context [bind _ _ ?st0] => set (st := st0) end.
  unfold blobBatchStages. rewrite Hallow.
  destruct (getBlobBatch_returns requests LocalOnly st Hnd Hone Honce) as [s1 Hlocal].
  { intros r _. reflexivity. }
  destruct (blobLocalLoop_run requests s1) as (s1' & evsL & Hll & HpL & _).
  set (retry := filter (fun r => isFulfilledIn (getUnique r) s1 = false) requests) in *.
  destruct (getBlobBatch_returns retry RemoteOnly s1') as [s2 Hremote].
  { now apply filter_uniques_NoDup. }
  { intros r r' Hr Hr'. apply list_elem_of_filter in Hr as [_ Hr].
    apply list_elem_of_filter in Hr' as [_ Hr']. now apply Hone. }
  { exact Honce. }
  { intros r Hr. apply list_elem_of_filter in Hr as [Hf _].
    unfold isFulfilledIn in *. now rewrite HpL. }
  destruct (blobRetryLoop_run store_ config_ Hallow retry s2)
    as (futures & s3 & evs3 & cs3 & Hloop & Hp3 & _).
  pose proof (blobRetryLoop_futures retry s2 s3 futures Hloop) as Hfut.
  destruct (futures_returns futures s3) as [s' Hfinal].
  { rewrite Hfut. apply filter_uniques_NoDup. now apply filter_uniques_NoDup. }
  { intros r Hr. rewrite Hfut in Hr. apply list_elem_of_filter in Hr as [Hf _].
    unfold isFulfilledIn in Hf. rewrite Hp3. now destruct (promises s2 !! getUnique r). }
  exists s'.
  rewrite (bind_run _ _ st s2 retry).
  - rewrite (bind_run _ _ _ _ _ Hloop). exact Hfinal.
  - rewrite (bind_run _ _ _ _ _ Hlocal), (bind_run _ _ _ _ _ Hll),
      (bind_run _ _ _ _ _ Hremote). reflexivity.
Qed.

End BlobReturns.

Lemma sampleBatch_indexes {B} (get : string -> Try B) (requests : list SaplingRequest) :
  (sampleBatch get requests).*1 = seq 0 (length requests).
Proof.
  unfold sampleBatch.
  assert (H : forall k,
            (imap (fun index request => (k + index, get (node request))) requests).*1
            = seq k (length requests)).
  { induction requests as [|r rest IH]; intros k; [reflexivity|].
    cbn [imap fmap list_fmap fst length seq]. rewrite Nat.add_0_r. f_equal.
    rewrite <- (IH (S k)). f_equal. apply imap_ext. intros i x _. cbn.
    f_equal. lia. }
  exact (H 0).
Qed.

Lemma sampleStore_resolvesOnce : resolvesOnce sampleStore.
Proof.
  intros a requests mode. cbn [sampleStore store_getBlobBatch snd].
  rewrite sampleBatch_indexes. apply NoDup_seq.
Qed.

(** X1, witness: the blob pipeline returns on the batch of three blobs. *)
Lemma processBlobImportRequests_returns_witness :
  exists s',
    processBlobImportRequests sampleStore (mkConfig false true true)
      [sampleRequest 1 BlobImport "n1" 0; sampleRequest 2 BlobImport "n2" 0;
       sampleRequest 3 BlobImport "n3" 0]
      (initialState (mkSample [("n1", "one")] [("n3", "three")] [("n2", "two")] 0 []))
    = (Value tt, s').
Proof.
  apply (processBlobImportRequests_returns sampleStore (mkConfig false true true) eq_refl).
  - compute_done.
  - intros r r' Hr Hr' _.
    repeat (apply elem_of_cons in Hr as [->|Hr]); [| | |now apply elem_of_nil in Hr];
      repeat (apply elem_of_cons in Hr' as [->|Hr']);
      first [reflexivity | now apply elem_of_nil in Hr'].
  - exact sampleStore_resolvesOnce.
Defined.

(** ** The in-memory store: frame, [clearKeySpace] and the write batch *)

Lemma memory_get_alter (f : gmap string string -> gmap string string)
    (keySpace other : KeySpace) (key : string) (storage : MemoryStorage) :
  MemoryLocalStore_get other key (alter f (KeySpace_index keySpace) storage)
  = if decide (KeySpace_index keySpace = KeySpace_index other)
    then match storage !! KeySpace_index other with
         | Some m => f m !! key
         | None => None
         end
    else MemoryLocalStore_get other key storage.
Proof.
  unfold MemoryLocalStore_get. case_decide as Hidx.
  - rewrite <- Hidx. rewrite list_lookup_alter.
    rewrite decide_True by reflexivity.
    now destruct (storage !! KeySpace_index keySpace).
  - now rewrite list_lookup_alter_ne.
Qed.

Lemma memory_get_put_frame (keySpace other : KeySpace) (key key' value : string)
    (storage : MemoryStorage) :
  KeySpace_index keySpace < length storage ->
  MemoryLocalStore_get other key' (MemoryLocalStore_put keySpace key value storage)
  = if decide (KeySpace_index keySpace = KeySpace_index other /\ key = key')
    then Some value
    else MemoryLocalStore_get other key' storage.
Proof.
  intros Hlen. unfold MemoryLocalStore_put. rewrite memory_get_alter.
  unfold MemoryLocalStore_get.
  destruct (lookup_lt_is_Some_2 storage _ Hlen) as [m Hm].
  case_decide as Hidx.
  - rewrite <- Hidx, Hm. case_decide as Hboth.
    + destruct Hboth as [_ <-]. apply lookup_insert_eq.
    + rewrite lookup_insert_ne; [reflexivity|]. intros <-. now apply Hboth.
  - rewrite decide_False by (intros [? _]; contradiction). reflexivity.
Qed.

(** X2. [MemoryLocalStore::put] writes one key of one keyspace: a [get]
    of the key put gives the value, and a [get] of any other key, or of
    any key of another keyspace, gives what it gave before. *)
Theorem memory_put_frame (keySpace other : KeySpace) (key key' value : string)
    (storage : MemoryStorage) :
  KeySpace_index keySpace < length storage ->
  MemoryLocalStore_get other key' (MemoryLocalStore_put keySpace key value storage)
  = if decide (KeySpace_index keySpace = KeySpace_index other /\ key = key')
    then Some value
    else MemoryLocalStore_get other key' storage.
Proof.
  intros Hlen. unfold MemoryLocalStore_put. rewrite memory_get_alter.
  unfold MemoryLocalStore_get.
  destruct (lookup_lt_is_Some_2 storage _ Hlen) as [m Hm].
  case_decide as Hidx.
  - rewrite <- Hidx, Hm. case_decide as Hboth.
    + destruct Hboth as [_ <-]. apply lookup_insert_eq.
    + rewrite lookup_insert_ne; [reflexivity|]. intros <-. now apply Hboth.
  - rewrite decide_False by (intros [? _]; contradiction). reflexivity.
Qed.

(** X2, witness: a put into the first of two keyspaces, read from the
    second. *)
Lemma memory_put_frame_witness :
  MemoryLocalStore_get (mkKeySpace 1 "tree") "k"
    (MemoryLocalStore_put (mkKeySpace 0 "blob") "k" "v" [∅; {[ "k" := "t" ]}])
  = Some "t".
Proof.
  rewrite (memory_put_frame (mkKeySpace 0 "blob")) by (cbn; lia). reflexivity.
Defined.

(** X3. [MemoryLocalStore::clearKeySpace] empties the keyspace and no
    other: no key of it is found any more, the keys of every other keyspace
    read as before, and a [put] that follows is read back. *)
Theorem memory_clearKeySpace (keySpace : KeySpace) (storage : MemoryStorage) :
  (forall (other : KeySpace) (key : string),
     MemoryLocalStore_get other key (MemoryLocalStore_clearKeySpace keySpace storage)
     = if decide (KeySpace_index keySpace = KeySpace_index other) then None
       else MemoryLocalStore_get other key storage) /\
  (forall key : string,
     MemoryLocalStore_hasKey keySpace key
       (MemoryLocalStore_clearKeySpace keySpace storage) = false) /\
  (forall key key' value : string,
     MemoryLocalStore_get keySpace key'
       (MemoryLocalStore_put keySpace key value
          (MemoryLocalStore_clearKeySpace keySpace storage))
     = if decide (key = key' /\ KeySpace_index keySpace < length storage)
       then Some value else None).
Proof.
  assert (Hget : forall (other : KeySpace) (key : string),
     MemoryLocalStore_get other key (MemoryLocalStore_clearKeySpace keySpace storage)
     = if decide (KeySpace_index keySpace = KeySpace_index other) then None
       else MemoryLocalStore_get other key storage).
  { intros other key. unfold MemoryLocalStore_clearKeySpace.
    rewrite memory_get_alter. case_decide; [|reflexivity].
    now destruct (storage !! KeySpace_index other). }
  split; [exact Hget|]. split.
  - intros key. unfold MemoryLocalStore_hasKey. rewrite Hget.
    now rewrite decide_True by reflexivity.
  - intros key key' value.
    destruct (decide (KeySpace_index keySpace < length storage)) as [Hlt|Hge].
    + rewrite memory_get_put_frame
        by (unfold MemoryLocalStore_clearKeySpace; now rewrite length_alter).
      case_decide as H1.
      * destruct H1 as [_ <-]. now rewrite decide_True by (split; [reflexivity|assumption]).
      * rewrite Hget, decide_True by reflexivity.
        rewrite decide_False; [reflexivity|]. intros [<- _]. now apply H1.
    + rewrite decide_False by (intros [_ ?]; contradiction).
      unfold MemoryLocalStore_put. rewrite memory_get_alter.
      rewrite decide_True by reflexivity.
      unfold MemoryLocalStore_clearKeySpace.
      rewrite list_lookup_alter, decide_True by reflexivity.
      rewrite (lookup_ge_None_2 storage) by lia. reflexivity.
Qed.

Lemma memory_get_insert_empty (i : nat) (other : KeySpace) (key : string)
    (batch : MemoryStorage) :
  MemoryLocalStore_get other key (<[i := ∅]> batch)
  = if decide (i = KeySpace_index other) then None
    else MemoryLocalStore_get other key batch.
Proof.
  unfold MemoryLocalStore_get. case_decide as Hidx.
  - subst i. destruct (decide (KeySpace_index other < length batch)) as [Hlt|Hge].
    + now rewrite list_lookup_insert_eq by assumption.
    + rewrite (lookup_ge_None_2 (<[_ := _]> batch)); [reflexivity|].
      rewrite length_insert. lia.
  - now rewrite list_lookup_insert_ne.
Qed.

(** The replay of the entries of one keyspace into the store. *)
Lemma memory_replay (keySpace : KeySpace) (entries : gmap string string)
    (store : MemoryStorage) :
  KeySpace_index keySpace < length store ->
  length (map_fold (fun k v s => MemoryLocalStore_put keySpace k v s) store entries)
  = length store /\
  forall (other : KeySpace) (key : string),
    MemoryLocalStore_get other key
      (map_fold (fun k v s => MemoryLocalStore_put keySpace k v s) store entries)
    = if decide (KeySpace_index keySpace = KeySpace_index other)
      then match entries !! key with
           | Some v => Some v
           | None => MemoryLocalStore_get other key store
           end
      else MemoryLocalStore_get other key store.
Proof.
  intros Hlen.
  apply (map_fold_weak_ind
    (fun (r : MemoryStorage) (m : gmap string string) =>
       length r = length store /\
       forall (other : KeySpace) (key : string),
         MemoryLocalStore_get other key r
         = if decide (KeySpace_index keySpace = KeySpace_index other)
           then match m !! key with
                | Some v => Some v
                | None => MemoryLocalStore_get other key store
                end
           else MemoryLocalStore_get other key store)).
  - split; [reflexivity|]. intros other key. rewrite lookup_empty. now case_decide.
  - intros k v m r Hfresh [Hr IH]. split.
    + unfold MemoryLocalStore_put. now rewrite length_alter.
    + intros other key. rewrite memory_get_put_frame by lia. rewrite IH.
      destruct (decide (KeySpace_index keySpace = KeySpace_index other)) as [Hidx|Hidx].
      * destruct (decide (k = key)) as [->|Hk].
        -- rewrite decide_True by (split; [assumption|reflexivity]).
           now rewrite lookup_insert_eq.
        -- rewrite decide_False by (intros [_ ?]; contradiction).
           now rewrite lookup_insert_ne.
      * now rewrite decide_False by (intros [? _]; contradiction).
Qed.

Lemma memory_flush_loop (kAll : list KeySpace) :
  forall batch store : MemoryStorage,
    Forall (fun ks => KeySpace_index ks < length store) kAll ->
    length (snd (MemoryWriteBatch_flush kAll batch store)) = length store /\
    forall (other : KeySpace) (key : string),
      MemoryLocalStore_get other key (snd (MemoryWriteBatch_flush kAll batch store))
      = (if decide (KeySpace_index other ∈ KeySpace_index <$> kAll)
         then match MemoryLocalStore_get other key batch with
              | Some v => Some v
              | None => MemoryLocalStore_get other key store
              end
         else MemoryLocalStore_get other key store) /\
      MemoryLocalStore_get other key (fst (MemoryWriteBatch_flush kAll batch store))
      = (if decide (KeySpace_index other ∈ KeySpace_index <$> kAll) then None
         else MemoryLocalStore_get other key batch).
Proof.
  unfold MemoryWriteBatch_flush.
  induction kAll as [|ks rest IH]; intros batch store Hall.
  - cbn. split; [reflexivity|]. intros other key.
    rewrite !decide_False by (apply not_elem_of_nil). now split.
  - apply Forall_cons in Hall as [Hks Hrest]. cbn [fold_left].
    destruct (memory_replay ks (default ∅ (batch !! KeySpace_index ks)) store Hks)
      as [Hlen Hget].
    set (store1 := map_fold _ store _) in *.
    set (batch1 := <[KeySpace_index ks := ∅]> batch).
    assert (Hrest1 : Forall (fun ks0 => KeySpace_index ks0 < length store1) rest)
      by (rewrite Hlen; assumption).
    destruct (IH batch1 store1 Hrest1) as [Hlen' IH']. split; [lia|].
    intros other key. destruct (IH' other key) as [IHs IHb].
    rewrite IHs, IHb. unfold batch1. rewrite memory_get_insert_empty, Hget.
    assert (Hentry : KeySpace_index ks = KeySpace_index other ->
              default ∅ (batch !! KeySpace_index ks) !! key
              = MemoryLocalStore_get other key batch).
    { intros ->. unfold MemoryLocalStore_get.
      destruct (batch !! KeySpace_index other); [reflexivity|apply lookup_empty]. }
    rewrite fmap_cons.
    destruct (decide (KeySpace_index ks = KeySpace_index other)) as [Hidx|Hidx];
      destruct (decide (KeySpace_index other ∈ KeySpace_index <$> rest)) as [Hin|Hin];
      destruct (decide (KeySpace_index other
                        ∈ KeySpace_index ks :: (KeySpace_index <$> rest))) as [Hc|Hc];
      rewrite ?(Hentry Hidx); try (split; reflexivity); exfalso.
    + apply Hc. rewrite Hidx. apply list_elem_of_here.
    + apply Hc. rewrite Hidx. apply list_elem_of_here.
    + apply Hc. now apply list_elem_of_further.
    + apply elem_of_cons in Hc as [?|?]; [congruence|contradiction].
Qed.

(** X4. [MemoryWriteBatch::flush] replays the batch into the store: after
    it, a key of a keyspace of [KeySpace::kAll] reads as the value the batch
    held for it and, where the batch held none, as the store had it; the
    batch holds no entry of these keyspaces any more; a keyspace outside
    [kAll] is left as it was in both. *)
Theorem memory_flush_get (kAll : list KeySpace) (batch store : MemoryStorage)
    (other : KeySpace) (key : string) :
  Forall (fun ks => KeySpace_index ks < length store) kAll ->
  MemoryLocalStore_get other key (snd (MemoryWriteBatch_flush kAll batch store))
  = (if decide (KeySpace_index other ∈ KeySpace_index <$> kAll)
     then match MemoryLocalStore_get other key batch with
          | Some v => Some v
          | None => MemoryLocalStore_get other key store
          end
     else MemoryLocalStore_get other key store) /\
  MemoryLocalStore_get other key (fst (MemoryWriteBatch_flush kAll batch store))
  = (if decide (KeySpace_index other ∈ KeySpace_index <$> kAll) then None
     else MemoryLocalStore_get other key batch).
Proof.
  intros Hall. exact (proj2 (memory_flush_loop kAll batch store Hall) other key).
Qed.

(** X4, witness: a batch over two keyspaces flushed into a store that
    holds another key of the first. *)
Lemma memory_flush_get_witness :
  let kAll := [mkKeySpace 0 "blob"; mkKeySpace 1 "tree"] in
  let batch := MemoryWriteBatch_put (mkKeySpace 0 "blob") "b" "1" [∅; ∅] in
  let store : MemoryStorage := [{[ "b" := "0"; "c" := "2" ]}; ∅] in
  MemoryLocalStore_get (mkKeySpace 0 "blob") "b"
    (snd (MemoryWriteBatch_flush kAll batch store)) = Some "1" /\
  MemoryLocalStore_get (mkKeySpace 0 "blob") "b"
    (fst (MemoryWriteBatch_flush kAll batch store)) = None.
Proof.
  intros kAll batch store.
  assert (Hall : Forall (fun ks => KeySpace_index ks < length store) kAll)
    by (repeat constructor).
  destruct (memory_flush_get kAll batch store (mkKeySpace 0 "blob") "b" Hall) as [Hs Hb].
  split; [rewrite Hs|rewrite Hb]; reflexivity.
Defined.

(** ** The SQLite store: reads, [clearKeySpace], [open] and the values of a
      flushed batch *)

Lemma sqlite_reads (keySpace : KeySpace) (key : string) (db : SqliteDatabase) :
  match fst (SqliteLocalStore_get keySpace key db) with
  | Value r => fst (SqliteLocalStore_hasKey keySpace key db) = Value (bool_decide (is_Some r))
  | Exception e => fst (SqliteLocalStore_hasKey keySpace key db) = Exception e
  end /\
  content (snd (SqliteLocalStore_get keySpace key db)) = content db /\
  content (snd (SqliteLocalStore_hasKey keySpace key db)) = content db.
Proof.
  unfold SqliteLocalStore_get, SqliteLocalStore_hasKey, step, stepSelectOne.
  destruct (faultPlan db (clock db)); [now cbn|].
  destruct (content db !! KeySpace_name keySpace); now cbn.
Qed.

(** X5. [SqliteLocalStore::hasKey] and [SqliteLocalStore::get] agree:
    on one database both throw the same error or both return, [hasKey]
    saying whether [get] found a value; neither changes a row. *)
Theorem sqlite_hasKey_get (keySpace : KeySpace) (key : string) (db : SqliteDatabase) :
  match fst (SqliteLocalStore_get keySpace key db) with
  | Value r => fst (SqliteLocalStore_hasKey keySpace key db) = Value (bool_decide (is_Some r))
  | Exception e => fst (SqliteLocalStore_hasKey keySpace key db) = Exception e
  end /\
  content (snd (SqliteLocalStore_get keySpace key db)) = content db /\
  content (snd (SqliteLocalStore_hasKey keySpace key db)) = content db.
Proof.
  unfold SqliteLocalStore_get, SqliteLocalStore_hasKey, step, stepSelectOne.
  destruct (faultPlan db (clock db)); [now cbn|].
  destruct (content db !! KeySpace_name keySpace); now cbn.
Qed.

(** X6. [SqliteLocalStore::clearKeySpace] deletes the rows of its table
    and of no other; when it throws, no row changes. After it the first
    [put] of a key is the one that [get] reads, whatever the key held
    before. *)
Theorem sqlite_clearKeySpace (keySpace : KeySpace) (db : SqliteDatabase) :
  match SqliteLocalStore_clearKeySpace keySpace db with
  | (Exception _, db') => content db' = content db
  | (Value _, db') =>
      content db' !! KeySpace_name keySpace = Some ∅ /\
      (forall table, table <> KeySpace_name keySpace ->
         content db' !! table = content db !! table) /\
      forall (key value : string) (db1 : SqliteDatabase),
        SqliteLocalStore_put keySpace key value db' = (Value tt, db1) ->
        faultPlan db1 (clock db1) = false ->
        fst (SqliteLocalStore_get keySpace key db1) = Value (Some value)
  end.
Proof.
  unfold SqliteLocalStore_clearKeySpace, stepDeleteFrom.
  destruct (faultPlan db (clock db)); [reflexivity|].
  destruct (content db !! KeySpace_name keySpace) as [rows|] eqn:Hrows; [|reflexivity].
  split; [apply lookup_insert_eq|]. split.
  - intros table Hne. cbn. now rewrite lookup_insert_ne.
  - intros key value db1 Hput Hfault.
    eapply sqlite_put_content in Hput as [Hrows1 Hplan]; [|apply lookup_insert_eq].
    unfold SqliteLocalStore_get, step. rewrite Hfault, Hrows1. cbn.
    rewrite insertOrIgnore_lookup, lookup_empty. now rewrite decide_True.
Qed.

Lemma stepCreateTable_facts (table : string) (db db' : SqliteDatabase) :
  stepCreateTable table db = (Value tt, db') ->
  is_Some (content db' !! table) /\
  (forall t rows, content db !! t = Some rows -> content db' !! t = Some rows) /\
  (forall t rows, content db' !! t = Some rows ->
     content db !! t = Some rows \/ (t = table /\ rows = ∅)) /\
  faultPlan db' = faultPlan db /\ clock db' = S (clock db).
Proof.
  unfold stepCreateTable. destruct (faultPlan db (clock db)); [discriminate|].
  destruct (content db !! table) as [rows0|] eqn:Htable; intros [= <-]; cbn.
  - rewrite Htable. split; [now eexists|]. split; [tauto|]. split; [tauto|]. now split.
  - split; [rewrite lookup_insert_eq; now eexists|]. split; [|split]; [| |now split].
    + intros t rows Ht. rewrite lookup_insert_ne; [assumption|]. intros <-. congruence.
    + intros t rows. destruct (decide (table = t)) as [<-|Hne].
      * rewrite lookup_insert_eq. intros [= <-]. now right.
      * rewrite lookup_insert_ne by assumption. now left.
Qed.

Lemma createTables_facts (kAll : list KeySpace) :
  forall db db' : SqliteDatabase,
    createTables kAll db = (Value tt, db') ->
    (forall ks, ks ∈ kAll -> is_Some (content db' !! KeySpace_name ks)) /\
    (forall t rows, content db !! t = Some rows -> content db' !! t = Some rows) /\
    (forall t rows, content db' !! t = Some rows ->
       content db !! t = Some rows \/
       (t ∈ KeySpace_name <$> kAll) /\ rows = ∅).
Proof.
  induction kAll as [|ks rest IH]; intros db db' Hrun; cbn in Hrun.
  - injection Hrun as <-. split; [intros ks []%elem_of_nil|]. split; [tauto|]. now left.
  - destruct (stepCreateTable (KeySpace_name ks) db) as [[[]|e] db1] eqn:Hstep;
      [|discriminate].
    apply stepCreateTable_facts in Hstep as (Hthere & Hkeep & Hnew & _).
    apply IH in Hrun as (IHthere & IHkeep & IHnew). split; [|split].
    + intros ks' [->|Hin]%elem_of_cons; [|now apply IHthere].
      destruct Hthere as [rows Hrows]. exists rows. now apply IHkeep.
    + intros t rows Ht. now apply IHkeep, Hkeep.
    + intros t rows Ht. rewrite fmap_cons.
      destruct (IHnew t rows Ht) as [H1|[Hin ->]].
      * destruct (Hnew t rows H1) as [?|[-> ->]]; [now left|].
        right. split; [apply list_elem_of_here|reflexivity].
      * right. split; [now apply list_elem_of_further|reflexivity].
Qed.

Lemma createTables_returns (kAll : list KeySpace) :
  forall db : SqliteDatabase,
    (forall n, clock db <= n -> faultPlan db n = false) ->
    exists db', createTables kAll db = (Value tt, db').
Proof.
  induction kAll as [|ks rest IH]; intros db Hplan; cbn; [now eexists|].
  destruct (stepCreateTable (KeySpace_name ks) db) as [[[]|e] db1] eqn:Hstep.
  - apply stepCreateTable_facts in Hstep as (_ & _ & _ & Hfp & Hclock).
    apply IH. intros n Hn. rewrite Hfp. apply Hplan. lia.
  - exfalso. unfold stepCreateTable in Hstep. rewrite Hplan in Hstep by lia.
    destruct (content db !! KeySpace_name ks); discriminate.
Qed.

(** X7. [SqliteLocalStore::open] creates the table of every keyspace and
    touches no row: when it returns, the database that it hands to
    [clearDeprecatedKeySpaces] has a table for each keyspace of
    [KeySpace::kAll], every table that was there holds the rows it held, and
    a table that was not there is one of a keyspace and is empty. With no
    failing step the statements of [open] itself all succeed. *)
Theorem sqlite_open_tables (kAll : list KeySpace)
    (clearDeprecatedKeySpaces : SqliteDatabase -> Try unit * SqliteDatabase)
    (db : SqliteDatabase) :
  (forall db' : SqliteDatabase,
     SqliteLocalStore_open kAll clearDeprecatedKeySpaces db = (Value tt, db') ->
     exists db1,
       clearDeprecatedKeySpaces db1 = (Value tt, db') /\
       (forall ks, ks ∈ kAll -> is_Some (content db1 !! KeySpace_name ks)) /\
       (forall t rows, content db !! t = Some rows -> content db1 !! t = Some rows) /\
       (forall t rows, content db1 !! t = Some rows ->
          content db !! t = Some rows \/
          (t ∈ KeySpace_name <$> kAll) /\ rows = ∅)) /\
  ((forall n, clock db <= n -> faultPlan db n = false) ->
   exists db1,
     SqliteLocalStore_open kAll clearDeprecatedKeySpaces db = clearDeprecatedKeySpaces db1).
Proof.
  unfold SqliteLocalStore_open, stepPragma. split.
  - intros db' Hopen. destruct (faultPlan db (clock db)); [discriminate|].
    destruct (createTables kAll (tick db)) as [[[]|e] db1] eqn:Hcreate; [|discriminate].
    exists db1. split; [assumption|]. now apply createTables_facts in Hcreate.
  - intros Hplan. rewrite Hplan by lia.
    destruct (createTables_returns kAll (tick db)) as [db1 Hcreate].
    { intros n Hn. cbn in *. apply Hplan. lia. }
    exists db1. now rewrite Hcreate.
Qed.

(** X7, witness: [open] on an empty database file with two keyspaces, none
    of them deprecated. *)
Lemma sqlite_open_tables_witness :
  exists db1,
    SqliteLocalStore_open [mkKeySpace 0 "blob"; mkKeySpace 1 "tree"]
      (fun db => (Value tt, db)) (mkDb ∅ None 0 (fun _ => false))
    = (Value tt, db1).
Proof.
  destruct (proj2 (sqlite_open_tables [mkKeySpace 0 "blob"; mkKeySpace 1 "tree"]
                     (fun db => (Value tt, db)) (mkDb ∅ None 0 (fun _ => false))))
    as [db1 Hopen]; [reflexivity|].
  exists db1. exact Hopen.
Defined.

Lemma insertAll_lookup (items : list (string * string)) :
  forall (rows : gmap string string) (key : string),
    insertAll items rows !! key
    = match rows !! key with
      | Some old => Some old
      | None => firstPut key items
      end.
Proof.
  unfold insertAll.
  induction items as [|[k v] rest IH]; intros rows key; cbn.
  - now destruct (rows !! key).
  - rewrite IH, insertOrIgnore_lookup. destruct (rows !! key); [reflexivity|].
    now case_decide.
Qed.

Lemma step_insert_content (table key value : string) (db db' : SqliteDatabase) :
  step (INSERT_OR_IGNORE table key value) db = (Value None, db') ->
  exists rows,
    content db !! table = Some rows /\
    content db' = <[table := insertOrIgnore key value rows]> (content db).
Proof.
  unfold step. destruct (faultPlan db (clock db)); [discriminate|].
  destruct (content db !! table) as [rows|]; [|discriminate].
  intros [= <-]. now exists rows.
Qed.

Lemma step_insert_value (table key value : string) (db db' : SqliteDatabase)
    (r : option string) :
  step (INSERT_OR_IGNORE table key value) db = (Value r, db') -> r = None.
Proof.
  unfold step. destruct (faultPlan db (clock db)); [discriminate|].
  destruct (content db !! table); [|discriminate]. now intros [= <- _].
Qed.

Lemma flushItems_content (table : string) (items : list (string * string)) :
  forall db db' : SqliteDatabase,
    flushItems table items db = (Value tt, db') ->
    (forall t, t <> table -> content db' !! t = content db !! t) /\
    (forall rows, content db !! table = Some rows ->
       content db' !! table = Some (insertAll items rows)).
Proof.
  induction items as [|[k v] rest IH]; intros db db' Hrun; cbn in Hrun.
  - injection Hrun as <-. split; [reflexivity|]. now intros rows ->.
  - destruct (step (INSERT_OR_IGNORE table k v) db) as [[r|e] db1] eqn:Hstep;
      [|discriminate].
    pose proof (step_insert_value _ _ _ _ _ _ Hstep) as ->.
    apply step_insert_content in Hstep as (rows0 & Hrows0 & Hcontent).
    apply IH in Hrun as [IHother IHtable]. split.
    + intros t Hne. rewrite IHother, Hcontent by assumption. now rewrite lookup_insert_ne.
    + intros rows Hrows. rewrite Hrows in Hrows0. injection Hrows0 as <-.
      apply IHtable. rewrite Hcontent. apply lookup_insert_eq.
Qed.

Lemma names_NoDup_lookup (kAll : list KeySpace) (a b : nat) (x y : KeySpace) :
  NoDup (KeySpace_name <$> kAll) ->
  kAll !! a = Some x -> kAll !! b = Some y -> KeySpace_name x = KeySpace_name y -> a = b.
Proof.
  intros Hnd Ha Hb Hname.
  apply (NoDup_lookup (KeySpace_name <$> kAll) a b (KeySpace_name x) Hnd).
  - now rewrite list_lookup_fmap, Ha.
  - now rewrite list_lookup_fmap, Hb, Hname.
Qed.

Lemma flushBuffers_content (kAll : list KeySpace) (pending : SqliteBuffer) :
  NoDup (KeySpace_name <$> kAll) ->
  forall (i : nat) (db db' : SqliteDatabase) (left : SqliteBuffer),
    flushBuffers kAll i pending db = (Value tt, db', left) ->
    (forall t,
       (forall j ks, j < length pending -> kAll !! (i + j) = Some ks ->
                     KeySpace_name ks <> t) ->
       content db' !! t = content db !! t) /\
    (forall j ks rows,
       kAll !! (i + j) = Some ks -> content db !! KeySpace_name ks = Some rows ->
       content db' !! KeySpace_name ks
       = Some (insertAll (default [] (pending !! j)) rows)).
Proof.
  intros Hnd.
  induction pending as [|items rest IH]; intros i db db' left Hrun.
  - cbn in Hrun. injection Hrun as <- <-. split; [reflexivity|].
    intros j ks rows _ ->. reflexivity.
  - cbn [flushBuffers] in Hrun. destruct items as [|item items'].
    + destruct (flushBuffers kAll (S i) rest db) as [[r db1] rest'] eqn:Hrec.
      injection Hrun as -> <- <-.
      apply IH in Hrec as [IHother IHat]. split.
      * intros t Ht. apply IHother. intros j ks Hj Hks.
        apply (Ht (S j) ks); [cbn; lia|].
        now replace (i + S j) with (S i + j) by lia.
      * intros [|j] ks rows Hks Hrows.
        -- cbn. rewrite IHother; [exact Hrows|].
           intros j ks' _ Hks' Hname.
           pose proof (names_NoDup_lookup _ _ _ _ _ Hnd Hks' Hks Hname). lia.
        -- replace (i + S j) with (S i + j) in Hks by lia.
           cbn [lookup list_lookup]. now apply IHat.
    + destruct (kAll !! i) as [ks0|] eqn:Hks0; [|discriminate].
      destruct (flushItems (KeySpace_name ks0) (item :: items') db)
        as [[[]|e] db1] eqn:Hitems; [|discriminate].
      destruct (flushBuffers kAll (S i) rest db1) as [[r db2] rest'] eqn:Hrec.
      injection Hrun as -> <- <-.
      apply flushItems_content in Hitems as [Hother Htable].
      apply IH in Hrec as [IHother IHat]. split.
      * intros t Ht. rewrite IHother.
        -- apply Hother. intros ->. apply (Ht 0 ks0); [cbn; lia| |reflexivity].
           now replace (i + 0) with i by lia.
        -- intros j ks Hj Hks. apply (Ht (S j) ks); [cbn; lia|].
           now replace (i + S j) with (S i + j) by lia.
      * intros [|j] ks rows Hks Hrows.
        -- replace (i + 0) with i in Hks by lia. rewrite Hks0 in Hks.
           injection Hks as <-. cbn [lookup list_lookup default].
           rewrite IHother; [now apply Htable|].
           intros j ks' _ Hks' Hname.
           pose proof (names_NoDup_lookup _ _ _ _ _ Hnd Hks' Hks0 Hname). lia.
        -- replace (i + S j) with (S i + j) in Hks by lia.
           cbn [lookup list_lookup]. apply IHat; [assumption|].
           rewrite Hother; [assumption|]. intros Hname.
           pose proof (names_NoDup_lookup _ _ _ _ _ Hnd Hks Hks0 Hname). lia.
Qed.

Lemma step_BEGIN_content (db db0 : SqliteDatabase) (r : option string) :
  step BEGIN db = (Value r, db0) ->
  content db0 = content db /\ snapshot db0 = Some (content db).
Proof.
  unfold step. destruct (faultPlan db (clock db)); [discriminate|].
  destruct (snapshot db); [discriminate|]. now intros [= _ <-].
Qed.

Lemma step_COMMIT_content (db db' : SqliteDatabase) (r : Try (option string)) :
  step COMMIT db = (r, db') ->
  content db' = content db /\
  match r with Value _ => snapshot db' = None | Exception _ => snapshot db' = snapshot db end.
Proof.
  unfold step. destruct (faultPlan db (clock db)); [now intros [= <- <-]|].
  destruct (snapshot db) eqn:Hsnap; intros [= <- <-]; cbn; now rewrite ?Hsnap.
Qed.

(** X8. The values of a flushed SQLite batch: when [flush] returns, a key
    that had a row keeps its value, and a key that had none holds the value
    of the first [put] of it in the batch; within a batch, as between single
    puts, the first writer wins. The keyspaces have tables of their own. *)
Theorem sqlite_flush_values (kAll : list KeySpace) (buffer buffer' : SqliteBuffer)
    (db db' : SqliteDatabase) :
  NoDup (KeySpace_name <$> kAll) ->
  SqliteWriteBatch_flush kAll buffer db = (Value tt, db', buffer') ->
  forall (i : nat) (ks : KeySpace) (rows : gmap string string),
    kAll !! i = Some ks -> content db !! KeySpace_name ks = Some rows ->
    exists rows',
      content db' !! KeySpace_name ks = Some rows' /\
      forall key,
        rows' !! key
        = match rows !! key with
          | Some old => Some old
          | None => firstPut key (default [] (buffer !! i))
          end.
Proof.
  intros Hnd Hflush i ks rows Hks Hrows.
  unfold SqliteWriteBatch_flush, flushAttempt in Hflush.
  destruct (step BEGIN db) as [[r0|e0] db0] eqn:Hbegin; [|discriminate].
  apply step_BEGIN_content in Hbegin as [Hc0 _].
  destruct (flushBuffers kAll 0 buffer db0) as [[[[]|e1] db1] left] eqn:Hloop.
  2: { destruct (step ROLLBACK db1) as [[?|?] ?]; discriminate. }
  destruct (step COMMIT db1) as [[r2|e2] db2] eqn:Hcommit.
  2: { destruct (step ROLLBACK db2) as [[?|?] ?]; discriminate. }
  injection Hflush as <- <-.
  apply step_COMMIT_content in Hcommit as [Hc2 _].
  apply (flushBuffers_content kAll buffer Hnd) in Hloop as [_ Hat].
  exists (insertAll (default [] (buffer !! i)) rows). split.
  - rewrite Hc2. apply (Hat i ks rows); [exact Hks|]. now rewrite Hc0.
  - intros key. apply insertAll_lookup.
Qed.

(** X8, witness: two puts of one key in a batch, flushed into an empty
    table: the key holds the value of the first. *)
Lemma sqlite_flush_values_witness :
  let kAll := [mkKeySpace 0 "blob"] in
  let buffer :=
    SqliteWriteBatch_put (mkKeySpace 0 "blob") "k" "second"
      (SqliteWriteBatch_put (mkKeySpace 0 "blob") "k" "first" [[]]) in
  let db := mkDb {[ "blob" := ∅ ]} None 0 (fun _ => false) in
  exists rows',
    content (snd (fst (SqliteWriteBatch_flush kAll buffer db))) !! "blob" = Some rows' /\
    rows' !! "k" = Some "first".
Proof.
  intros kAll buffer db.
  assert (Hnd : NoDup (KeySpace_name <$> kAll))
    by (apply NoDup_singleton).
  assert (Hflush : SqliteWriteBatch_flush kAll buffer db
                   = (Value tt, snd (fst (SqliteWriteBatch_flush kAll buffer db)),
                      snd (SqliteWriteBatch_flush kAll buffer db)))
    by reflexivity.
  destruct (sqlite_flush_values kAll buffer _ db _ Hnd Hflush 0 (mkKeySpace 0 "blob") ∅
              eq_refl eq_refl) as (rows' & Hrows & Hval).
  exists rows'. split; [exact Hrows|]. rewrite Hval. reflexivity.
Defined.

Lemma holds_insertOrIgnore (key value k v : string) (rows : gmap string string) :
  rows !! key = Some value -> insertOrIgnore k v rows !! key = Some value.
Proof. intros Hrow. now rewrite insertOrIgnore_lookup, Hrow. Qed.

Lemma step_insert_holds (table key value t k v : string) (db : SqliteDatabase) :
  holds table key value db ->
  holds table key value (snd (step (INSERT_OR_IGNORE t k v) db)).
Proof.
  intros (rows & Hrows & Hrow). unfold step.
  destruct (faultPlan db (clock db)); [now exists rows|].
  destruct (content db !! t) as [rows0|] eqn:Ht; [|now exists rows]. cbn.
  destruct (decide (t = table)) as [->|Hne].
  - rewrite Hrows in Ht. injection Ht as <-.
    exists (insertOrIgnore k v rows). split; [apply lookup_insert_eq|].
    now apply holds_insertOrIgnore.
  - exists rows. split; [|assumption]. unfold holds. cbn. now rewrite lookup_insert_ne.
Qed.

Lemma flushItems_holds (table key value t : string) (items : list (string * string)) :
  forall db : SqliteDatabase,
    holds table key value db -> holds table key value (snd (flushItems t items db)).
Proof.
  induction items as [|[k v] rest IH]; intros db Hrow; cbn; [assumption|].
  pose proof (step_insert_holds table key value t k v db Hrow) as Hstep.
  destruct (step (INSERT_OR_IGNORE t k v) db) as [[r|e] db1]; cbn in Hstep.
  - now apply IH.
  - assumption.
Qed.

Lemma flushBuffers_holds (table key value : string) (kAll : list KeySpace)
    (pending : SqliteBuffer) :
  forall (i : nat) (db : SqliteDatabase),
    holds table key value db ->
    holds table key value (snd (fst (flushBuffers kAll i pending db))).
Proof.
  induction pending as [|items rest IH]; intros i db Hrow; cbn; [assumption|].
  destruct items as [|item items'].
  - specialize (IH (S i) db Hrow).
    now destruct (flushBuffers kAll (S i) rest db) as [[r db1] rest'].
  - destruct (kAll !! i) as [ks|]; [|assumption].
    pose proof (flushItems_holds table key value (KeySpace_name ks) (item :: items') db Hrow)
      as Hitems.
    destruct (flushItems (KeySpace_name ks) (item :: items') db) as [[[]|e] db1];
      [|assumption].
    specialize (IH (S i) db1 Hitems).
    now destruct (flushBuffers kAll (S i) rest db1) as [[r db2] rest'].
Qed.

Lemma step_ROLLBACK_content (db db1 db2 : SqliteDatabase) (r : Try (option string)) :
  snapshot db1 = Some (content db) ->
  step ROLLBACK db1 = (r, db2) ->
  match r with
  | Value _ => content db2 = content db /\ snapshot db2 = None
  | Exception _ =>
      content db2 = content db1 /\ snapshot db2 = Some (content db) /\
      faultPlan db1 (clock db1) = true
  end.
Proof.
  intros Hsnap. unfold step. destruct (faultPlan db1 (clock db1)).
  - now intros [= <- <-].
  - rewrite Hsnap. now intros [= <- <-].
Qed.

(** X9. The SQLite store is write-once: a row that a table holds is
    there, with its value, after any [put], [get], [hasKey] or [flush] of a
    write batch, whether the operation returns or throws. Of the operations
    embedded, [clearKeySpace] alone removes a row. *)
Theorem sqlite_rows_write_once (table key value : string) (db : SqliteDatabase) :
  holds table key value db ->
  (forall (keySpace : KeySpace) (k v : string),
     holds table key value (snd (SqliteLocalStore_put keySpace k v db)) /\
     holds table key value (snd (SqliteLocalStore_get keySpace k db)) /\
     holds table key value (snd (SqliteLocalStore_hasKey keySpace k db))) /\
  (forall (kAll : list KeySpace) (buffer : SqliteBuffer),
     holds table key value (snd (fst (SqliteWriteBatch_flush kAll buffer db)))).
Proof.
  intros Hrow. split.
  - intros keySpace k v. split; [|split].
    + pose proof (step_insert_holds table key value (KeySpace_name keySpace) k v db Hrow)
        as Hstep.
      unfold SqliteLocalStore_put.
      now destruct (step (INSERT_OR_IGNORE (KeySpace_name keySpace) k v) db) as [[r|e] db1].
    + destruct (sqlite_reads keySpace k db) as (_ & Hget & _).
      unfold holds. now rewrite Hget.
    + destruct (sqlite_reads keySpace k db) as (_ & _ & Hhas).
      unfold holds. now rewrite Hhas.
  - intros kAll buffer. unfold SqliteWriteBatch_flush, flushAttempt.
    destruct (step BEGIN db) as [[r0|e0] db0] eqn:Hbegin.
    + apply step_BEGIN_content in Hbegin as [Hc0 Hs0].
      assert (Hrow0 : holds table key value db0) by (unfold holds; now rewrite Hc0).
      pose proof (flushBuffers_holds table key value kAll buffer 0 db0 Hrow0) as Hloop.
      destruct (flushBuffers kAll 0 buffer db0) as [[r1 db1] left] eqn:Hrun.
      apply flushBuffers_facts in Hrun as (Hs1 & _). cbn in Hloop.
      assert (Hback : forall dbx, snapshot dbx = Some (content db) ->
                holds table key value dbx ->
                holds table key value (snd (step ROLLBACK dbx))).
      { intros dbx Hsnap Hx.
        destruct (step ROLLBACK dbx) as [[r|e] dby] eqn:Hstep;
          apply (step_ROLLBACK_content db _ _ _ Hsnap) in Hstep; cbn.
        - destruct Hstep as [Hc _]. unfold holds. now rewrite Hc.
        - destruct Hstep as [Hc _]. unfold holds. now rewrite Hc. }
      destruct r1 as [[]|e1].
      * destruct (step COMMIT db1) as [[r2|e2] db2] eqn:Hcommit;
          apply step_COMMIT_content in Hcommit as [Hc2 Hs2].
        -- cbn. unfold holds. now rewrite Hc2.
        -- assert (Hx : holds table key value db2) by (unfold holds; now rewrite Hc2).
           specialize (Hback db2 ltac:(congruence) Hx).
           now destruct (step ROLLBACK db2) as [[?|?] ?].
      * specialize (Hback db1 ltac:(congruence) Hloop).
        now destruct (step ROLLBACK db1) as [[?|?] ?].
    + cbn. unfold step in Hbegin.
      destruct (faultPlan db (clock db)); [now injection Hbegin as _ <-|].
      destruct (snapshot db); [now injection Hbegin as _ <-|discriminate].
Qed.

(** X9, witness: a row of the blob table outlives a second [put] of its
    key. *)
Lemma sqlite_rows_write_once_witness :
  holds "blob" "k" "v1"
    (snd (SqliteLocalStore_put (mkKeySpace 0 "blob") "k" "v2"
            (mkDb {[ "blob" := {[ "k" := "v1" ]} ]} None 0 (fun _ => false)))).
Proof.
  apply (sqlite_rows_write_once "blob" "k" "v1").
  exists {[ "k" := "v1" ]}. split; reflexivity.
Defined.

(** ** The write batches as transactions *)














(** ** What the codecs accept *)

Lemma length_subpieceFrom (n : nat) :
  forall s : string, String.length (subpieceFrom n s) = String.length s - n.
Proof.
  induction n as [|n IH]; intros s; cbn; [lia|].
  destruct s as [|c rest]; cbn; [reflexivity|apply IH].
Qed.

Lemma Hash20_fromHex_value (hex : string) (h : Hash20) :
  Hash20_fromHex hex = Value h ->
  String.length hex = 40 /\ unhexlify hex = Some h /\ String.length h = 20.
Proof.
  unfold Hash20_fromHex, RAW_SIZE.
  destruct (String.length hex =? 2 * 20)%nat eqn:Hlen; [|discriminate]. cbn.
  apply Nat.eqb_eq in Hlen.
  destruct (unhexlify hex) as [bytes|] eqn:Hhex; [|discriminate].
  intros [= <-]. pose proof (length_unhexlify hex bytes Hhex). repeat split; lia.
Qed.

(** X10. What [staticParseObjectId] accepts. A text that parses has one
    of three forms: [proxy-] and the 40 hex digits of a 20-byte id; the 40
    hex digits of a revision hash, read as the hash-only embedded id; or 40
    hex digits, a colon and a path that passes the path check, read as the
    embedded id with that path. Any other text is refused. *)
Theorem staticParseObjectId_accepts (c : ProxyHashCodec) (text : string) (id : ObjectId) :
  staticParseObjectId c text = Value id ->
  (startsWith text "proxy-" = true /\ String.length text = 46 /\
   unhexlify (subpieceFrom 6 text) = Some id /\ String.length id = 20) \/
  (startsWith text "proxy-" = false /\ String.length text = 40 /\
   exists h, unhexlify text = Some h /\ String.length h = 20 /\
             id = makeEmbeddedProxyHash2 c h) \/
  (startsWith text "proxy-" = false /\ 41 <= String.length text /\
   String.get 40 text = Some ":"%char /\
   relativePathOk c (subpieceFrom 41 text) = true /\
   exists h, unhexlify (subpieceTo 40 text) = Some h /\ String.length h = 20 /\
             id = makeEmbeddedProxyHash1 c h (subpieceFrom 41 text)).
Proof.
  unfold staticParseObjectId.
  destruct (startsWith text "proxy-") eqn:Hproxy.
  - destruct (String.length text =? 46)%nat eqn:Hlen; [|discriminate]. cbn [negb].
    apply Nat.eqb_eq in Hlen.
    destruct (unhexlify (subpieceFrom 6 text)) as [bytes|] eqn:Hhex; [|discriminate].
    intros [= <-]. left. repeat split; try assumption.
    pose proof (length_unhexlify _ _ Hhex) as H2.
    rewrite length_subpieceFrom in H2. lia.
  - destruct (String.length text =? 40)%nat eqn:H40.
    + apply Nat.eqb_eq in H40.
      destruct (Hash20_fromHex text) as [h|e] eqn:Hhash; [|discriminate].
      cbn [try_bind]. intros [= <-]. right. left.
      apply Hash20_fromHex_value in Hhash as (_ & Hhex & Hh).
      repeat split; try assumption. now exists h.
    + destruct (String.length text <? 41)%nat eqn:H41; [discriminate|].
      apply Nat.ltb_ge in H41.
      destruct (bool_decide (String.get 40 text = Some ":"%char)) eqn:Hcolon;
        [|discriminate].
      apply bool_decide_eq_true in Hcolon. cbn [negb].
      destruct (Hash20_fromHex (subpieceTo 40 text)) as [h|e] eqn:Hhash; [|discriminate].
      cbn [try_bind]. unfold RelativePathPiece.
      destruct (relativePathOk c (subpieceFrom 41 text)) eqn:Hpath; [|discriminate].
      cbn [try_bind]. intros [= <-]. right. right.
      apply Hash20_fromHex_value in Hhash as (_ & Hhex & Hh).
      repeat split; try assumption. now exists h.
Qed.

(** X10, witness: the text of an embedded id with a path. *)
Lemma staticParseObjectId_accepts_witness :
  exists h,
    unhexlify (subpieceTo 40 "6161616161616161616161616161616161616161:src/lib") = Some h /\
    String.length h = 20 /\
    "aaaaaaaaaaaaaaaaaaaasrc/lib"
    = makeEmbeddedProxyHash1 specCodec h
        (subpieceFrom 41 "6161616161616161616161616161616161616161:src/lib").
Proof.
  destruct (staticParseObjectId_accepts specCodec
              "6161616161616161616161616161616161616161:src/lib"
              "aaaaaaaaaaaaaaaaaaaasrc/lib" eq_refl)
    as [(Hproxy & _)|[(_ & Hlen & _)|(_ & _ & _ & _ & Hh)]].
  - discriminate Hproxy.
  - discriminate Hlen.
  - exact Hh.
Defined.

(** X11. The binary form of a parsed root id: whatever [parseRootId]
    accepts, [renderRootId] gives the 20 bytes of the commit hash back, the
    text itself when it was the binary form, and parsing these bytes gives
    the same root id. *)
Theorem renderRootId_parseRootId (text : string) (root : RootId) :
  parseRootId text = Value root ->
  exists bytes,
    renderRootId root = Value bytes /\
    String.length bytes = 20 /\
    rootValue root = hexlify bytes /\
    parseRootId bytes = Value root /\
    (String.length text = 20 -> bytes = text).
Proof.
  unfold parseRootId, hash20FromThrift, RAW_SIZE. intros Hparse.
  assert (Hbytes : exists bytes, String.length bytes = 20 /\ root = mkRootId (hexlify bytes) /\
                                 (String.length text = 20 -> bytes = text)).
  { destruct (String.length text =? 20)%nat eqn:H20.
    - apply Nat.eqb_eq in H20. cbn in Hparse. injection Hparse as <-.
      now exists text.
    - apply Nat.eqb_neq in H20.
      destruct (String.length text =? 2 * 20)%nat; [|discriminate].
      destruct (Hash20_fromHex text) as [h|e] eqn:Hhash; [|discriminate].
      cbn in Hparse. injection Hparse as <-.
      apply Hash20_fromHex_value in Hhash as (_ & _ & Hh).
      exists h. repeat split; [assumption|]. intros; contradiction. }
  destruct Hbytes as (bytes & Hlen & -> & Htext).
  exists bytes. unfold renderRootId. cbn [rootValue].
  rewrite length_hexlify, Hlen, unhexlify_hexlify. cbn.
  repeat split; try assumption.
Qed.

(** X11, witness: a commit id given as 40 hex digits. *)
Lemma renderRootId_parseRootId_witness :
  exists bytes,
    renderRootId (mkRootId "6161616161616161616161616161616161616161") = Value bytes /\
    String.length bytes = 20.
Proof.
  destruct (renderRootId_parseRootId "6161616161616161616161616161616161616161"
              (mkRootId "6161616161616161616161616161616161616161") eq_refl)
    as (bytes & Hrender & Hlen & _).
  exists bytes. split; assumption.
Defined.

(** ** The pipelines under any configuration *)

Section AnyConfig.
Context {A : Type} (store_ : NativeStore A) (config_ : Config).

Lemma writes_getBlobBatch_any (requests : list SaplingImportRequest) (mode : FetchMode)
    (Pe : Event -> Prop) (Pc : AdapterCall -> Prop) :
  Pc (CallBatch BlobImport mode (snd (prepareRequests requests))) ->
  writes (getBlobBatch store_ requests mode) Pe Pc.
Proof.
  intros Hcall. unfold getBlobBatch. apply writes_bind.
  - now apply writes_callAdapter.
  - intros answers. apply writes_forEach. intros [index content] _.
    unfold blobResolve. cbn [fst snd]. destruct content as [bytes|e]; [|apply writes_ret].
    destruct (snd (prepareRequests requests) !! index); [|apply writes_ret].
    apply writes_setAll.
Qed.

Lemma writes_getBlobFromBackingStore (hgInfo : HgProxyHash) (mode : FetchMode)
    (Pe : Event -> Prop) (Pc : AdapterCall -> Prop) :
  Pc (CallGetBlob (byteHash hgInfo) mode) ->
  writes (getBlobFromBackingStore store_ hgInfo mode) Pe Pc.
Proof.
  intros Hcall. unfold getBlobFromBackingStore. apply writes_bind.
  - now apply writes_callAdapter.
  - intros [bytes|e]; apply writes_ret.
Qed.

(** The records and calls of a retry: the fetched source is [Unknown] in
    the allow-remote configuration and [Local] or [Remote] otherwise. *)
Lemma writes_retryGetBlob (hgInfo : HgProxyHash) (context : nat) (fetch_type : FetchType)
    (Pe : Event -> Prop) (Pc : AdapterCall -> Prop) :
  Pe (FetchMiss BlobImport true) ->
  (forall fetchedSource fetchResult,
     (allowRemoteGetBatch config_ = true -> fetchedSource = Source_Unknown) ->
     Pe (BlobCounters context fetch_type fetchedSource fetchResult)) ->
  Pc CallFlush ->
  (forall mode,
     (allowRemoteGetBatch config_ = true -> mode = AllowRemote) ->
     Pc (CallGetBlob (byteHash hgInfo) mode)) ->
  writes (retryGetBlob store_ config_ hgInfo context fetch_type) Pe Pc.
Proof.
  intros Hmiss Hcounters Hflush Hget. unfold retryGetBlob, setBlobCounters.
  assert (Htail : forall (blob : Try Response) (fetchedSource : FetchedSource),
            (allowRemoteGetBatch config_ = true -> fetchedSource = Source_Unknown) ->
            writes (A:=A)
              match blob with
              | Value b =>
                  record (BlobCounters context fetch_type fetchedSource SuccessInRetry) ;;;
                  ret (Value b)
              | Exception e =>
                  (if structuredLogger config_ then record (FetchMiss BlobImport true)
                   else ret tt) ;;;
                  record (BlobCounters context fetch_type fetchedSource Failure) ;;;
                  ret (Exception e)
              end Pe Pc).
  { intros [b|e] fetchedSource Hsrc.
    - apply writes_bind; [|intros; apply writes_ret].
      apply writes_record. now apply Hcounters.
    - apply writes_bind.
      + destruct (structuredLogger config_); [now apply writes_record|apply writes_ret].
      + intros _. apply writes_bind; [|intros; apply writes_ret].
        apply writes_record. now apply Hcounters. }
  apply writes_bind; [now apply writes_callAdapter|]. intros _.
  destruct (allowRemoteGetBatch config_) eqn:Hallow.
  - apply writes_bind;
      [apply writes_getBlobFromBackingStore; now apply Hget|].
    intros blob. rewrite bool_decide_eq_false_2 by discriminate.
    rewrite andb_false_r.
    change (writes (A:=A)
              match blob with
              | Value b =>
                  record (BlobCounters context fetch_type Source_Unknown SuccessInRetry) ;;;
                  ret (Value b)
              | Exception e =>
                  (if structuredLogger config_ then record (FetchMiss BlobImport true)
                   else ret tt) ;;;
                  record (BlobCounters context fetch_type Source_Unknown Failure) ;;;
                  ret (Exception e)
              end Pe Pc).
    now apply Htail.
  - apply writes_bind;
      [apply writes_getBlobFromBackingStore; apply Hget; discriminate|].
    intros blob. apply writes_bind.
    + destruct (negb (hasValue blob) && bool_decide (LocalOnly = LocalOnly));
        [|apply writes_ret].
      apply writes_bind; [|intros; apply writes_ret].
      apply writes_getBlobFromBackingStore. apply Hget. discriminate.
    + intros [blob' mode]. cbn [fst snd]. apply Htail. discriminate.
Qed.

Lemma writes_blobRetryLoop (retryRequest : list SaplingImportRequest)
    (Pe : Event -> Prop) (Pc : AdapterCall -> Prop) :
  Pe (FetchMiss BlobImport true) ->
  (forall context fetch_type fetchedSource fetchResult,
     (allowRemoteGetBatch config_ = true -> fetchedSource = Source_Unknown) ->
     Pe (BlobCounters context fetch_type fetchedSource fetchResult)) ->
  Pc CallFlush ->
  (forall nodeId mode,
     (allowRemoteGetBatch config_ = true -> mode = AllowRemote) ->
     Pc (CallGetBlob nodeId mode)) ->
  writes (blobRetryLoop store_ config_ retryRequest) Pe Pc.
Proof.
  intros Hmiss Hcounters Hflush Hget.
  induction retryRequest as [|r rest IH]; cbn [blobRetryLoop]; [apply writes_ret|].
  apply writes_bind; [apply writes_isFulfilled|]. intros [|].
  - apply writes_bind; [|intros; exact IH]. unfold setBlobCounters.
    apply writes_record. apply Hcounters. now intros ->.
  - apply writes_bind.
    + apply writes_retryGetBlob; auto.
    + intros result. apply writes_bind; [exact IH|]. intros; apply writes_ret.
Qed.

Lemma writes_blobLocalLoop (requests : list SaplingImportRequest)
    (Pe : Event -> Prop) (Pc : AdapterCall -> Prop) :
  (forall context fetch_type,
     Pe (BlobCounters context fetch_type Source_Local Success)) ->
  writes (A:=A) (blobLocalLoop requests) Pe Pc.
Proof.
  intros Hcounters.
  induction requests as [|r rest IH]; cbn [blobLocalLoop]; [apply writes_ret|].
  apply writes_bind; [apply writes_isFulfilled|]. intros [|].
  - apply writes_bind; [|intros; exact IH]. now apply writes_record.
  - apply writes_bind; [exact IH|]. intros; apply writes_ret.
Qed.

Lemma writes_traceStarts_any (kind : ImportKind) (requests : list SaplingImportRequest)
    (Pe : Event -> Prop) (Pc : AdapterCall -> Prop) :
  (forall u, Pe (TraceStart u kind)) ->
  writes (A:=A) (traceStarts kind requests) Pe Pc.
Proof.
  intros Hstart. apply writes_forEach. intros r _. now apply writes_record.
Qed.

Lemma writes_futures (futures : list (SaplingImportRequest * Try Response))
    (Pe : Event -> Prop) (Pc : AdapterCall -> Prop) :
  writes (A:=A)
    (forEach futures (fun future => setTry (getUnique (fst future)) (snd future))) Pe Pc.
Proof. apply writes_forEach. intros future _. apply writes_setTry. Qed.

Lemma writes_auxBatch_any (kind : ImportKind) (requests : list SaplingImportRequest)
    (mode : FetchMode) (Pe : Event -> Prop) (Pc : AdapterCall -> Prop) :
  (forall k, Pe (FetchMiss k false)) ->
  (forall k sent, Pc (CallBatch k mode sent)) ->
  writes (auxBatch store_ config_ kind requests mode) Pe Pc.
Proof.
  intros Hmiss Hcall.
  assert (Hblob : writes (getBlobAuxDataBatch store_ config_ requests mode) Pe Pc).
  { unfold getBlobAuxDataBatch. apply writes_bind; [now apply writes_callAdapter|].
    intros answers. apply writes_forEach. intros [index auxTry] _.
    unfold blobAuxResolve. cbn [fst snd]. destruct auxTry as [aux|e].
    - destruct (snd (prepareRequests requests) !! index); [|apply writes_ret].
      apply writes_setAll.
    - destruct (structuredLogger config_ && negb (bool_decide (mode = RemoteOnly)));
        [now apply writes_record|apply writes_ret]. }
  destruct kind; try exact Hblob.
  unfold auxBatch, getTreeAuxDataBatch. apply writes_bind; [now apply writes_callAdapter|].
  intros answers. apply writes_forEach. intros [index auxTry] _.
  unfold treeAuxResolve. cbn [fst snd]. destruct auxTry as [aux|e].
  - destruct (snd (prepareRequests requests) !! index); [|apply writes_ret].
    apply writes_setAll.
  - destruct (structuredLogger config_); [now apply writes_record|apply writes_ret].
Qed.

Lemma writes_auxFinalLoop_any (kind : ImportKind) (retryRequest : list SaplingImportRequest)
    (Pe : Event -> Prop) (Pc : AdapterCall -> Prop) :
  (forall counter, Pe (StatIncrement counter)) ->
  (allowRemoteGetBatch config_ = false ->
   forall context, Pe (SetFetchedSource context Source_Remote kind)) ->
  writes (A:=A) (auxFinalLoop config_ kind retryRequest) Pe Pc.
Proof.
  intros Hstat Hsource.
  induction retryRequest as [|r rest IH]; cbn [auxFinalLoop]; [apply writes_ret|].
  apply writes_bind; [apply writes_isFulfilled|]. intros [|].
  - apply writes_bind.
    + destruct (allowRemoteGetBatch config_); cbn [negb]; [apply writes_ret|].
      apply writes_record. now apply Hsource.
    + intros _. apply writes_bind; [now apply writes_record|]. intros _. exact IH.
  - apply writes_bind; [now apply writes_record|]. intros _.
    apply writes_bind; [apply writes_setTry|]. intros _. exact IH.
Qed.

(** X12. In the allow-remote configuration a batch is fetched in one
    stage: every fetch that the blob pipeline and the aux pipelines ask of
    the adapter, in a batch or in a retry, is in [AllowRemote] mode, never
    [LocalOnly] or [RemoteOnly]; and the fetched source they record is
    [Unknown] for a blob and is not set for aux data. They put nothing on
    the queue and leave a fulfilled promise as it is. *)
Theorem allow_remote_single_stage (kind : ImportKind)
    (requests : list SaplingImportRequest) (s : State A) :
  allowRemoteGetBatch config_ = true ->
  effects unknownSource allowRemoteCall s
    (snd (processBlobImportRequests store_ config_ requests s)) /\
  effects unknownSource allowRemoteCall s
    (snd (processAuxImportRequests store_ config_ kind requests s)).
Proof.
  intros Hallow. split.
  - revert s. change (writes (processBlobImportRequests store_ config_ requests)
                        unknownSource allowRemoteCall).
    unfold processBlobImportRequests, blobBatchStages. rewrite Hallow.
    apply writes_bind; [now apply writes_traceStarts_any|]. intros _.
    apply writes_bind.
    { apply writes_bind; [now apply writes_getBlobBatch_any|]. intros; apply writes_ret. }
    intros retryRequest. apply writes_bind; [|intros; apply writes_futures].
    apply writes_blobRetryLoop; cbn; auto.
  - revert s. change (writes (processAuxImportRequests store_ config_ kind requests)
                        unknownSource allowRemoteCall).
    unfold processAuxImportRequests, auxBatchStages. rewrite Hallow.
    apply writes_bind; [now apply writes_traceStarts_any|]. intros _.
    apply writes_bind.
    { apply writes_bind; [now apply writes_auxBatch_any|]. intros; apply writes_ret. }
    intros retryRequest. apply writes_auxFinalLoop_any; [now cbn|].
    rewrite Hallow. discriminate.
Qed.

Lemma effects_stays_fulfilled (Pe : Event -> Prop) (Pc : AdapterCall -> Prop)
    (s s' : State A) (u : nat) :
  effects Pe Pc s s' -> isFulfilledIn u s = true -> isFulfilledIn u s' = true.
Proof.
  intros Heff Hf. destruct (isFulfilledIn u s') eqn:Hf'; [reflexivity|].
  rewrite (effects_not_fulfilled _ _ _ _ _ Heff Hf') in Hf. discriminate.
Qed.

Lemma blobBatchStages_retry (requests retry : list SaplingImportRequest) (s s2 : State A) :
  blobBatchStages store_ config_ requests s = (Value retry, s2) ->
  forall r, r ∈ requests -> isFulfilledIn (getUnique r) s2 = true \/ r ∈ retry.
Proof.
  unfold blobBatchStages. destruct (allowRemoteGetBatch config_).
  - intros Hrun r Hr. apply bind_value in Hrun as ([] & s1 & _ & Hret).
    injection Hret as <- <-. now right.
  - intros Hrun r Hr. apply bind_value in Hrun as ([] & s1 & _ & Hrun).
    apply bind_value in Hrun as (retry0 & s1a & Hloop & Hrun).
    apply bind_value in Hrun as ([] & s1b & Hremote & Hret).
    injection Hret as <- <-.
    destruct (blobLocalLoop_run requests s1) as (s1' & evs & Hloop' & Hp & _).
    rewrite Hloop in Hloop'. injection Hloop' as -> <-.
    destruct (isFulfilledIn (getUnique r) s1) eqn:Hf.
    + left.
      pose proof (writes_getBlobBatch_any
                    (filter (fun r => isFulfilledIn (getUnique r) s1 = false) requests)
                    RemoteOnly anyEvent anyCall I s1a) as Heff.
      rewrite Hremote in Heff. cbn [snd] in Heff.
      apply (effects_stays_fulfilled _ _ _ _ _ Heff).
      unfold isFulfilledIn in *. now rewrite Hp.
    + right. apply list_elem_of_filter. now split.
Qed.

Lemma blobRetryLoop_covers (retryRequest : list SaplingImportRequest) :
  forall (s s' : State A) futures,
    blobRetryLoop store_ config_ retryRequest s = (Value futures, s') ->
    forall r, r ∈ retryRequest ->
      isFulfilledIn (getUnique r) s' = true \/ r ∈ futures.*1.
Proof.
  induction retryRequest as [|r0 rest IH]; intros s s' futures Hrun r Hr;
    [now apply elem_of_nil in Hr|].
  pose proof (writes_blobRetryLoop rest anyEvent anyCall I
                (fun _ _ _ _ _ => I) I (fun _ _ _ => I)) as Hrest.
  cbn [blobRetryLoop] in Hrun. unfold bind at 1, isFulfilled at 1 in Hrun.
  destruct (isFulfilledIn (getUnique r0) s) eqn:Hf.
  - apply bind_value in Hrun as ([] & s1 & Hrec & Hrun).
    apply elem_of_cons in Hr as [->|Hr]; [|now apply (IH s1 s' futures)].
    left. specialize (Hrest s1). rewrite Hrun in Hrest. cbn [snd] in Hrest.
    apply (effects_stays_fulfilled _ _ _ _ _ Hrest).
    unfold setBlobCounters, record in Hrec. injection Hrec as <-. exact Hf.
  - apply bind_value in Hrun as (res & s1 & Hretry & Hrun).
    apply bind_value in Hrun as (futures' & s2 & Hloop & Hret).
    injection Hret as <- <-.
    apply elem_of_cons in Hr as [->|Hr].
    + right. cbn. apply list_elem_of_here.
    + destruct (IH s1 s2 futures' Hloop r Hr) as [?|?]; [now left|].
      right. cbn. now apply list_elem_of_further.
Qed.

Lemma futures_all_set (futures : list (SaplingImportRequest * Try Response)) :
  forall s s' : State A,
    forEach futures (fun future => setTry (getUnique (fst future)) (snd future)) s
    = (Value tt, s') ->
    promises s ⊆ promises s' /\
    forall r, r ∈ futures.*1 -> isFulfilledIn (getUnique r) s' = true.
Proof.
  induction futures as [|[r0 res] rest IH]; intros s s' Hrun.
  - injection Hrun as <-. split; [reflexivity|]. intros r Hr. now apply elem_of_nil in Hr.
  - cbn [forEach] in Hrun. apply bind_value in Hrun as ([] & s1 & Hset & Hrun).
    cbn [fst snd] in Hset. apply setTry_value in Hset as [Hnone ->].
    apply IH in Hrun as [Hsub Hall]. cbn [promises] in Hsub. split.
    + etransitivity; [|exact Hsub]. now apply insert_subseteq.
    + intros r [->|Hr]%elem_of_cons; [|now apply Hall].
      assert (Hx : promises s' !! getUnique r0 = Some res)
        by (eapply lookup_weaken; [apply lookup_insert_eq|exact Hsub]).
      cbn [fst]. unfold isFulfilledIn. now rewrite Hx.
Qed.

(** X13. The blob pipeline leaves no sink behind: when
    [processBlobImportRequests] returns, in either configuration and from
    any state, the promise of every request of the batch is fulfilled, with
    a blob or with the error of its retry. *)
Theorem blob_pipeline_fulfils_all (requests : list SaplingImportRequest)
    (s s' : State A) :
  processBlobImportRequests store_ config_ requests s = (Value tt, s') ->
  forall request, request ∈ requests -> isFulfilledIn (getUnique request) s' = true.
Proof.
  unfold processBlobImportRequests. intros Hrun r Hr.
  apply bind_value in Hrun as ([] & s1 & _ & Hrun).
  apply bind_value in Hrun as (retry & s2 & Hstages & Hrun).
  apply bind_value in Hrun as (futures & s3 & Hloop & Hset).
  apply futures_all_set in Hset as [Hsub Hall].
  assert (Hmono : forall u, isFulfilledIn u s3 = true -> isFulfilledIn u s' = true).
  { intros u. unfold isFulfilledIn. destruct (promises s3 !! u) as [x|] eqn:Hx; [|discriminate].
    now rewrite (lookup_weaken _ _ _ _ Hx Hsub). }
  destruct (blobBatchStages_retry requests retry s1 s2 Hstages r Hr) as [Hf|Hretry].
  - apply Hmono.
    pose proof (writes_blobRetryLoop retry anyEvent anyCall I
                  (fun _ _ _ _ _ => I) I (fun _ _ _ => I) s2) as Heff.
    rewrite Hloop in Heff. now apply (effects_stays_fulfilled _ _ _ _ _ Heff).
  - destruct (blobRetryLoop_covers retry s2 s3 futures Hloop r Hretry) as [Hf|Hin].
    + now apply Hmono.
    + now apply Hall.
Qed.

Lemma fulfilsWith_ret {B} (b : B) (P : Try Response -> Prop) :
  fulfilsWith (ret (A:=A) b) P.
Proof. intros s u x Hx. now left. Qed.

Lemma fulfilsWith_bind {B C} (m : M A B) (k : B -> M A C) (P : Try Response -> Prop) :
  fulfilsWith m P -> (forall b, fulfilsWith (k b) P) -> fulfilsWith (bind m k) P.
Proof.
  intros Hm Hk s u x. unfold bind. specialize (Hm s u).
  destruct (m s) as [[b|e] s1]; cbn [snd] in *.
  - intros Hx. destruct (Hk b s1 u x Hx) as [H1|HP]; [now apply Hm|now right].
  - apply Hm.
Qed.

Lemma fulfilsWith_forEach {B} (l : list B) (body : B -> M A unit)
    (P : Try Response -> Prop) :
  (forall x, fulfilsWith (body x) P) -> fulfilsWith (forEach l body) P.
Proof.
  intros Hbody. induction l as [|x rest IH]; cbn [forEach]; [apply fulfilsWith_ret|].
  apply fulfilsWith_bind; [apply Hbody|]. intros _. exact IH.
Qed.

Lemma fulfilsWith_record (e : Event) (P : Try Response -> Prop) :
  fulfilsWith (record (A:=A) e) P.
Proof. intros s u x Hx. now left. Qed.

Lemma fulfilsWith_callAdapter {B} (op : A -> A * B) (c : AdapterCall)
    (P : Try Response -> Prop) :
  fulfilsWith (callAdapter op c) P.
Proof.
  intros s u x. unfold callAdapter. destruct (op (native s)) as [a' b]. now left.
Qed.

Lemma fulfilsWith_isFulfilled (u0 : nat) (P : Try Response -> Prop) :
  fulfilsWith (isFulfilled (A:=A) u0) P.
Proof. intros s u x Hx. now left. Qed.

Lemma fulfilsWith_setTry (u0 : nat) (result : Try Response) (P : Try Response -> Prop) :
  P result -> fulfilsWith (setTry (A:=A) u0 result) P.
Proof.
  intros HP s u x. unfold setTry.
  destruct (promises s !! u0) eqn:Hu0; cbn [snd promises]; [now left|].
  destruct (decide (u0 = u)) as [->|Hne].
  - rewrite lookup_insert_eq. intros [= <-]. now right.
  - rewrite lookup_insert_ne by assumption. now left.
Qed.

Lemma fulfilsWith_auxBatch (kind : ImportKind) (requests : list SaplingImportRequest)
    (mode : FetchMode) :
  fulfilsWith (auxBatch store_ config_ kind requests mode) (fun x => hasValue x = true).
Proof.
  assert (Hblob : fulfilsWith (getBlobAuxDataBatch store_ config_ requests mode)
                    (fun x => hasValue x = true)).
  { unfold getBlobAuxDataBatch. apply fulfilsWith_bind; [apply fulfilsWith_callAdapter|].
    intros answers. apply fulfilsWith_forEach. intros [index auxTry].
    unfold blobAuxResolve. cbn [fst snd]. destruct auxTry as [aux|e].
    - destruct (snd (prepareRequests requests) !! index); [|apply fulfilsWith_ret].
      apply fulfilsWith_forEach. intros r. now apply fulfilsWith_setTry.
    - destruct (structuredLogger config_ && negb (bool_decide (mode = RemoteOnly)));
        [apply fulfilsWith_record|apply fulfilsWith_ret]. }
  destruct kind; try exact Hblob.
  unfold auxBatch, getTreeAuxDataBatch.
  apply fulfilsWith_bind; [apply fulfilsWith_callAdapter|].
  intros answers. apply fulfilsWith_forEach. intros [index auxTry].
  unfold treeAuxResolve. cbn [fst snd]. destruct auxTry as [aux|e].
  - destruct (snd (prepareRequests requests) !! index); [|apply fulfilsWith_ret].
    apply fulfilsWith_forEach. intros r. now apply fulfilsWith_setTry.
  - destruct (structuredLogger config_); [apply fulfilsWith_record|apply fulfilsWith_ret].
Qed.

Lemma fulfilsWith_auxLocalLoop (kind : ImportKind) (requests : list SaplingImportRequest)
    (P : Try Response -> Prop) :
  fulfilsWith (A:=A) (auxLocalLoop kind requests) P.
Proof.
  induction requests as [|r rest IH]; cbn [auxLocalLoop]; [apply fulfilsWith_ret|].
  apply fulfilsWith_bind; [apply fulfilsWith_isFulfilled|]. intros [|].
  - apply fulfilsWith_bind; [apply fulfilsWith_record|]. intros _.
    apply fulfilsWith_bind; [apply fulfilsWith_record|]. intros _. exact IH.
  - apply fulfilsWith_bind; [exact IH|]. intros; apply fulfilsWith_ret.
Qed.

Lemma fulfilsWith_auxFinalLoop (kind : ImportKind) (retryRequest : list SaplingImportRequest) :
  fulfilsWith (A:=A) (auxFinalLoop config_ kind retryRequest) (fun x => hasValue x = true).
Proof.
  induction retryRequest as [|r rest IH]; cbn [auxFinalLoop]; [apply fulfilsWith_ret|].
  apply fulfilsWith_bind; [apply fulfilsWith_isFulfilled|]. intros [|].
  - apply fulfilsWith_bind.
    + destruct (negb (allowRemoteGetBatch config_));
        [apply fulfilsWith_record|apply fulfilsWith_ret].
    + intros _. apply fulfilsWith_bind; [apply fulfilsWith_record|]. intros _. exact IH.
  - apply fulfilsWith_bind; [apply fulfilsWith_record|]. intros _.
    apply fulfilsWith_bind; [now apply fulfilsWith_setTry|]. intros _. exact IH.
Qed.

(** X14. The aux pipelines never fail a sink: whatever the adapter
    answers, and whether the pipeline returns or throws, every promise that
    [processBlobAuxImportRequests] or [processTreeAuxImportRequests] fulfils
    gets a value, the aux data or the null pointer, and no exception; a
    promise that was fulfilled keeps its result. When the pipeline returns,
    the promise of every request of the batch is fulfilled. *)
Theorem aux_sinks_get_values (kind : ImportKind) (requests : list SaplingImportRequest)
    (s : State A) :
  kind = BlobAuxImport \/ kind = TreeAuxImport ->
  (forall (u : nat) (x : Try Response),
     promises (snd (processAuxImportRequests store_ config_ kind requests s)) !! u = Some x ->
     promises s !! u = Some x \/ hasValue x = true) /\
  (forall s' : State A,
     processAuxImportRequests store_ config_ kind requests s = (Value tt, s') ->
     forall request, request ∈ requests ->
       isFulfilledIn (getUnique request) s' = true).
Proof.
  intros Hkind. split.
  - revert s. change (fulfilsWith (processAuxImportRequests store_ config_ kind requests)
                        (fun x => hasValue x = true)).
    unfold processAuxImportRequests, traceStarts.
    apply fulfilsWith_bind.
    { apply fulfilsWith_forEach. intros r. apply fulfilsWith_record. }
    intros _. apply fulfilsWith_bind; [|intros; apply fulfilsWith_auxFinalLoop].
    unfold auxBatchStages. destruct (allowRemoteGetBatch config_).
    + apply fulfilsWith_bind; [apply fulfilsWith_auxBatch|]. intros; apply fulfilsWith_ret.
    + apply fulfilsWith_bind; [apply fulfilsWith_auxBatch|]. intros _.
      apply fulfilsWith_bind; [apply fulfilsWith_auxLocalLoop|]. intros retry.
      apply fulfilsWith_bind; [apply fulfilsWith_auxBatch|]. intros; apply fulfilsWith_ret.
  - intros s' Hrun r Hr. unfold processAuxImportRequests in Hrun.
    apply bind_value in Hrun as ([] & s1 & _ & Hrun).
    apply bind_value in Hrun as (retry & s2 & Hstages & Hfinal).
    destruct (auxFinalLoop_run config_ kind retry s2) as (s3 & Hfinal' & _ & _ & Hsub & Hnull).
    rewrite Hfinal in Hfinal'. injection Hfinal' as <-.
    destruct (isFulfilledIn (getUnique r) s2) eqn:Hf.
    + unfold isFulfilledIn in *.
      destruct (promises s2 !! getUnique r) as [x|] eqn:Hx; [|discriminate].
      now rewrite (lookup_weaken _ _ _ _ Hx Hsub).
    + pose proof (auxBatchStages_retry store_ config_ kind requests retry s1 s2 Hkind
                    Hstages r Hr Hf) as Hin.
      unfold isFulfilledIn. now rewrite (Hnull r Hin Hf).
Qed.

End AnyConfig.

(** X12, witness: a blob that the sample adapter holds, fetched in the
    allow-remote configuration. *)
Lemma allow_remote_single_stage_witness :
  let config_ := mkConfig true true true in
  let a := mkSample [("n1", "one")] [] [] 0 [] in
  effects unknownSource allowRemoteCall (initialState a)
    (snd (processBlobImportRequests sampleStore config_
            [sampleRequest 1 BlobImport "n1" 0] (initialState a))).
Proof.
  intros config_ a.
  exact (proj1 (allow_remote_single_stage sampleStore config_ BlobAuxImport
                  [sampleRequest 1 BlobImport "n1" 0] (initialState a) eq_refl)).
Defined.

(** X13, witness: a blob that the sample adapter does not hold; its sink
    is fulfilled with the error of the retry. *)
Lemma blob_pipeline_fulfils_all_witness :
  let config_ := mkConfig false true true in
  let a := mkSample [] [] [] 0 [] in
  isFulfilledIn 1
    (snd (processBlobImportRequests sampleStore config_
            [sampleRequest 1 BlobImport "n1" 0] (initialState a))) = true.
Proof.
  intros config_ a.
  apply (blob_pipeline_fulfils_all sampleStore config_
           [sampleRequest 1 BlobImport "n1" 0] (initialState a)
           (snd (processBlobImportRequests sampleStore config_
                   [sampleRequest 1 BlobImport "n1" 0] (initialState a)))
           eq_refl (sampleRequest 1 BlobImport "n1" 0)).
  apply list_elem_of_here.
Defined.

(** X14, witness: a tree-aux request that the sample adapter cannot
    answer. *)
Lemma aux_sinks_get_values_witness :
  let config_ := mkConfig false true true in
  let a := mkSample [] [] [] 0 [] in
  isFulfilledIn 2
    (snd (processAuxImportRequests sampleStore config_ TreeAuxImport
            [sampleRequest 2 TreeAuxImport "n2" 0] (initialState a))) = true.
Proof.
  intros config_ a.
  apply (proj2 (aux_sinks_get_values sampleStore config_ TreeAuxImport
                  [sampleRequest 2 TreeAuxImport "n2" 0] (initialState a)
                  (or_intror eq_refl))
           (snd (processAuxImportRequests sampleStore config_ TreeAuxImport
                   [sampleRequest 2 TreeAuxImport "n2" 0] (initialState a)))
           eq_refl (sampleRequest 2 TreeAuxImport "n2" 0)).
  apply list_elem_of_here.
Defined.

(** ** The public fetch operations *)

Section FetchApi.
Context {A : Type} (store_ : NativeStore A) (config_ : Config) (dogfoodingHost : bool).
Context (load : ObjectId -> Try HgProxyHash).

Lemma getBlob_run (id : ObjectId) (contextCause : nat) (s : State A) :
  match load id with
  | Exception e =>
      getBlob store_ dogfoodingHost load id contextCause s
      = (Exception e,
         mkState (promises s) (events s ++ [MissingProxyHash]) (calls s) (native s)
                 (queue s) (nextUnique s))
  | Value proxy =>
      let out := getBlob store_ dogfoodingHost load id contextCause s in
      calls (snd out) = calls s ++ [CallGetBlob (byteHash proxy) LocalOnly] /\
      native (snd out) = fst (store_getBlob store_ (native s) (byteHash proxy) LocalOnly) /\
      promises (snd out) = promises s /\
      match snd (store_getBlob store_ (native s) (byteHash proxy) LocalOnly) with
      | Value bytes =>
          fst out = Value (ReadyBlob (BlobPtr bytes) FromDiskCache) /\
          queue (snd out) = queue s /\ nextUnique (snd out) = nextUnique s
      | Exception _ =>
          fst out = Value (QueuedBlob (nextUnique s)) /\
          queue (snd out)
          = queue s ++ [mkRequest (nextUnique s) BlobImport id proxy contextCause Fetch] /\
          nextUnique (snd out) = S (nextUnique s) /\
          events (snd out) = events s ++ [TraceQueue (nextUnique s) BlobImport]
      end
  end.
Proof.
  unfold getBlob. destruct (load id) as [proxy|e]; [|reflexivity].
  unfold getBlobLocal, getBlobFromBackingStore, getBlobEnqueue, generateUniqueID, enqueue,
    callAdapter, bind, ret, record.
  cbn [promises events calls native queue nextUnique].
  destruct (store_getBlob store_ (native s) (byteHash proxy) LocalOnly) as [a' [bytes|e]];
    cbn [promises events calls native queue nextUnique fst snd].
  - destruct dogfoodingHost; cbn [promises events calls native queue nextUnique fst snd];
      repeat split.
  - repeat split.
Qed.

(** X15. The three outcomes of [getBlob]. A proxy hash that does not load
    is reported and rethrown before any call to the adapter. A blob that
    the [LocalOnly] call finds is returned with origin [FromDiskCache] and
    nothing is put on the queue. Otherwise one blob request with a fresh
    unique id, the id and cause given and fetch type [Fetch] goes to the
    end of the queue, with a [QUEUE] trace event. The one call made to the
    adapter is the [LocalOnly] one, and no promise changes. *)
Theorem getBlob_outcomes (id : ObjectId) (contextCause : nat) (s : State A) :
  match load id with
  | Exception e =>
      getBlob store_ dogfoodingHost load id contextCause s
      = (Exception e,
         mkState (promises s) (events s ++ [MissingProxyHash]) (calls s) (native s)
                 (queue s) (nextUnique s))
  | Value proxy =>
      let out := getBlob store_ dogfoodingHost load id contextCause s in
      calls (snd out) = calls s ++ [CallGetBlob (byteHash proxy) LocalOnly] /\
      native (snd out) = fst (store_getBlob store_ (native s) (byteHash proxy) LocalOnly) /\
      promises (snd out) = promises s /\
      match snd (store_getBlob store_ (native s) (byteHash proxy) LocalOnly) with
      | Value bytes =>
          fst out = Value (ReadyBlob (BlobPtr bytes) FromDiskCache) /\
          queue (snd out) = queue s /\ nextUnique (snd out) = nextUnique s
      | Exception _ =>
          fst out = Value (QueuedBlob (nextUnique s)) /\
          queue (snd out)
          = queue s ++ [mkRequest (nextUnique s) BlobImport id proxy contextCause Fetch] /\
          nextUnique (snd out) = S (nextUnique s) /\
          events (snd out) = events s ++ [TraceQueue (nextUnique s) BlobImport]
      end
  end.
Proof.
  unfold getBlob. destruct (load id) as [proxy|e]; [|reflexivity].
  unfold getBlobLocal, getBlobFromBackingStore, getBlobEnqueue, generateUniqueID, enqueue,
    callAdapter, bind, ret, record.
  cbn [promises events calls native queue nextUnique].
  destruct (store_getBlob store_ (native s) (byteHash proxy) LocalOnly) as [a' [bytes|e]];
    cbn [promises events calls native queue nextUnique fst snd].
  - destruct dogfoodingHost; cbn [promises events calls native queue nextUnique fst snd];
      repeat split.
  - repeat split.
Qed.

Lemma prefetchLoop_run (contextCause : nat) (ids : list ObjectId) :
  forall (proxyHashes : list HgProxyHash) (s : State A),
    length proxyHashes = length ids ->
    prefetchLoop ids proxyHashes contextCause s
    = (Value (QueuedBlob <$> seq (nextUnique s) (length ids)),
       mkState (promises s)
         (events s ++ ((fun u => TraceQueue u BlobImport) <$> seq (nextUnique s) (length ids)))
         (calls s) (native s)
         (queue s ++ imap (fun i entry =>
                             mkRequest (nextUnique s + i) BlobImport (fst entry) (snd entry)
                                       contextCause Prefetch)
                          (zip ids proxyHashes))
         (nextUnique s + length ids)).
Proof.
  induction ids as [|id ids IH]; intros proxyHashes s Hlen.
  - destruct s. cbn. now rewrite !app_nil_r, Nat.add_0_r.
  - destruct proxyHashes as [|proxy proxyHashes]; [discriminate|].
    injection Hlen as Hlen. cbn [prefetchLoop].
    unfold getBlobEnqueue, generateUniqueID, enqueue, bind at 1 2 3 4, ret at 1, record.
    cbn [promises events calls native queue nextUnique].
    unfold bind at 1. rewrite IH by assumption.
    cbn [promises events calls native queue nextUnique ret bind].
    unfold ret. apply (f_equal2 pair); [reflexivity|].
    f_equal.
    + rewrite <- app_assoc. reflexivity.
    + rewrite <- app_assoc. cbn [app zip zip_with imap fst snd]. f_equal.
      rewrite Nat.add_0_r. f_equal.
      apply imap_ext. intros i entry _. cbn. f_equal. lia.
    + cbn [length]. lia.
Qed.

(** X16. [prefetchBlobs] checks nothing locally: it makes no call to the
    adapter and fulfils no promise, and puts one blob request of fetch type
    [Prefetch] on the queue for every id, in order, with consecutive fresh
    unique ids and a [QUEUE] trace event each. *)
Theorem prefetchBlobs_enqueues (getBatch : list ObjectId -> Try (list HgProxyHash))
    (ids : list ObjectId) (proxyHashes : list HgProxyHash) (contextCause : nat)
    (s : State A) :
  getBatch ids = Value proxyHashes -> length proxyHashes = length ids ->
  exists s',
    prefetchBlobs getBatch ids contextCause s
    = (Value (QueuedBlob <$> seq (nextUnique s) (length ids)), s') /\
    calls s' = calls s /\ native s' = native s /\ promises s' = promises s /\
    events s' = events s ++ ((fun u => TraceQueue u BlobImport)
                               <$> seq (nextUnique s) (length ids)) /\
    queue s'
    = queue s ++ imap (fun i entry =>
                         mkRequest (nextUnique s + i) BlobImport (fst entry) (snd entry)
                                   contextCause Prefetch)
                      (zip ids proxyHashes) /\
    nextUnique s' = nextUnique s + length ids.
Proof.
  intros Hbatch Hlen. unfold prefetchBlobs. rewrite Hbatch.
  rewrite (prefetchLoop_run contextCause ids proxyHashes s Hlen).
  eexists. split; [reflexivity|]. repeat split.
Qed.

(** X17. A blob request that [getBlob] put on the queue and that
    [dropAllPendingRequestsFromQueue] then drops is failed with
    "Request forcibly dropped": the drop counts it with the requests that
    were queued before, empties the queue and fulfils its promise with that
    error. *)
Theorem getBlob_then_drop (id : ObjectId) (contextCause : nat) (s : State A)
    (proxy : HgProxyHash) (e : exn) :
  load id = Value proxy ->
  snd (store_getBlob store_ (native s) (byteHash proxy) LocalOnly) = Exception e ->
  promises s !! nextUnique s = None ->
  let out := getBlob store_ dogfoodingHost load id contextCause s in
  fst out = Value (QueuedBlob (nextUnique s)) /\
  exists s',
    dropAllPendingRequestsFromQueue (snd out) = (Value (S (length (queue s))), s') /\
    queue s' = [] /\
    promises s' !! nextUnique s = Some forciblyDropped.
Proof.
  intros Hload Hmiss Hfresh out.
  pose proof (getBlob_run id contextCause s) as Hout. rewrite Hload in Hout.
  fold out in Hout. cbn zeta in Hout. rewrite Hmiss in Hout.
  destruct Hout as (_ & _ & Hp & Hfst & Hq & _). split; [exact Hfst|].
  destruct (dropAllPendingRequestsFromQueue_run (snd out)) as (s' & Hrun & Hempty & Hdrop & _).
  exists s'. rewrite Hrun, Hq, length_app. cbn [length].
  replace (length (queue s) + 1) with (S (length (queue s))) by lia.
  split; [reflexivity|]. split; [exact Hempty|].
  apply (Hdrop (mkRequest (nextUnique s) BlobImport id proxy contextCause Fetch)).
  - rewrite Hq. apply elem_of_app. right. apply list_elem_of_here.
  - now left.
  - cbn [getUnique]. now rewrite Hp.
Qed.

(** X18. The outcomes of [getBlobAuxData] besides the one of a switched-off
    fetch. A proxy hash that does not load is reported and rethrown before
    any call to the adapter. Aux data that the local-only lookup finds are
    returned with origin [FromDiskCache], whatever the configuration, and
    nothing is queued. With [fetchHgAuxMetadata] on, a miss puts one
    blob-aux request with a fresh unique id on the queue. *)
Theorem getBlobAuxData_outcomes (id : ObjectId) (contextCause : nat) (s : State A) :
  match load id with
  | Exception e =>
      getBlobAuxData store_ config_ load id contextCause s
      = (Exception e,
         mkState (promises s) (events s ++ [MissingProxyHash]) (calls s) (native s)
                 (queue s) (nextUnique s))
  | Value proxy =>
      match store_getBlobAuxData store_ (native s) (byteHash proxy) true with
      | (a', Value aux) =>
          getBlobAuxData store_ config_ load id contextCause s
          = (Value (ReadyAux (Some (mkBlobAux (content_sha1 aux) (content_blake3 aux)
                                              (total_size aux))) FromDiskCache),
             mkState (promises s)
                     (events s ++ [StatIncrement "fetchBlobAuxDataSuccess";
                                   StatIncrement "fetchBlobAuxDataLocal"])
                     (calls s ++ [CallGetBlobAuxData (byteHash proxy) true])
                     a' (queue s) (nextUnique s))
      | (a', Exception _) =>
          fetchHgAuxMetadata config_ = true ->
          getBlobAuxData store_ config_ load id contextCause s
          = (Value (QueuedAux (nextUnique s)),
             mkState (promises s)
                     (events s ++ [TraceQueue (nextUnique s) BlobAuxImport])
                     (calls s ++ [CallGetBlobAuxData (byteHash proxy) true])
                     a'
                     (queue s ++ [mkRequest (nextUnique s) BlobAuxImport id proxy
                                            contextCause Fetch])
                     (S (nextUnique s)))
      end
  end.
Proof.
  unfold getBlobAuxData. destruct (load id) as [proxy|e]; [|reflexivity].
  unfold getLocalBlobAuxData, getBlobAuxDataEnqueue, generateUniqueID, enqueue,
    callAdapter, bind, ret, record.
  cbn [promises events calls native queue nextUnique].
  destruct (store_getBlobAuxData store_ (native s) (byteHash proxy) true) as [a' [aux|e]];
    cbn [promises events calls native queue nextUnique fst snd].
  - now rewrite <- app_assoc.
  - intros ->. reflexivity.
Qed.

End FetchApi.

(** X17, witness: a blob that the sample adapter does not hold locally,
    asked for and dropped. *)
Lemma getBlob_then_drop_witness :
  let a := mkSample [] [] [("aaaaaaaaaaaaaaaaaaaa", "two")] 0 [] in
  let out := getBlob sampleStore false (loadEmbedded specCodec)
               "aaaaaaaaaaaaaaaaaaaa" 0 (initialState a) in
  fst out = Value (QueuedBlob 0) /\
  exists s',
    dropAllPendingRequestsFromQueue (snd out) = (Value 1, s') /\
    queue s' = [] /\
    promises s' !! 0 = Some forciblyDropped.
Proof.
  intros a.
  exact (getBlob_then_drop sampleStore false (loadEmbedded specCodec)
           "aaaaaaaaaaaaaaaaaaaa" 0 (initialState a)
           (mkProxyHash "aaaaaaaaaaaaaaaaaaaa" "") (fetch_error "not found")
           eq_refl eq_refl eq_refl).
Defined.

(** X16, witness: two ids prefetched. *)
Lemma prefetchBlobs_enqueues_witness :
  exists s',
    prefetchBlobs (fun ids : list ObjectId => Value (map (fun id => mkProxyHash id "") ids))
      ["aaaaaaaaaaaaaaaaaaaa"; "bbbbbbbbbbbbbbbbbbbb"] 7 (initialState tt)
    = (Value [QueuedBlob 0; QueuedBlob 1], s') /\
    calls s' = [] /\ length (queue s') = 2.
Proof.
  destruct (prefetchBlobs_enqueues
              (fun ids : list ObjectId => Value (map (fun id => mkProxyHash id "") ids))
              ["aaaaaaaaaaaaaaaaaaaa"; "bbbbbbbbbbbbbbbbbbbb"]
              [mkProxyHash "aaaaaaaaaaaaaaaaaaaa" ""; mkProxyHash "bbbbbbbbbbbbbbbbbbbb" ""]
              7 (initialState tt) eq_refl eq_refl)
    as (s' & Hrun & Hc & _ & _ & _ & Hq & _).
  exists s'. split; [exact Hrun|]. split; [exact Hc|]. now rewrite Hq.
Defined.

(** ** Grouping keeps every request *)

Lemma flat_map_mapAdd (m : ImportRequestsMap) (n : string) (r : SaplingImportRequest) :
  flat_map snd (mapAdd n r m) ≡ₚ flat_map snd m ++ [r].
Proof.
  induction m as [|[n0 l] rest IH]; cbn [mapAdd flat_map]; [reflexivity|].
  case_decide; cbn [flat_map snd].
  - rewrite <- !app_assoc. apply Permutation_app_head. apply Permutation_app_comm.
  - rewrite IH. now rewrite app_assoc.
Qed.

(** X19. The grouping of [prepareRequests] is a partition of the batch by
    node id: the groups together hold the import requests of the batch,
    each once; no two groups have the same node id; and the group of a node
    id is not empty and holds the requests of that node id, in the order of
    the batch. *)
Theorem prepareRequests_partition (importRequests : list SaplingImportRequest) :
  flat_map snd (fst (prepareRequests importRequests)) ≡ₚ importRequests /\
  NoDup ((fst (prepareRequests importRequests)).*1) /\
  forall (nodeId : string) (group : list SaplingImportRequest),
    (nodeId, group) ∈ fst (prepareRequests importRequests) ->
    group <> [] /\ group = sameNode nodeId importRequests.
Proof.
  cbn [prepareRequests fst]. split; [|split].
  - induction importRequests as [|r l IH] using rev_ind; [reflexivity|].
    rewrite groupRequests_snoc, flat_map_mapAdd, IH. reflexivity.
  - apply keys_groupRequests_NoDup.
  - intros nodeId group Hin.
    pose proof (mapFind_elem_of _ _ _ (keys_groupRequests_NoDup importRequests) Hin) as Hfind.
    rewrite mapFind_groupRequests in Hfind.
    destruct (sameNode nodeId importRequests) as [|r rs] eqn:Hsame; [discriminate|].
    injection Hfind as <-. split; [discriminate|reflexivity].
Qed.

(** ** Dropping the queue twice *)

(** X20. [dropAllPendingRequestsFromQueue] never throws and never changes
    a fulfilled promise, a record or a call; once it has run, the queue is
    empty, and a second run returns 0 and changes nothing. *)
Theorem drop_twice {A : Type} (s : State A) :
  let out1 := dropAllPendingRequestsFromQueue s in
  let out2 := dropAllPendingRequestsFromQueue (snd out1) in
  fst out1 = Value (length (queue s)) /\
  queue (snd out1) = [] /\
  events (snd out1) = events s /\ calls (snd out1) = calls s /\
  (forall (u : nat) (x : Try Response),
     promises s !! u = Some x -> promises (snd out1) !! u = Some x) /\
  out2 = (Value 0, snd out1).
Proof.
  assert (Hrun : forall s0 : State A,
            dropAllPendingRequestsFromQueue s0
            = (Value (length (queue s0)),
               mkState (fold_left dropOne (queue s0) (promises s0)) (events s0) (calls s0)
                       (native s0) [] (nextUnique s0))).
  { intros s0. unfold dropAllPendingRequestsFromQueue, combineAndClearRequestQueues.
    unfold bind at 1. unfold bind at 1. rewrite dropLoop_run. reflexivity. }
  intros out1 out2. subst out2 out1. rewrite !Hrun. cbn [fst snd queue events calls promises
                                                         native nextUnique fold_left length].
  repeat split. intros u x. apply dropOne_keeps.
Qed.

(** ** The table of outstanding events *)

Lemma lastEventOf_snoc (u : nat) (published : list HgImportTraceEvent)
    (event : HgImportTraceEvent) :
  lastEventOf u (published ++ [event])
  = if decide (traceUnique event = u) then Some event else lastEventOf u published.
Proof.
  unfold lastEventOf. rewrite filter_app. case_decide as Hu.
  - rewrite filter_cons_True by assumption. rewrite filter_nil. apply last_snoc.
  - rewrite filter_cons_False by assumption. rewrite filter_nil. now rewrite app_nil_r.
Qed.

Lemma processHgEvents_snoc (maxEvents : nat) (published : list HgImportTraceEvent)
    (event : HgImportTraceEvent) (s : TraceState) :
  processHgEvents maxEvents (published ++ [event]) s
  = processHgEvent maxEvents event (processHgEvents maxEvents published s).
Proof. unfold processHgEvents. now rewrite fold_left_app. Qed.

(** X21. The table of outstanding events follows the last event of each
    request: after any sequence of published events, a request is in the
    table exactly when its last event is a [QUEUE] or a [START], and the
    table holds that event; a request whose last event is a [FINISH] is not
    in it, so the table is empty once every request has finished. The
    activity buffer of a new store holds the last events published, at most
    as many as its size. *)
Theorem processHgEvents_outstanding (maxEvents : nat)
    (published : list HgImportTraceEvent) (s : TraceState) :
  (forall u : nat,
     outstandingHgEvents (processHgEvents maxEvents published s) !! u
     = match lastEventOf u published with
       | Some event => if decide (eventType event = FINISH) then None else Some event
       | None => outstandingHgEvents s !! u
       end) /\
  (activityBuffer s = [] ->
   activityBuffer (processHgEvents maxEvents published s)
   = drop (length published - maxEvents) published).
Proof.
  induction published as [|event published [IHtable IHbuffer]] using rev_ind.
  - split; [reflexivity|]. intros Hempty. unfold processHgEvents. cbn. exact Hempty.
  - rewrite processHgEvents_snoc. split.
    + intros u. rewrite lastEventOf_snoc. unfold processHgEvent. cbn [outstandingHgEvents].
      case_decide as Hu.
      * subst u. destruct (eventType event); cbn.
        -- apply lookup_insert_eq.
        -- apply lookup_insert_eq.
        -- apply lookup_delete_eq.
      * destruct (eventType event).
        -- rewrite lookup_insert_ne by assumption. apply IHtable.
        -- rewrite lookup_insert_ne by assumption. apply IHtable.
        -- rewrite lookup_delete_ne by assumption. apply IHtable.
    + intros Hempty. unfold processHgEvent. cbn [activityBuffer]. unfold addEvent.
      rewrite (IHbuffer Hempty), length_app, length_drop, length_app. cbn [length].
      rewrite <- drop_app_le by lia. rewrite drop_drop. f_equal. lia.
Qed.

(** ** The caching policy *)

(** X22. The caching policy is the set of its flags: with the three
    enumerators on bits of their own and [NoCaching] zero, each bit of the
    policy that [constructLocalStoreCachingPolicy] gives is the
    configuration value of its flag, and every other bit is clear. *)
Theorem cachingPolicy_bits (trees blobs blobAuxData : N)
    (shouldCacheTrees shouldCacheBlobs shouldCacheBlobAuxData : bool) :
  trees <> blobs -> trees <> blobAuxData -> blobs <> blobAuxData ->
  let policy := mkPolicy 0 (2 ^ trees) (2 ^ blobs) (2 ^ blobAuxData) in
  let result := constructLocalStoreCachingPolicy policy shouldCacheTrees
                  shouldCacheBlobs shouldCacheBlobAuxData in
  N.testbit result trees = shouldCacheTrees /\
  N.testbit result blobs = shouldCacheBlobs /\
  N.testbit result blobAuxData = shouldCacheBlobAuxData /\
  forall bit, bit <> trees -> bit <> blobs -> bit <> blobAuxData ->
              N.testbit result bit = false.
Proof.
  intros Htb Hta Hba policy result.
  assert (Hbit : forall bit,
            N.testbit result bit
            = (shouldCacheTrees && (trees =? bit)%N)
              || (shouldCacheBlobs && (blobs =? bit)%N)
              || (shouldCacheBlobAuxData && (blobAuxData =? bit)%N)).
  { intros bit. subst result policy. unfold constructLocalStoreCachingPolicy.
    cbn [Policy_NoCaching Policy_Trees Policy_Blobs Policy_BlobAuxData].
    destruct shouldCacheTrees, shouldCacheBlobs, shouldCacheBlobAuxData;
      rewrite ?N.lor_spec, ?N.pow2_bits_eqb, ?N.bits_0; cbn;
      rewrite ?orb_false_r; reflexivity. }
  assert (Hne : forall x y : N, x <> y -> (x =? y)%N = false)
    by (intros x y Hxy; now apply N.eqb_neq).
  repeat split.
  - rewrite Hbit, N.eqb_refl, !Hne by congruence.
    now rewrite !andb_false_r, !orb_false_r, andb_true_r.
  - rewrite Hbit, N.eqb_refl, !Hne by congruence.
    now rewrite !andb_false_r, orb_false_r, andb_true_r.
  - rewrite Hbit, N.eqb_refl, !Hne by congruence.
    now rewrite !andb_false_r, andb_true_r.
  - intros bit H1 H2 H3. rewrite Hbit, !Hne by congruence.
    now rewrite !andb_false_r.
Qed.

(** X22, witness: trees and blob aux data cached, blobs not, with the
    flags on bits 0, 1 and 2. *)
Lemma cachingPolicy_bits_witness :
  N.testbit (constructLocalStoreCachingPolicy (mkPolicy 0 1 2 4) true false true) 1 = false /\
  constructLocalStoreCachingPolicy (mkPolicy 0 1 2 4) true false true = 5%N.
Proof.
  split; [|reflexivity].
  exact (proj1 (proj2 (cachingPolicy_bits 0 1 2 true false true
                         ltac:(discriminate) ltac:(discriminate) ltac:(discriminate)))).
Defined.

(** ** One tree from the adapter *)

Section TreeFetchFacts.
Context {A RawTree Tree : Type} (store_ : NativeStore A) (config_ : Config).
Context (store_getTree : A -> string -> FetchMode -> A * Try RawTree).
Context (fromRawTree : RawTree -> ObjectId -> string -> Tree).

Ltac step_in :=
  repeat first [apply list_elem_of_here | apply list_elem_of_further].

Ltac step_out H :=
  repeat (apply elem_of_cons in H as [H|H]; [try discriminate H|]);
  try (now apply elem_of_nil in H).

Ltac tree_case :=
  cbn; conjuncts;
  [ split;
    [ intros Hin; step_out Hin; (split; [assumption|reflexivity])
    | intros [Hpath Hfailed]; first [discriminate Hfailed | contradiction | step_in] ]
  | split;
    [ intros [fetchedSource Hin]; step_out Hin; reflexivity
    | intros Hvalue; first [discriminate Hvalue | eexists; step_in] ]
  | intros Hallow; first [discriminate Hallow | split; intros Hin; step_out Hin]
  | intros Hallow; first [discriminate Hallow | split; intros Hin; step_out Hin] ].

(** X23. What [getTreeFromBackingStore] asks of the adapter. It flushes
    the adapter exactly when the path is the root and the [LocalOnly] fetch
    failed, so never for a tree below the root. It sets a fetched source
    exactly when it returns a tree. Without the allow-remote configuration
    it makes no [AllowRemote] fetch and never sets the source [Unknown];
    with it, it makes no [RemoteOnly] fetch and never sets the source
    [Remote]. *)
Theorem getTreeFromBackingStore_steps (path : string) (manifestId : Hash20)
    (edenTreeId : ObjectId) (a : A) :
  let out := getTreeFromBackingStore store_ config_ store_getTree fromRawTree
               path manifestId edenTreeId a in
  let steps := snd (fst out) in
  (StepFlush ∈ steps <->
   path = "" /\ hasValue (snd (store_getTree a manifestId LocalOnly)) = false) /\
  ((exists fetchedSource, StepSetFetchedSource fetchedSource ∈ steps) <->
   hasValue (snd out) = true) /\
  (allowRemoteGetBatch config_ = false ->
   (StepGetTree manifestId AllowRemote ∉ steps) /\
   (StepSetFetchedSource Source_Unknown ∉ steps)) /\
  (allowRemoteGetBatch config_ = true ->
   (StepGetTree manifestId RemoteOnly ∉ steps) /\
   (StepSetFetchedSource Source_Remote ∉ steps)).
Proof.
  unfold getTreeFromBackingStore.
  destruct (allowRemoteGetBatch config_);
    destruct (bool_decide (path = "")) eqn:Hroot;
    [apply bool_decide_eq_true in Hroot | apply bool_decide_eq_false in Hroot
    |apply bool_decide_eq_true in Hroot | apply bool_decide_eq_false in Hroot].
  - destruct (store_getTree a manifestId LocalOnly) as [a1 [raw|e]];
      cbn [hasValue negb andb fst snd].
    + tree_case.
    + rewrite bool_decide_eq_true_2 by reflexivity.
      destruct (store_getTree (store_flush store_ a1) manifestId AllowRemote)
        as [a3 [raw|e']]; tree_case.
  - destruct (store_getTree a manifestId AllowRemote) as [a1 [raw|e]] eqn:Hfirst;
      cbn [hasValue negb andb fst snd];
      rewrite ?bool_decide_eq_false_2 by discriminate; rewrite ?andb_false_r;
      destruct (store_getTree a manifestId LocalOnly) as [a0 [raw0|e0]]; tree_case.
  - destruct (store_getTree a manifestId LocalOnly) as [a1 [raw|e]];
      cbn [hasValue negb andb fst snd].
    + tree_case.
    + destruct (store_getTree (store_flush store_ a1) manifestId RemoteOnly)
        as [a3 [raw|e']]; tree_case.
  - destruct (store_getTree a manifestId LocalOnly) as [a1 [raw|e]];
      cbn [hasValue negb andb fst snd].
    + tree_case.
    + destruct (store_getTree a1 manifestId RemoteOnly) as [a3 [raw|e']]; tree_case.
Qed.

End TreeFetchFacts.

(** ** Root trees and the commit-to-tree mapping *)

Section RootTreeFacts.
Context {A RawTree Entries : Type} (store_ : NativeStore A) (config_ : Config).
Context (store_getTree : A -> string -> FetchMode -> A * Try RawTree).
Context (store_getManifestNode : A -> string -> A * option Hash20).
Context (treeEntries : RawTree -> string -> Entries) (noEntries : Entries).
Context (codec : ProxyHashCodec) (load : MemoryStorage -> ObjectId -> Try HgProxyHash).
Context (hgObjectIdFormat : HgObjectIdFormat).
Context (hg_fetch_missing_trees dogfoodingHost : bool).
Context (HgCommitToTreeFamily : KeySpace).

Local Abbreviation fetchTree :=
  (getTreeFromBackingStore store_ config_ store_getTree (fromRawTree treeEntries)).
Local Abbreviation retryTree :=
  (retryGetTree store_ config_ store_getTree treeEntries noEntries
     hg_fetch_missing_trees dogfoodingHost).
Local Abbreviation importImpl :=
  (importTreeManifestImpl store_ config_ store_getTree treeEntries noEntries codec
     hgObjectIdFormat hg_fetch_missing_trees dogfoodingHost).
Local Abbreviation importForRoot :=
  (importManifestForRoot store_ config_ store_getTree treeEntries noEntries codec
     hgObjectIdFormat hg_fetch_missing_trees dogfoodingHost HgCommitToTreeFamily).
Local Abbreviation rootTree :=
  (getRootTree store_ config_ store_getTree store_getManifestNode treeEntries noEntries
     codec load hgObjectIdFormat hg_fetch_missing_trees dogfoodingHost
     HgCommitToTreeFamily).
Local Abbreviation rootId_of := (rootObjectId codec hgObjectIdFormat).

Lemma fetchTree_hash (path : string) (manifestId : Hash20) (edenTreeId : ObjectId)
    (a : A) (t : TreeOf) :
  snd (fetchTree path manifestId edenTreeId a) = Value t -> getHash t = edenTreeId.
Proof.
  unfold getTreeFromBackingStore.
  destruct (allowRemoteGetBatch config_).
  - destruct (store_getTree a manifestId
                (if bool_decide (path = "") then LocalOnly else AllowRemote))
      as [a1 [raw|e]]; cbn [hasValue negb andb].
    + cbn. now intros [= <-].
    + destruct (bool_decide ((if bool_decide (path = "") then LocalOnly else AllowRemote)
                             = LocalOnly)).
      * destruct (store_getTree (store_flush store_ a1) manifestId AllowRemote)
          as [a3 [raw|e']]; cbn; [now intros [= <-]|discriminate].
      * cbn. discriminate.
  - destruct (store_getTree a manifestId LocalOnly) as [a1 [raw|e]];
      cbn [hasValue negb].
    + cbn. now intros [= <-].
    + destruct (store_getTree (if bool_decide (path = "") then store_flush store_ a1 else a1)
                  manifestId RemoteOnly) as [a3 [raw|e']]; cbn;
        [now intros [= <-]|discriminate].
Qed.

Lemma retryTree_hash (manifestNode : Hash20) (edenTreeID : ObjectId) (path : string)
    (type : ObjectType) (a : A) (t : TreeOf) :
  snd (retryTree manifestNode edenTreeID path type a) = Value t -> getHash t = edenTreeID.
Proof.
  unfold retryGetTree.
  destruct (bool_decide (path = "") && bool_decide (manifestNode = kZeroHash));
    [now intros [= <-]|].
  destruct (negb hg_fetch_missing_trees); [discriminate|].
  unfold retryGetTreeImpl.
  pose proof (fetchTree_hash path manifestNode edenTreeID (store_flush store_ a)) as Hfetch.
  destruct (fetchTree path manifestNode edenTreeID (store_flush store_ a))
    as [[a1 steps] [t'|e]]; cbn [snd] in *; [|discriminate].
  intros [= <-]. now apply Hfetch.
Qed.

Lemma importImpl_hash (manifestNode : Hash20) (type : ObjectType) (a : A) (t : TreeOf) :
  snd (importImpl manifestNode type a) = Value t -> getHash t = rootId_of manifestNode.
Proof.
  unfold importTreeManifestImpl.
  pose proof (fetchTree_hash "" manifestNode (rootId_of manifestNode) a) as Hfetch.
  destruct (fetchTree "" manifestNode (rootId_of manifestNode) a)
    as [[a1 steps] [t'|e]]; cbn [snd] in *.
  - intros [= <-]. now apply Hfetch.
  - pose proof (retryTree_hash manifestNode (rootId_of manifestNode) "" type a1) as Hretry.
    destruct (retryTree manifestNode (rootId_of manifestNode) "" type a1)
      as [[a2 steps2] r]; cbn [snd] in *. exact (Hretry t).
Qed.

Lemma map_AdapterStep_manifest (steps : list TreeStep) (c : string) :
  StepGetManifestNode c ∉ map AdapterStep steps.
Proof.
  intros (step & Heq & _)%list_elem_of_In%in_map_iff. discriminate.
Qed.

Lemma treeCounter_manifest (type : ObjectType) (x y z c : string) :
  StepGetManifestNode c ∉ treeCounter type x y z.
Proof.
  destruct type; cbn; intros Hin;
    repeat (apply elem_of_cons in Hin as [Hin|Hin]; [discriminate|]);
    now apply elem_of_nil in Hin.
Qed.

Lemma dogfooding_manifest (counter c : string) :
  StepGetManifestNode c ∉ dogfooding dogfoodingHost counter.
Proof.
  unfold dogfooding. destruct dogfoodingHost; intros Hin;
    repeat (apply elem_of_cons in Hin as [Hin|Hin]; [discriminate|]);
    now apply elem_of_nil in Hin.
Qed.

Lemma retryTree_manifest (manifestNode : Hash20) (edenTreeID : ObjectId) (path : string)
    (type : ObjectType) (a : A) (c : string) :
  StepGetManifestNode c ∉ snd (fst (retryTree manifestNode edenTreeID path type a)).
Proof.
  unfold retryGetTree.
  destruct (bool_decide (path = "") && bool_decide (manifestNode = kZeroHash));
    [apply not_elem_of_nil|].
  destruct (negb hg_fetch_missing_trees); [apply not_elem_of_nil|].
  unfold retryGetTreeImpl.
  destruct (fetchTree path manifestNode edenTreeID (store_flush store_ a))
    as [[a1 steps] [t'|e]]; cbn [fst snd].
  - intros [Hin|Hin]%elem_of_cons; [discriminate|].
    apply elem_of_app in Hin as [Hin|Hin]; [now apply map_AdapterStep_manifest in Hin|].
    apply elem_of_app in Hin as [Hin|Hin]; [now apply treeCounter_manifest in Hin|].
    now apply dogfooding_manifest in Hin.
  - intros [Hin|Hin]%elem_of_cons; [discriminate|].
    apply elem_of_app in Hin as [Hin|Hin]; [now apply map_AdapterStep_manifest in Hin|].
    apply elem_of_app in Hin as [Hin|Hin].
    { destruct (structuredLogger config_);
        [apply elem_of_cons in Hin as [Hin|Hin]; [discriminate|]|];
        now apply elem_of_nil in Hin. }
    apply elem_of_app in Hin as [Hin|Hin]; [now apply treeCounter_manifest in Hin|].
    now apply dogfooding_manifest in Hin.
Qed.

Lemma importImpl_manifest (manifestNode : Hash20) (type : ObjectType) (a : A) (c : string) :
  StepGetManifestNode c ∉ snd (fst (importImpl manifestNode type a)).
Proof.
  unfold importTreeManifestImpl.
  destruct (fetchTree "" manifestNode (rootId_of manifestNode) a)
    as [[a1 steps] [t'|e]]; cbn [fst snd].
  - intros Hin.
    apply elem_of_app in Hin as [Hin|Hin]; [now apply map_AdapterStep_manifest in Hin|].
    apply elem_of_app in Hin as [Hin|Hin]; [now apply treeCounter_manifest in Hin|].
    now apply dogfooding_manifest in Hin.
  - pose proof (retryTree_manifest manifestNode (rootId_of manifestNode) "" type a1 c)
      as Hretry.
    destruct (retryTree manifestNode (rootId_of manifestNode) "" type a1)
      as [[a2 steps2] r]; cbn [fst snd] in *.
    intros Hin.
    apply elem_of_app in Hin as [Hin|Hin]; [now apply map_AdapterStep_manifest in Hin|].
    apply elem_of_app in Hin as [Hin|Hin]; [now apply treeCounter_manifest in Hin|].
    apply elem_of_app in Hin as [Hin|Hin]; [now apply dogfooding_manifest in Hin|].
    contradiction.
Qed.

(** X24. [importManifestForRoot] caches the commit-to-tree mapping and
    nothing else. When it returns, the local store maps the binary commit id
    to the tree id it had for it or, when it had none, to the embedded id of
    the manifest's root tree; every other key of the store reads as before.
    From then on a further [importManifestForRoot] of the root does nothing:
    no call to the adapter, no write; and [getRootTree] of the root does not
    ask the adapter for the manifest node. *)
Theorem importManifestForRoot_caches (rootId : RootId) (manifestId : Hash20) (a a1 : A)
    (localStore_ localStore1 : MemoryStorage) (steps : list ImportStep)
    (commitId : ObjectId) :
  KeySpace_index HgCommitToTreeFamily < length localStore_ ->
  hashFromRootId rootId = Value commitId ->
  importForRoot rootId manifestId a localStore_ = (a1, localStore1, steps, Value tt) ->
  MemoryLocalStore_get HgCommitToTreeFamily commitId localStore1
  = Some (default (rootId_of manifestId)
            (MemoryLocalStore_get HgCommitToTreeFamily commitId localStore_)) /\
  (forall (other : KeySpace) (key : string),
     ~ (KeySpace_index HgCommitToTreeFamily = KeySpace_index other /\ commitId = key) ->
     MemoryLocalStore_get other key localStore1 = MemoryLocalStore_get other key localStore_) /\
  (forall (manifestId' : Hash20) (a' : A),
     importForRoot rootId manifestId' a' localStore1 = (a', localStore1, [], Value tt)) /\
  (forall (a' : A) (c : string),
     StepGetManifestNode c ∉ snd (fst (rootTree rootId a' localStore1))).
Proof.
  intros Hlen Hcommit Himport.
  assert (Hcached : exists id,
            MemoryLocalStore_get HgCommitToTreeFamily commitId localStore1 = Some id /\
            id = default (rootId_of manifestId)
                   (MemoryLocalStore_get HgCommitToTreeFamily commitId localStore_) /\
            forall (other : KeySpace) (key : string),
              ~ (KeySpace_index HgCommitToTreeFamily = KeySpace_index other /\ commitId = key) ->
              MemoryLocalStore_get other key localStore1
              = MemoryLocalStore_get other key localStore_).
  { unfold importManifestForRoot in Himport. rewrite Hcommit in Himport.
    destruct (MemoryLocalStore_get HgCommitToTreeFamily commitId localStore_)
      as [old|] eqn:Hold.
    - injection Himport as <- <- <-. exists old. now rewrite Hold.
    - pose proof (importImpl_hash manifestId Type_ManifestForRoot a) as Hhash.
      destruct (importImpl manifestId Type_ManifestForRoot a) as [[a2 steps2] [t|e]];
        cbn [snd] in *; [|discriminate].
      injection Himport as <- <- <-. rewrite (Hhash t eq_refl).
      exists (rootId_of manifestId). split; [|split; [reflexivity|]].
      + rewrite memory_get_put_frame by assumption.
        now rewrite decide_True by (split; reflexivity).
      + intros other key Hne. rewrite memory_get_put_frame by assumption.
        now rewrite decide_False by assumption. }
  destruct Hcached as (id & Hget & Hid & Hframe).
  split; [now rewrite Hget, Hid|]. split; [exact Hframe|]. split.
  - intros manifestId' a'. unfold importManifestForRoot. now rewrite Hcommit, Hget.
  - intros a' c. unfold getRootTree. rewrite Hcommit, Hget.
    destruct (load localStore1 id) as [proxy|e]; [|apply not_elem_of_nil].
    pose proof (importImpl_manifest (revHash proxy) Type_RootTree a' c) as Himpl.
    now destruct (importImpl (revHash proxy) Type_RootTree a') as [[a2 steps2] r].
Qed.

(** X25. The tree that [importTreeManifestImpl] returns has the embedded
    id of its manifest node, in the configured id format, whether the first
    fetch or the retry gave it. The null manifest node always has a root
    tree: when the adapter has none, the tree without entries is returned,
    with no retry. With [hg_fetch_missing_trees] off a failed first fetch of
    any other manifest node is not retried: the import fails without a
    flush. *)
Theorem importTreeManifestImpl_tree (manifestNode : Hash20) (type : ObjectType) (a : A) :
  let out := importImpl manifestNode type a in
  (forall t, snd out = Value t -> getHash t = rootId_of manifestNode) /\
  (manifestNode = kZeroHash -> hasValue (snd out) = true) /\
  (hasValue (snd (fetchTree "" manifestNode (rootId_of manifestNode) a)) = false ->
   (manifestNode = kZeroHash ->
    snd out = Value (mkTree noEntries (rootId_of manifestNode))) /\
   (manifestNode <> kZeroHash -> hg_fetch_missing_trees = false ->
    hasValue (snd out) = false /\
    fst (fst out) = fst (fst (fetchTree "" manifestNode (rootId_of manifestNode) a)))).
Proof.
  intros out. split; [exact (importImpl_hash manifestNode type a)|].
  subst out. unfold importTreeManifestImpl, retryGetTree.
  destruct (fetchTree "" manifestNode (rootId_of manifestNode) a)
    as [[a1 steps] [t'|e]]; cbn [fst snd hasValue].
  - split; [reflexivity|]. discriminate.
  - rewrite bool_decide_eq_true_2 by reflexivity. cbn [andb]. split.
    + intros ->. now rewrite bool_decide_eq_true_2.
    + intros _. split.
      * intros ->. now rewrite bool_decide_eq_true_2.
      * intros Hne ->. now rewrite bool_decide_eq_false_2.
Qed.

(** X26. [getRootTree] fills the mapping and then reads it. When the
    local store has no tree id for the commit and [getRootTree] returns, the
    id returned is the id of the tree, the embedded id of the manifest node
    that the adapter gave for the commit, and the store now maps the commit
    to it. A second [getRootTree], when that id loads as a proxy hash of the
    manifest node, is the import of that one tree: its steps and its result
    are those of [importTreeManifestImpl] on the manifest node, and the
    store is not written again. *)
Theorem getRootTree_caches (rootId : RootId) (a a1 : A)
    (localStore_ localStore1 : MemoryStorage) (steps : list ImportStep)
    (commitId : ObjectId) (tree : TreeOf) (id : ObjectId) :
  KeySpace_index HgCommitToTreeFamily < length localStore_ ->
  hashFromRootId rootId = Value commitId ->
  MemoryLocalStore_get HgCommitToTreeFamily commitId localStore_ = None ->
  rootTree rootId a localStore_ = (a1, localStore1, steps, Value (tree, id)) ->
  id = getHash tree /\
  MemoryLocalStore_get HgCommitToTreeFamily commitId localStore1 = Some id /\
  exists node,
    snd (store_getManifestNode a commitId) = Some node /\
    id = rootId_of node /\
    forall (proxy : HgProxyHash) (a' : A),
      load localStore1 id = Value proxy -> revHash proxy = node ->
      fst (rootTree rootId a' localStore1)
      = (fst (fst (importImpl node Type_RootTree a')), localStore1,
         snd (fst (importImpl node Type_RootTree a'))) /\
      snd (rootTree rootId a' localStore1)
      = match snd (importImpl node Type_RootTree a') with
        | Value t => Value (t, getHash t)
        | Exception e => Exception e
        end.
Proof.
  intros Hlen Hcommit Hnone Hroot.
  unfold getRootTree in Hroot. rewrite Hcommit, Hnone in Hroot.
  unfold importTreeManifest in Hroot.
  destruct (store_getManifestNode a commitId) as [a0 [node|]] eqn:Hnode; [|discriminate].
  pose proof (importImpl_hash node Type_RootTree a0) as Hhash.
  destruct (importImpl node Type_RootTree a0) as [[a2 steps2] [t|e]];
    cbn [snd] in *; [|discriminate].
  injection Hroot as <- <- <- <- <-.
  assert (Hget : MemoryLocalStore_get HgCommitToTreeFamily commitId
                   (MemoryLocalStore_put HgCommitToTreeFamily commitId (getHash t)
                      localStore_) = Some (getHash t)).
  { rewrite memory_get_put_frame by assumption.
    now rewrite decide_True by (split; reflexivity). }
  split; [reflexivity|]. split; [exact Hget|].
  exists node. split; [reflexivity|]. split; [now apply Hhash|].
  intros proxy a' Hload Hrev. unfold getRootTree. rewrite Hcommit, Hget, Hload, Hrev.
  now destruct (importImpl node Type_RootTree a') as [[a3 steps3] [t3|e3]].
Qed.

End RootTreeFacts.

(** X24, witness: the import of a manifest for a commit that the local
    store does not know. *)
Lemma importManifestForRoot_caches_witness :
  let a := mkSample [("bbbbbbbbbbbbbbbbbbbb", "")] [] [] 0 [] in
  let ks := mkKeySpace 0 "hgcommit2tree" in
  let root := mkRootId "6161616161616161616161616161616161616161" in
  let out := importManifestForRoot sampleStore (mkConfig false true true) sampleGetTree
               (fun _ _ => tt) tt specCodec HashOnly true false ks root
               "bbbbbbbbbbbbbbbbbbbb" a [∅] in
  MemoryLocalStore_get ks "aaaaaaaaaaaaaaaaaaaa" (snd (fst (fst out)))
  = Some "bbbbbbbbbbbbbbbbbbbb".
Proof.
  intros a ks root out.
  exact (proj1 (importManifestForRoot_caches sampleStore (mkConfig false true true)
                  sampleGetTree sampleGetManifestNode (fun _ _ => tt) tt specCodec
                  (fun _ => loadEmbedded specCodec) HashOnly true false ks root
                  "bbbbbbbbbbbbbbbbbbbb" a (fst (fst (fst out))) [∅] (snd (fst (fst out)))
                  (snd (fst out)) "aaaaaaaaaaaaaaaaaaaa"
                  ltac:(cbn; lia) eq_refl eq_refl)).
Defined.

(** X26, witness: the root tree of a commit that the local store does not
    know; the store then maps the commit to the id of the tree. *)
Lemma getRootTree_caches_witness :
  let a := mkSample [("bbbbbbbbbbbbbbbbbbbb", "")] [] [] 0 [] in
  let ks := mkKeySpace 0 "hgcommit2tree" in
  let root := mkRootId "6161616161616161616161616161616161616161" in
  let out := getRootTree sampleStore (mkConfig false true true) sampleGetTree
               sampleGetManifestNode (fun _ _ => tt) tt specCodec
               (fun _ => loadEmbedded specCodec) HashOnly true false ks root a [∅] in
  snd out = Value (mkTree tt "bbbbbbbbbbbbbbbbbbbb", "bbbbbbbbbbbbbbbbbbbb") /\
  MemoryLocalStore_get ks "aaaaaaaaaaaaaaaaaaaa" (snd (fst (fst out)))
  = Some "bbbbbbbbbbbbbbbbbbbb".
Proof.
  intros a ks root out. split; [reflexivity|].
  exact (proj1 (proj2 (getRootTree_caches sampleStore (mkConfig false true true)
                  sampleGetTree sampleGetManifestNode (fun _ _ => tt) tt specCodec
                  (fun _ => loadEmbedded specCodec) HashOnly true false ks root
                  a (fst (fst (fst out))) [∅] (snd (fst (fst out)))
                  (snd (fst out)) "aaaaaaaaaaaaaaaaaaaa"
                  (mkTree tt "bbbbbbbbbbbbbbbbbbbb") "bbbbbbbbbbbbbbbbbbbb"
                  ltac:(cbn; lia) eq_refl eq_refl eq_refl))).
Defined.

(** ** Comparing object ids: an equivalence *)

(** X27. [compareObjectsById] is symmetric in its answers, and
    [Identical] is transitive: under either policy the ids that compare
    [Identical] form classes. [Different] is answered under the bijective
    policy only, and for ids of different bytes. The comparison throws only
    without that policy, on ids of different bytes, with the error of the
    first proxy hash that does not load. *)
Theorem compareObjectsById_equivalence (hgBijectiveBlobIds : bool)
    (load : ObjectId -> Try HgProxyHash) :
  (forall (one two : ObjectId) (r : ObjectComparison),
     compareObjectsById hgBijectiveBlobIds load one two = Value r ->
     compareObjectsById hgBijectiveBlobIds load two one = Value r) /\
  (forall one two three : ObjectId,
     compareObjectsById hgBijectiveBlobIds load one two = Value Identical ->
     compareObjectsById hgBijectiveBlobIds load two three = Value Identical ->
     compareObjectsById hgBijectiveBlobIds load one three = Value Identical) /\
  (forall one two : ObjectId,
     compareObjectsById hgBijectiveBlobIds load one two = Value Different ->
     hgBijectiveBlobIds = true /\ one <> two) /\
  (forall (one two : ObjectId) (e : exn),
     compareObjectsById hgBijectiveBlobIds load one two = Exception e ->
     hgBijectiveBlobIds = false /\ one <> two /\
     (load one = Exception e \/ hasValue (load one) = true /\ load two = Exception e)).
Proof.
  assert (Hrun : forall one two,
            compareObjectsById hgBijectiveBlobIds load one two
            = if decide (one = two) then Value Identical
              else if hgBijectiveBlobIds then Value Different
              else match load one, load two with
                   | Value p, Value q =>
                       if decide (revHash p = revHash q) then Value Identical
                       else Value Unknown
                   | Value _, Exception e => Exception e
                   | Exception e, _ => Exception e
                   end).
  { intros one two. unfold compareObjectsById, bytesEqual.
    destruct (String.eqb_spec one two) as [->|Hne].
    - now rewrite decide_True.
    - rewrite decide_False by assumption. destruct hgBijectiveBlobIds; [reflexivity|].
      destruct (load one) as [p|e]; [|reflexivity].
      destruct (load two) as [q|e]; [|reflexivity]. cbn [try_bind].
      destruct (decide (revHash p = revHash q)) as [Heq|Hneq].
      + now rewrite bool_decide_eq_true_2.
      + now rewrite bool_decide_eq_false_2. }
  split; [|split; [|split]].
  - intros one two r. rewrite !Hrun.
    destruct (decide (one = two)) as [->|Hne]; [now rewrite decide_True|].
    rewrite (decide_False (P := two = one)) by congruence.
    destruct hgBijectiveBlobIds; [trivial|].
    destruct (load one) as [p|e], (load two) as [q|e']; try discriminate.
    destruct (decide (revHash p = revHash q)) as [Heq|Hneq].
    + now rewrite decide_True.
    + now rewrite decide_False by congruence.
  - intros one two three. rewrite !Hrun.
    destruct (decide (one = two)) as [->|H12]; [trivial|].
    destruct (decide (two = three)) as [->|H23];
      [rewrite (decide_False (P := one = three)) by assumption; trivial|].
    destruct hgBijectiveBlobIds; [discriminate|].
    destruct (load one) as [p|e]; [|discriminate].
    destruct (load two) as [q|e]; [|discriminate].
    destruct (load three) as [t|e]; [|discriminate].
    destruct (decide (revHash p = revHash q)) as [Hpq|]; [|discriminate].
    destruct (decide (revHash q = revHash t)) as [Hqt|]; [|discriminate].
    intros _ _. destruct (decide (one = three)); [reflexivity|].
    now rewrite decide_True by congruence.
  - intros one two. rewrite Hrun.
    destruct (decide (one = two)) as [->|Hne]; [discriminate|].
    destruct hgBijectiveBlobIds; [now split|].
    destruct (load one) as [p|e]; [|discriminate].
    destruct (load two) as [q|e]; [|discriminate].
    now destruct (decide (revHash p = revHash q)).
  - intros one two e. rewrite Hrun.
    destruct (decide (one = two)) as [->|Hne]; [discriminate|].
    destruct hgBijectiveBlobIds; [discriminate|].
    destruct (load one) as [p|e1].
    + destruct (load two) as [q|e2].
      * now destruct (decide (revHash p = revHash q)).
      * intros [= ->]. split; [reflexivity|]. split; [assumption|]. now right.
    + intros [= ->]. split; [reflexivity|]. split; [assumption|]. now left.
Qed.

(** ** Telemetry: the recording of fetched paths and the log of missing
      proxy hashes *)

Lemma logBackingStoreFetch_flag (regex : option (string -> bool)) (causePrefetch cause : nat)
    (hashes : list HgProxyHash) (type : ObjectType) (r : FetchRecorder) :
  isRecordingFetch (logBackingStoreFetch regex causePrefetch cause hashes type r)
  = isRecordingFetch r.
Proof. reflexivity. Qed.

Lemma logFetches_paths (regex : option (string -> bool)) (causePrefetch : nat)
    (fetches : list (nat * list HgProxyHash * ObjectType)) :
  forall r : FetchRecorder,
    isRecordingFetch (logFetches regex causePrefetch fetches r) = isRecordingFetch r /\
    forall p : string,
      p ∈ fetchedFilePaths (logFetches regex causePrefetch fetches r) <->
      p ∈ fetchedFilePaths r \/
      isRecordingFetch r = true /\
      exists cause hashes type,
        (cause, hashes, type) ∈ fetches /\ type <> Type_Tree /\ cause <> causePrefetch /\
        p ∈ path <$> hashes.
Proof.
  unfold logFetches.
  induction fetches as [|[[cause hashes] type] rest IH]; intros r; cbn [fold_left fst snd].
  - split; [reflexivity|]. intros p. split; [now left|].
    intros [?|(_ & c & h & t & Hin & _)]; [assumption|]. now apply elem_of_nil in Hin.
  - destruct (IH (logBackingStoreFetch regex causePrefetch cause hashes type r))
      as [Hflag Hpaths].
    split; [now rewrite Hflag|]. intros p. rewrite Hpaths. clear IH Hflag Hpaths.
    cbn [fst snd logBackingStoreFetch fetchedFilePaths isRecordingFetch].
    destruct (isRecordingFetch r) eqn:Hrec.
    + destruct (decide (type = Type_Tree)) as [Htree|Htree];
        destruct (decide (cause = causePrefetch)) as [Hpre|Hpre].
      all: rewrite ?(bool_decide_eq_true_2 _ Htree), ?(bool_decide_eq_false_2 _ Htree),
             ?(bool_decide_eq_true_2 _ Hpre), ?(bool_decide_eq_false_2 _ Hpre);
           cbn [negb andb].
      all: split.
      all: try (intros [Hp|(_ & c & h & t & Hin & Ht & Hc & Hp)];
                [now left|];
                right; split; [reflexivity|]; exists c, h, t;
                split; [now apply list_elem_of_further|]; now repeat split).
      all: try (intros [Hp|(_ & c & h & t & Hin & Ht & Hc & Hp)];
                [now left|];
                apply elem_of_cons in Hin as [[= -> -> ->]|Hin];
                [contradiction|];
                right; split; [reflexivity|]; exists c, h, t; now repeat split).
      * intros [Hp|(_ & c & h & t & Hin & Ht & Hc & Hp)].
        -- apply elem_of_union in Hp as [Hp|Hp]; [now left|].
           right. split; [reflexivity|]. exists cause, hashes, type.
           split; [apply list_elem_of_here|]. repeat split; try assumption.
           now apply elem_of_list_to_set in Hp.
        -- right. split; [reflexivity|]. exists c, h, t.
           split; [now apply list_elem_of_further|]. now repeat split.
      * intros [Hp|(_ & c & h & t & Hin & Ht & Hc & Hp)].
        -- left. apply elem_of_union. now left.
        -- apply elem_of_cons in Hin as [[= -> -> ->]|Hin].
           ++ left. apply elem_of_union. right. now apply elem_of_list_to_set.
           ++ right. split; [reflexivity|]. exists c, h, t. now repeat split.
    + rewrite andb_false_r. cbn [andb]. split.
      * intros [Hp|(Hf & _)]; [now left|discriminate].
      * intros [Hp|(Hf & _)]; [now left|discriminate].
Qed.

(** X28. The recording of fetched paths. Between [startRecordingFetch]
    and [stopRecordingFetch], [logBackingStoreFetch] collects the paths of
    the fetches that are no tree fetch and have a cause other than
    [Prefetch], and of no other fetch: [stopRecordingFetch] returns exactly
    these paths, with the paths left from an earlier recording, and clears
    the set. Once stopped, fetches are not recorded, and a second
    [stopRecordingFetch] returns the empty set. *)
Theorem recordingFetch_paths (logFetchPathRegex : option (string -> bool))
    (causePrefetch : nat) (fetches later : list (nat * list HgProxyHash * ObjectType))
    (r : FetchRecorder) :
  let stopped :=
    stopRecordingFetch
      (logFetches logFetchPathRegex causePrefetch fetches (startRecordingFetch r)) in
  (forall p : string,
     p ∈ fst stopped <->
     p ∈ fetchedFilePaths r \/
     exists cause hashes type,
       (cause, hashes, type) ∈ fetches /\ type <> Type_Tree /\ cause <> causePrefetch /\
       p ∈ path <$> hashes) /\
  fst (stopRecordingFetch (logFetches logFetchPathRegex causePrefetch later (snd stopped)))
  = ∅.
Proof.
  intros stopped. subst stopped. unfold stopRecordingFetch. cbn [fst snd]. split.
  - intros p.
    destruct (logFetches_paths logFetchPathRegex causePrefetch fetches
                (startRecordingFetch r)) as [_ Hpaths].
    rewrite Hpaths. cbn [startRecordingFetch fetchedFilePaths isRecordingFetch].
    split.
    + intros [?|[_ ?]]; [now left|now right].
    + intros [?|?]; [now left|right; now split].
  - match goal with |- fetchedFilePaths (logFetches _ _ _ ?r0) = _ =>
      destruct (logFetches_paths logFetchPathRegex causePrefetch later r0) as [_ Hpaths]
    end.
    apply set_eq. intros p. rewrite Hpaths. cbn [fetchedFilePaths isRecordingFetch].
    split.
    + intros [?|[? _]]; [assumption|discriminate].
    + intros Hin. now left.
Qed.

Lemma wrap64_in_range (z : Z) :
  (- 2 ^ 63 <= z < 2 ^ 63)%Z -> wrap64 z = z.
Proof.
  intros Hz. unfold wrap64. rewrite Z.mod_small; lia.
Qed.

(** X29. The log of missing proxy hashes is rate limited as long as no sum
    of a time and the configured interval leaves the 64-bit range of the
    ticks: then, whatever the times of the calls of [logMissingProxyHash],
    every event logged is at least the interval after the event logged
    before it, and the first at least the interval after the time kept at
    the start; the events logged are at times of calls, and a call at least
    the interval after the time kept is logged. *)
Theorem missingProxyHash_rate_limited (missingHgProxyHashLogInterval : Z)
    (times : list Z) (last : Z)
    (Hrange : forall t, t ∈ last :: times ->
       (- 2 ^ 63 <= t + missingHgProxyHashLogInterval < 2 ^ 63)%Z) :
  (forall (i : nat) (earlier later : Z),
     (last :: missingProxyHashLogs missingHgProxyHashLogInterval times last) !! i
     = Some earlier ->
     (last :: missingProxyHashLogs missingHgProxyHashLogInterval times last) !! S i
     = Some later ->
     (earlier + missingHgProxyHashLogInterval <= later)%Z) /\
  (forall t, t ∈ missingProxyHashLogs missingHgProxyHashLogInterval times last -> t ∈ times) /\
  (forall now rest, times = now :: rest ->
     (last + missingHgProxyHashLogInterval <= now)%Z ->
     missingProxyHashLogs missingHgProxyHashLogInterval times last
     = now :: missingProxyHashLogs missingHgProxyHashLogInterval rest now).
Proof.
  split; [|split].
  - revert last Hrange.
    induction times as [|now rest IH]; intros last Hrange i earlier later.
    + destruct i; discriminate.
    + cbn [missingProxyHashLogs]. unfold logMissingProxyHash.
      rewrite wrap64_in_range by (apply Hrange, list_elem_of_here).
      destruct (last + missingHgProxyHashLogInterval <=? now)%Z eqn:Hdue.
      * apply Z.leb_le in Hdue. destruct i as [|i].
        -- cbn. now intros [= <-] [= <-].
        -- cbn [lookup list_lookup]. apply (IH now).
           intros t Hin. apply Hrange. now apply list_elem_of_further.
      * apply IH. intros t [->|Hin]%elem_of_cons; apply Hrange.
        -- apply list_elem_of_here.
        -- now do 2 apply list_elem_of_further.
  - clear Hrange. revert last. induction times as [|now rest IH]; intros last t; cbn.
    + intros []%elem_of_nil.
    + unfold logMissingProxyHash.
      destruct (wrap64 (last + missingHgProxyHashLogInterval) <=? now)%Z.
      * intros [->|Hin]%elem_of_cons; [apply list_elem_of_here|].
        apply list_elem_of_further. now apply (IH now).
      * intros Hin. apply list_elem_of_further. now apply (IH last).
  - intros now rest -> Hdue. cbn. unfold logMissingProxyHash.
    rewrite wrap64_in_range by (apply Hrange, list_elem_of_here).
    apply Z.leb_le in Hdue. now rewrite Hdue.
Qed.

Lemma missingProxyHash_rate_limited_witness :
  missingProxyHashLogs 10 [5; 12; 15; 30]%Z 0 = [12; 30]%Z /\
  (forall (i : nat) (earlier later : Z),
     (0 :: missingProxyHashLogs 10 [5; 12; 15; 30] 0)%Z !! i = Some earlier ->
     (0 :: missingProxyHashLogs 10 [5; 12; 15; 30] 0)%Z !! S i = Some later ->
     (earlier + 10 <= later)%Z).
Proof.
  split; [reflexivity|].
  refine (proj1 (missingProxyHash_rate_limited 10 [5; 12; 15; 30]%Z 0 _)).
  intros t Hin.
  repeat (apply elem_of_cons in Hin; destruct Hin as [->|Hin]; [lia|]).
  now apply elem_of_nil in Hin.
Defined.

(** Where the sum leaves the range the limit is lost: with the time kept
    at 1 and an interval of [2 ^ 63 - 1] ticks, a call one tick later is
    logged. *)
Example missingProxyHash_overflow :
  logMissingProxyHash (2 ^ 63 - 1) 2 1 = (true, 2%Z) /\
  (2 < 1 + (2 ^ 63 - 1))%Z.
Proof.
  split; [reflexivity|lia].
Qed.

(** ** Values put in slices *)

Lemma fold_append (slices : list string) :
  forall value : string,
    fold_left (fun value slice => (value ++ slice)%string) slices value
    = (value ++ appendSlices slices)%string.
Proof.
  unfold appendSlices.
  induction slices as [|slice rest IH]; intros value; cbn [fold_left].
  - now rewrite app_string_nil_r.
  - rewrite IH, (IH ("" ++ slice)%string). cbn. now rewrite app_string_assoc.
Qed.

(** X30. A value put in slices is stored as the slices joined, wherever
    the value was cut: the slices of two lists joined are the two values
    joined; the in-memory batch holds the joined value under the key and,
    once flushed, the store returns it; the SQLite batch appends the key
    with the joined value to the buffer of the keyspace. *)
Theorem putSlices_joined (keySpace : KeySpace) (key : string)
    (slices1 slices2 : list string) :
  appendSlices (slices1 ++ slices2) = (appendSlices slices1 ++ appendSlices slices2)%string /\
  (forall (kAll : list KeySpace) (batch store : MemoryStorage),
     Forall (fun ks => KeySpace_index ks < length store) kAll ->
     keySpace ∈ kAll -> KeySpace_index keySpace < length batch ->
     MemoryLocalStore_get keySpace key
       (snd (MemoryWriteBatch_flush kAll
               (MemoryWriteBatch_putSlices keySpace key (slices1 ++ slices2) batch) store))
     = Some (appendSlices slices1 ++ appendSlices slices2)%string) /\
  (forall (buffer : SqliteBuffer) (items : list (string * string)),
     buffer !! KeySpace_index keySpace = Some items ->
     SqliteWriteBatch_putSlices keySpace key (slices1 ++ slices2) buffer
       !! KeySpace_index keySpace
     = Some (items ++ [(key, (appendSlices slices1 ++ appendSlices slices2)%string)])).
Proof.
  assert (Hjoin : appendSlices (slices1 ++ slices2)
                  = (appendSlices slices1 ++ appendSlices slices2)%string).
  { unfold appendSlices at 1. rewrite fold_left_app, fold_append.
    now rewrite (fold_append slices1 ""). }
  split; [exact Hjoin|]. split.
  - intros kAll batch store Hall Hin Hlen.
    destruct (memory_flush_loop kAll
                (MemoryWriteBatch_putSlices keySpace key (slices1 ++ slices2) batch)
                store Hall) as [_ Hget].
    destruct (Hget keySpace key) as [Hstore _]. rewrite Hstore.
    rewrite decide_True by (apply list_elem_of_fmap; now exists keySpace).
    unfold MemoryWriteBatch_putSlices, MemoryWriteBatch_put.
    change (alter (fun m : gmap string string => <[key := appendSlices (slices1 ++ slices2)]> m)
              (KeySpace_index keySpace) batch)
      with (MemoryLocalStore_put keySpace key (appendSlices (slices1 ++ slices2)) batch).
    rewrite memory_get_put_frame by assumption.
    rewrite decide_True by (split; reflexivity). now rewrite Hjoin.
  - intros buffer items Hitems.
    unfold SqliteWriteBatch_putSlices, SqliteWriteBatch_put.
    rewrite list_lookup_alter, decide_True by reflexivity.
    now rewrite Hitems, Hjoin.
Qed.
